(** * The render-queue builder of iris: a shallow embedding

    The development follows [RenderQueueBuilder] (render_queue_builder.cpp):
    the helper [encode_light_pass_commands], [RenderQueueBuilder::build],
    [RenderQueueBuilder::add_pass] and
    [RenderQueueBuilder::add_post_processing_passes]; and
    [OpenGLTextureManager] (opengl_texture_manager.cpp), the pool of texture
    units behind [do_create] and [destroy].

    Conventions of the embedding.
    - A C++ pointer that may be null is an [option]; [None] is [nullptr].
      Pointers the source dereferences without a test ([RenderPass::scene],
      [RenderPass::camera]) have a type without a null value.
    - An object owned by a scene (a render graph, an entity, a light) is
      named by its owner and its position in the owner's container: the
      containers only ever grow at the back, so the position is a stable
      identity, exactly like the address held by the [unique_ptr].
    - [std::deque<RenderPass>] is a [list]; the address of an element of the
      caller's deque is its index.
    - The three callbacks are external collaborators.  They are parameters
      of the development, threading a state of their own, and every call is
      recorded in a trace so that the effects of a run can be stated. *)

From stdpp Require Import base strings list gmap.
From Stdlib Require Import QArith.

Local Open Scope nat_scope.
Set Warnings "-register-all".

(** ** Handles and pointers *)

(** [RenderTarget *], [Material *], [CubeMap *]: opaque handles. *)
Definition RenderTargetRef := nat.
Definition MaterialRef := nat.
Definition CubeMapRef := nat.

(** [float] values are carried around, never computed with. *)
Definition float := Q.

Inductive ScenePtr :=
| CallerScene (a : nat)        (* a scene owned by the caller *)
| PassDataScene (i : nat).     (* [pass_data_[i].scene] *)

Inductive RenderGraphPtr := RenderGraphAt (s : ScenePtr) (i : nat).
Inductive EntityPtr := EntityAt (s : ScenePtr) (i : nat).
Inductive DirectionalLightPtr := DirectionalLightAt (s : ScenePtr) (i : nat).

Inductive LightPtr :=
| AmbientLightOf (s : ScenePtr)
| PointLightAt (s : ScenePtr) (i : nat)
| DirectionalLightPtrOf (l : DirectionalLightPtr).

Inductive CameraPtr :=
| CallerCamera (a : nat)                    (* a camera owned by the caller *)
| ShadowCameraOf (l : DirectionalLightPtr)  (* [addressof(light->shadow_camera())] *)
| PassDataCamera (i : nat).                 (* [pass_data_[i].camera] *)

#[global] Instance ScenePtr_eq_dec : EqDecision ScenePtr.
Proof. solve_decision. Defined.
#[global] Instance ScenePtr_countable : Countable ScenePtr.
Proof.
  refine (inj_countable'
    (fun p => match p with CallerScene a => inl a | PassDataScene i => inr i end)
    (fun s => match s with inl a => CallerScene a | inr i => PassDataScene i end) _).
  by intros [].
Defined.
#[global] Instance DirectionalLightPtr_eq_dec : EqDecision DirectionalLightPtr.
Proof. solve_decision. Defined.
#[global] Instance DirectionalLightPtr_countable : Countable DirectionalLightPtr.
Proof.
  refine (inj_countable'
    (fun p => match p with DirectionalLightAt s i => (s, i) end)
    (fun q => DirectionalLightAt q.1 q.2) _).
  by intros [].
Defined.
#[global] Instance LightPtr_eq_dec : EqDecision LightPtr.
Proof. solve_decision. Defined.
#[global] Instance EntityPtr_eq_dec : EqDecision EntityPtr.
Proof. solve_decision. Defined.
#[global] Instance RenderGraphPtr_eq_dec : EqDecision RenderGraphPtr.
Proof. solve_decision. Defined.
#[global] Instance CameraPtr_eq_dec : EqDecision CameraPtr.
Proof. solve_decision. Defined.

(** ** Enumerations *)

Inductive LightType := AMBIENT | POINT | DIRECTIONAL.
Inductive RenderCommandType := PASS_START | DRAW | PASS_END | PRESENT.
Inductive CameraType := PERSPECTIVE | ORTHOGRAPHIC.
Inductive ArithmeticOperator := ADD | SUBTRACT | MULTIPLY | DIVIDE | DOT.
Inductive ConditionalOperator := GREATER.

#[global] Instance LightType_eq_dec : EqDecision LightType.
Proof. solve_decision. Defined.
#[global] Instance RenderCommandType_eq_dec : EqDecision RenderCommandType.
Proof. solve_decision. Defined.
#[global] Instance CameraType_eq_dec : EqDecision CameraType.
Proof. solve_decision. Defined.

(** ** Cameras, lights, entities *)

(** A [Camera] as the builder constructs it: [{type, width, height}].  The
    builder copies cameras and takes their addresses, nothing else. *)
Record Camera := mkCamera {
  camera_type : CameraType;
  camera_width : N;
  camera_height : N
}.

(** The builder never reads the parameters of a point light. *)
Record PointLight := mkPointLight { }.

Record DirectionalLight := mkDirectionalLight {
  casts_shadows : bool;
  shadow_camera : Camera
}.

Record LightingRig := mkLightingRig {
  point_lights : list PointLight;
  directional_lights : list DirectionalLight
  (* [ambient_light]: one per rig, always present; it has no state the
     builder reads, and its address is [AmbientLightOf] the scene *)
}.

Inductive Mesh := CallerMesh (a : nat) | SpriteMesh | CubeMesh.

(** [Transform(translation, rotation, scale)]; the builder passes [{}] for
    the first two. *)
Inductive Transform :=
| CallerTransform (a : nat)
| ScaleTransform (x y z : float).

Record RenderEntity := mkRenderEntity {
  mesh : Mesh;
  transform : Transform;
  receive_shadow : bool
}.

(** ** Render graphs *)

(** [target->colour_texture()]: a texture is named by the target holding it. *)
Inductive Texture := colour_texture (target : option RenderTargetRef).

Record Colour := mkColour { r : float; g : float; b : float; a : float }.

(** ** What the builder is constructed with

    The constructor of [RenderQueueBuilder] stores the size of the screen and
    three callbacks.  The callbacks reach into the graphics backend; they are
    functions over a backend state [ExtState] about which nothing is assumed.
    The parameter blocks of two post-processing effects, the member
    initialisers of the flags of [RenderPass] and the shadow flag of a
    freshly created [SingleEntity] are fixed in other headers of the engine;
    they are parameters as well. *)
Class Backend := {
  ColourAdjustDescription : Type;
  AmbientOcclusionDescription : Type;
  ExtState : Type;
  width_ : N;
  height_ : N;
  create_material_callback_ :
    RenderGraphPtr -> EntityPtr -> option RenderTargetRef -> LightType ->
    bool -> bool -> ExtState -> MaterialRef * ExtState;
  create_render_target_callback_ :
    N -> N -> ExtState -> RenderTargetRef * ExtState;
  create_hybrid_render_target_callback_ :
    option RenderTargetRef -> option RenderTargetRef ->
    ExtState -> RenderTargetRef * ExtState;
  (* [RenderPass]: values of the members a designated initialiser leaves out *)
  default_depth_only : bool;
  default_clear_colour : bool;
  default_clear_depth : bool;
  (* [SingleEntity]: value of [receive_shadow()] after construction *)
  single_entity_receive_shadow : bool
}.

Section Builder.
Context `{backend : Backend}.

Inductive Node :=
| RenderNode (colour_input : option Node)   (* the node a new graph starts with *)
| TextureNode (texture : Texture)
| ValueNodeColour (value : Colour)
| ValueNodeFloat (value : float)
| ArithmeticNode (value1 value2 : Node) (op : ArithmeticOperator)
| ConditionalNode (lhs rhs output1 output2 : Node) (op : ConditionalOperator)
| BlurNode (input : Node)
| AmbientOcclusionNode (input normal position : Node)
    (description : AmbientOcclusionDescription)
| ColourAdjustNode (input : Node) (description : ColourAdjustDescription)
| AntiAliasingNode (input : Node)
| SkyBoxNode (sky_box : CubeMapRef).

Record RenderGraph := mkRenderGraph { render_node : Node }.

(** [rg->render_node()->set_colour_input(n)]. On a node that is not the plain
    render node the source would call the same setter of the derived node;
    the builder only ever calls it on a graph it has just created. *)
Definition set_colour_input (n : Node) (rg : RenderGraph) : RenderGraph :=
  match render_node rg with
  | RenderNode _ => mkRenderGraph (RenderNode (Some n))
  | _ => rg
  end.

(** [rg->set_render_node<T>(args...)] *)
Definition set_render_node (n : Node) (rg : RenderGraph) : RenderGraph :=
  mkRenderGraph n.

Record Scene := mkScene {
  render_graphs : list RenderGraph;
  entities : list (RenderGraphPtr * RenderEntity);
  lighting_rig : LightingRig
}.

(** Modelled from the spec: [Scene{}], the constructor of scene.h.  A new
    scene has no graph and no entity, and its rig has the ambient light that
    every scene has and no other light. *)
Definition empty_scene : Scene :=
  mkScene [] [] (mkLightingRig [] []).

Record PassData := mkPassData { pd_scene : Scene; pd_camera : Camera }.

Record BloomDescription := mkBloom { threshold : float; iterations : nat }.

Record PostProcessingDescription := mkPostProcessing {
  bloom : option BloomDescription;
  colour_adjust : option ColourAdjustDescription;
  ambient_occlusion : option AmbientOcclusionDescription;
  anti_aliasing : bool
}.

(** [PostProcessingDescription{}] *)
Definition no_post_processing : PostProcessingDescription :=
  mkPostProcessing None None None false.

Record RenderPass := mkRenderPass {
  scene : ScenePtr;
  camera : CameraPtr;
  colour_target : option RenderTargetRef;
  normal_target : option RenderTargetRef;
  position_target : option RenderTargetRef;
  post_processing_description : PostProcessingDescription;
  sky_box : option CubeMapRef;
  depth_only : bool;
  clear_colour : bool;
  clear_depth : bool
}.

(** Modelled from the spec: [{.scene = s, .camera = c}], with the member
    initialisers of render_pass.h for the rest.  The attachments and the sky
    box are optional and start out absent, no effect is configured; the
    three flags are parameters. *)
Definition new_render_pass (s : ScenePtr) (c : CameraPtr) : RenderPass :=
  mkRenderPass s c None None None no_post_processing None
    default_depth_only default_clear_colour default_clear_depth.

Definition with_colour_target (t : option RenderTargetRef) (p : RenderPass) :=
  mkRenderPass (scene p) (camera p) t (normal_target p) (position_target p)
    (post_processing_description p) (sky_box p) (depth_only p)
    (clear_colour p) (clear_depth p).

Definition with_camera (c : CameraPtr) (p : RenderPass) :=
  mkRenderPass (scene p) c (colour_target p) (normal_target p) (position_target p)
    (post_processing_description p) (sky_box p) (depth_only p)
    (clear_colour p) (clear_depth p).
Definition with_normal_target (t : option RenderTargetRef) (p : RenderPass) :=
  mkRenderPass (scene p) (camera p) (colour_target p) t (position_target p)
    (post_processing_description p) (sky_box p) (depth_only p)
    (clear_colour p) (clear_depth p).
Definition with_position_target (t : option RenderTargetRef) (p : RenderPass) :=
  mkRenderPass (scene p) (camera p) (colour_target p) (normal_target p) t
    (post_processing_description p) (sky_box p) (depth_only p)
    (clear_colour p) (clear_depth p).
Definition with_post_processing_description (d : PostProcessingDescription)
    (p : RenderPass) :=
  mkRenderPass (scene p) (camera p) (colour_target p) (normal_target p)
    (position_target p) d (sky_box p) (depth_only p)
    (clear_colour p) (clear_depth p).
Definition with_depth_only (v : bool) (p : RenderPass) :=
  mkRenderPass (scene p) (camera p) (colour_target p) (normal_target p)
    (position_target p) (post_processing_description p) (sky_box p) v
    (clear_colour p) (clear_depth p).
Definition with_clear_colour (v : bool) (p : RenderPass) :=
  mkRenderPass (scene p) (camera p) (colour_target p) (normal_target p)
    (position_target p) (post_processing_description p) (sky_box p) (depth_only p)
    v (clear_depth p).
Definition with_clear_depth (v : bool) (p : RenderPass) :=
  mkRenderPass (scene p) (camera p) (colour_target p) (normal_target p)
    (position_target p) (post_processing_description p) (sky_box p) (depth_only p)
    (clear_colour p) v.

(** [passes.back() = f(passes.back())]. On an empty deque [back()] is
    undefined; the builder always pushes before it calls this. *)
Definition update_back {A} (f : A -> A) (passes : list A) : list A :=
  match reverse passes with
  | [] => []
  | x :: rest => reverse rest ++ [f x]
  end.

(** A render command; [render_pass] is the address of an element of the
    caller's deque, i.e. its index there. *)
Record RenderCommand := mkRenderCommand {
  type : RenderCommandType;
  render_pass : option nat;
  material : option MaterialRef;
  render_entity : option EntityPtr;
  shadow_map : option RenderTargetRef;
  light : option LightPtr
}.

(** [RenderCommand cmd{}]: every reference is null.  The type the command
    starts with is overwritten before it is first copied into the queue. *)
Definition empty_command : RenderCommand :=
  mkRenderCommand PASS_START None None None None None.

Definition set_type (t : RenderCommandType) (c : RenderCommand) :=
  mkRenderCommand t (render_pass c) (material c) (render_entity c)
    (shadow_map c) (light c).
Definition set_render_pass (p : option nat) (c : RenderCommand) :=
  mkRenderCommand (type c) p (material c) (render_entity c)
    (shadow_map c) (light c).
Definition set_material (m : option MaterialRef) (c : RenderCommand) :=
  mkRenderCommand (type c) (render_pass c) m (render_entity c)
    (shadow_map c) (light c).
Definition set_render_entity (e : option EntityPtr) (c : RenderCommand) :=
  mkRenderCommand (type c) (render_pass c) (material c) e
    (shadow_map c) (light c).
Definition set_shadow_map (t : option RenderTargetRef) (c : RenderCommand) :=
  mkRenderCommand (type c) (render_pass c) (material c) (render_entity c)
    t (light c).
Definition set_light (l : option LightPtr) (c : RenderCommand) :=
  mkRenderCommand (type c) (render_pass c) (material c) (render_entity c)
    (shadow_map c) l.

(** ** The memory a build runs in *)

(** One call of a collaborator, with its arguments and its result. *)
Inductive Call :=
| CreateMaterial (rg : RenderGraphPtr) (e : EntityPtr)
    (target : option RenderTargetRef) (lt : LightType)
    (needs_normal needs_position : bool) (result : MaterialRef)
| CreateRenderTarget (w h : N) (result : RenderTargetRef)
| CreateHybridRenderTarget (colour depth : option RenderTargetRef)
    (result : RenderTargetRef).

Record World := mkWorld {
  ext : ExtState;                 (* state of the graphics backend *)
  scenes : nat -> Scene;          (* the caller's scenes, by address *)
  cameras : nat -> Camera;        (* the caller's cameras, by address *)
  pass_data_ : list PassData;     (* the builder's member *)
  calls : list Call               (* trace of collaborator calls, oldest first *)
}.

(** State-passing computations over [World]. *)
Definition M (A : Type) : Type := World -> A * World.

#[global] Instance M_ret : MRet M := fun A x w => (x, w).
#[global] Instance M_bind : MBind M :=
  fun A B k m w => let (x, w') := m w in k x w'.

Definition get_world : M World := fun w => (w, w).
Definition log_call (c : Call) : M unit :=
  fun w => (tt, mkWorld (ext w) (scenes w) (cameras w) (pass_data_ w) (calls w ++ [c])).
Definition lift_ext {A} (f : ExtState -> A * ExtState) : M A :=
  fun w => let (x, e) := f (ext w) in
           (x, mkWorld e (scenes w) (cameras w) (pass_data_ w) (calls w)).

Definition create_material (rg : RenderGraphPtr) (e : EntityPtr)
    (target : option RenderTargetRef) (lt : LightType) (nn np : bool) : M MaterialRef :=
  m ← lift_ext (create_material_callback_ rg e target lt nn np);
  log_call (CreateMaterial rg e target lt nn np m) ;;
  mret m.

Definition create_render_target (w h : N) : M RenderTargetRef :=
  t ← lift_ext (create_render_target_callback_ w h);
  log_call (CreateRenderTarget w h t) ;;
  mret t.

Definition create_hybrid_render_target (c d : option RenderTargetRef) : M RenderTargetRef :=
  t ← lift_ext (create_hybrid_render_target_callback_ c d);
  log_call (CreateHybridRenderTarget c d t) ;;
  mret t.

(** Dereferencing.  A pointer into [pass_data_] past its end, or to a light
    that does not exist, dangles; such a read is outside the contract of the
    builder and yields a default-constructed object here. *)
Definition default_pass_data : PassData :=
  mkPassData empty_scene (mkCamera ORTHOGRAPHIC 0 0).

Definition get_scene (w : World) (p : ScenePtr) : Scene :=
  match p with
  | CallerScene a => scenes w a
  | PassDataScene i => pd_scene (nth i (pass_data_ w) default_pass_data)
  end.

Definition get_camera (w : World) (p : CameraPtr) : Camera :=
  match p with
  | CallerCamera a => cameras w a
  | ShadowCameraOf (DirectionalLightAt s i) =>
      match directional_lights (lighting_rig (get_scene w s)) !! i with
      | Some l => shadow_camera l
      | None => pd_camera default_pass_data
      end
  | PassDataCamera i => pd_camera (nth i (pass_data_ w) default_pass_data)
  end.

Definition update_pass_data (i : nat) (f : PassData -> PassData) (w : World) : World :=
  mkWorld (ext w) (scenes w) (cameras w)
    (alter f i (pass_data_ w)) (calls w).

Definition update_scene_in (p : ScenePtr) (f : Scene -> Scene) (w : World) : World :=
  match p with
  | CallerScene a =>
      mkWorld (ext w)
        (fun a' => if decide (a' = a) then f (scenes w a) else scenes w a')
        (cameras w) (pass_data_ w) (calls w)
  | PassDataScene i =>
      update_pass_data i (fun d => mkPassData (f (pd_scene d)) (pd_camera d)) w
  end.

Definition update_scene (p : ScenePtr) (f : Scene -> Scene) : M unit :=
  fun w => (tt, update_scene_in p f w).

(** Modelled from the spec: [scene->create_render_graph()] of scene.h.  A
    new graph, holding the plain render node, at the back of the scene's
    graphs; the result is its address. *)
Definition create_render_graph (p : ScenePtr) : M RenderGraphPtr :=
  w ← get_world;
  update_scene p (fun s =>
    mkScene (render_graphs s ++ [mkRenderGraph (RenderNode None)])
      (entities s) (lighting_rig s)) ;;
  mret (RenderGraphAt p (length (render_graphs (get_scene w p)))).

(** Apply a change to the graph a pointer refers to. *)
Definition update_render_graph (rg : RenderGraphPtr) (f : RenderGraph -> RenderGraph) : M unit :=
  match rg with
  | RenderGraphAt p i =>
      update_scene p (fun s =>
        mkScene (alter f i (render_graphs s)) (entities s) (lighting_rig s))
  end.

(** Modelled from the spec: [scene->create_entity<SingleEntity>(rg, mesh,
    transform)] of scene.h.  A new entity bound to the graph, at the back of
    the scene's entities, where [entities()] will iterate over it last; the
    result is its address. *)
Definition create_entity (p : ScenePtr) (rg : RenderGraphPtr) (m : Mesh) (t : Transform)
    : M EntityPtr :=
  w ← get_world;
  update_scene p (fun s =>
    mkScene (render_graphs s)
      (entities s ++ [(rg, mkRenderEntity m t single_entity_receive_shadow)])
      (lighting_rig s)) ;;
  mret (EntityAt p (length (entities (get_scene w p)))).

(** ** [RenderQueueBuilder::add_pass] *)

(** The type of [create_render_graph_callback]: a function object taking
    the graph to fill in and the target to read from.  A lambda of
    the source may capture a pointer into the deque it is building
    ([prev] in [build]); the first argument is that deque as it stands when
    the lambda runs. *)
Definition GraphCallback : Type :=
  list RenderPass -> RenderGraph -> RenderTargetRef -> RenderGraph.

Definition push_pass_data (d : PassData) : M unit :=
  fun w => (tt, mkWorld (ext w) (scenes w) (cameras w) (pass_data_ w ++ [d]) (calls w)).

Definition float_of_N (n : N) : float := inject_Z (Z.of_N n).

Definition add_pass (render_passes : list RenderPass)
    (create_render_graph_callback : GraphCallback)
    : M (list RenderPass * RenderTargetRef) :=
  (* create new pass with *)
  w ← get_world;
  push_pass_data (mkPassData empty_scene (mkCamera ORTHOGRAPHIC width_ height_)) ;;
  let scene := PassDataScene (length (pass_data_ w)) in
  let camera := PassDataCamera (length (pass_data_ w)) in
  target ← create_render_target width_ height_;
  rg ← create_render_graph scene;
  update_render_graph rg
    (fun g => create_render_graph_callback render_passes g target) ;;
  create_entity scene rg SpriteMesh
    (ScaleTransform (float_of_N width_) (float_of_N height_) (1 - 1)%Q) ;;
  (* wire up this pass *)
  let render_passes := update_back (with_colour_target (Some target)) render_passes in
  let render_passes := render_passes ++ [new_render_pass scene camera] in
  mret (render_passes, target).

(** ** [RenderQueueBuilder::add_post_processing_passes] *)

Definition pass_through_graph : GraphCallback :=
  fun _ rg target =>
    set_colour_input (TextureNode (colour_texture (Some target))) rg.

Definition threshold_graph (bloom : BloomDescription) : GraphCallback :=
  fun _ rg target =>
    set_colour_input
      (ConditionalNode
         (ArithmeticNode
            (TextureNode (colour_texture (Some target)))
            (ValueNodeColour (mkColour 0.2126 0.7152 0.0722 0.0)%Q)
            DOT)
         (ValueNodeFloat (threshold bloom))
         (TextureNode (colour_texture (Some target)))
         (ValueNodeColour (mkColour 0.0 0.0 0.0 1.0)%Q)
         GREATER) rg.

Definition blur_graph : GraphCallback :=
  fun _ rg target =>
    set_colour_input (BlurNode (TextureNode (colour_texture (Some target)))) rg.

Definition composite_graph (null_target : RenderTargetRef) : GraphCallback :=
  fun _ rg target =>
    set_colour_input
      (ArithmeticNode
         (TextureNode (colour_texture (Some null_target)))
         (TextureNode (colour_texture (Some target)))
         ADD) rg.

Definition colour_adjust_graph (colour_adjust : ColourAdjustDescription) : GraphCallback :=
  fun _ rg target =>
    set_render_node
      (ColourAdjustNode (TextureNode (colour_texture (Some target))) colour_adjust) rg.

Definition anti_aliasing_graph : GraphCallback :=
  fun _ rg target =>
    set_render_node (AntiAliasingNode (TextureNode (colour_texture (Some target)))) rg.

(** [for (auto i = 0u; i < bloom->iterations; ++i) add_pass(...)] *)
Fixpoint add_blur_passes (n : nat) (render_passes : list RenderPass)
    : M (list RenderPass) :=
  match n with
  | 0 => mret render_passes
  | S n' =>
      '(render_passes, _) ← add_pass render_passes blur_graph;
      add_blur_passes n' render_passes
  end.

(** The passes of the [if (bloom)] block. *)
Definition add_bloom_passes (bloom : BloomDescription) (render_passes : list RenderPass)
    : M (list RenderPass) :=
  '(render_passes, null_target) ← add_pass render_passes pass_through_graph;
  '(render_passes, _) ← add_pass render_passes (threshold_graph bloom);
  render_passes ← add_blur_passes (iterations bloom) render_passes;
  '(render_passes, _) ← add_pass render_passes (composite_graph null_target);
  mret render_passes.

(** [if (const auto bloom = description.bloom; bloom) ...] *)
Definition bloom_stage (description : PostProcessingDescription)
    (render_passes : list RenderPass) : M (list RenderPass) :=
  match bloom description with
  | Some bloom => add_bloom_passes bloom render_passes
  | None => mret render_passes
  end.

(** [if (const auto colour_adjust = description.colour_adjust; colour_adjust) ...] *)
Definition colour_adjust_stage (description : PostProcessingDescription)
    (render_passes : list RenderPass) : M (list RenderPass) :=
  match colour_adjust description with
  | Some colour_adjust =>
      '(render_passes, _) ← add_pass render_passes (colour_adjust_graph colour_adjust);
      mret render_passes
  | None => mret render_passes
  end.

(** [if (description.anti_aliasing) ...] *)
Definition anti_aliasing_stage (description : PostProcessingDescription)
    (render_passes : list RenderPass) : M (list RenderPass) :=
  if anti_aliasing description
  then '(render_passes, _) ← add_pass render_passes anti_aliasing_graph;
       mret render_passes
  else mret render_passes.

(** The body of the loop over [passes]. *)
Definition post_process_pass (render_pass : RenderPass) (render_passes : list RenderPass)
    : M (list RenderPass) :=
  let render_passes := render_passes ++ [render_pass] in
  let input_target := colour_target render_pass in
  let description := post_processing_description render_pass in
  render_passes ← bloom_stage description render_passes;
  render_passes ← colour_adjust_stage description render_passes;
  render_passes ← anti_aliasing_stage description render_passes;
  mret (update_back (with_colour_target input_target) render_passes).

Fixpoint add_post_processing_passes (passes : list RenderPass)
    (render_passes : list RenderPass) : M (list RenderPass) :=
  match passes with
  | [] => mret render_passes
  | render_pass :: rest =>
      render_passes ← post_process_pass render_pass render_passes;
      add_post_processing_passes rest render_passes
  end.

(** ** [encode_light_pass_commands] *)

(** [cmd.render_pass()->colour_target]: the command points into the deque
    [render_passes]. *)
Definition colour_target_of (render_passes : list RenderPass) (cmd : RenderCommand)
    : option RenderTargetRef :=
  i ← render_pass cmd; p ← render_passes !! i; colour_target p.

(** [case LightType::POINT]: a draw command for each light. *)
Fixpoint encode_point_lights (scene : ScenePtr) (i : nat) (lights : list PointLight)
    (cmd : RenderCommand) (render_queue : list RenderCommand)
    : RenderCommand * list RenderCommand :=
  match lights with
  | [] => (cmd, render_queue)
  | _ :: rest =>
      let cmd := set_type DRAW cmd in
      let cmd := set_light (Some (PointLightAt scene i)) cmd in
      encode_point_lights scene (S i) rest cmd (render_queue ++ [cmd])
  end.

(** [case LightType::DIRECTIONAL]: a draw command for each light. *)
Fixpoint encode_directional_lights (scene : ScenePtr) (i : nat)
    (lights : list DirectionalLight) (render_entity : RenderEntity)
    (shadow_maps : gmap DirectionalLightPtr RenderTargetRef)
    (cmd : RenderCommand) (render_queue : list RenderCommand)
    : RenderCommand * list RenderCommand :=
  match lights with
  | [] => (cmd, render_queue)
  | _ :: rest =>
      let light := DirectionalLightAt scene i in
      let cmd := set_type DRAW cmd in
      let cmd := set_light (Some (DirectionalLightPtrOf light)) cmd in
      (* set shadow map in render command *)
      let cmd :=
        if receive_shadow render_entity
        then set_shadow_map (shadow_maps !! light) cmd
        else cmd in
      encode_directional_lights scene (S i) rest render_entity shadow_maps
        cmd (render_queue ++ [cmd])
  end.

(** The loop over [scene->entities()]; [i] is the position of the first
    entity of [ents] in the scene. *)
Fixpoint encode_entities (render_passes : list RenderPass) (scene : ScenePtr)
    (rig : LightingRig) (light_type : LightType)
    (has_normal_target has_position_target : bool)
    (shadow_maps : gmap DirectionalLightPtr RenderTargetRef)
    (i : nat) (ents : list (RenderGraphPtr * RenderEntity))
    (cmd : RenderCommand) (render_queue : list RenderCommand)
    : M (RenderCommand * list RenderCommand) :=
  match ents with
  | [] => mret (cmd, render_queue)
  | (render_graph, render_entity) :: rest =>
      material ← create_material render_graph (EntityAt scene i)
        (colour_target_of render_passes cmd) light_type
        (has_normal_target && bool_decide (light_type = AMBIENT))
        (has_position_target && bool_decide (light_type = AMBIENT));
      let cmd := set_material (Some material) cmd in
      let cmd := set_render_entity (Some (EntityAt scene i)) cmd in
      (* light specific draw commands *)
      let '(cmd, render_queue) :=
        match light_type with
        | AMBIENT =>
            let cmd := set_type DRAW cmd in
            let cmd := set_light (Some (AmbientLightOf scene)) cmd in
            (cmd, render_queue ++ [cmd])
        | POINT =>
            encode_point_lights scene 0 (point_lights rig) cmd render_queue
        | DIRECTIONAL =>
            encode_directional_lights scene 0 (directional_lights rig)
              render_entity shadow_maps cmd render_queue
        end in
      encode_entities render_passes scene rig light_type
        has_normal_target has_position_target shadow_maps (S i) rest cmd render_queue
  end.

(** [cmd] and [render_queue] are passed by reference in the source; here
    they are passed in and handed back.  [render_passes] is the deque that
    [cmd.render_pass()] points into. *)
Definition encode_light_pass_commands (render_passes : list RenderPass)
    (scene : ScenePtr) (light_type : LightType)
    (has_normal_target has_position_target : bool)
    (cmd : RenderCommand) (render_queue : list RenderCommand)
    (shadow_maps : gmap DirectionalLightPtr RenderTargetRef)
    : M (RenderCommand * list RenderCommand) :=
  w ← get_world;
  (* create commands for each entity in the scene *)
  encode_entities render_passes scene (lighting_rig (get_scene w scene)) light_type
    has_normal_target has_position_target shadow_maps
    0 (entities (get_scene w scene)) cmd render_queue.

(** ** [RenderQueueBuilder::build] *)

(** The loop over the directional lights of the scene of [pass]: for each
    shadow casting light create a render target for the shadow map and
    enqueue a pass so that it is rendered.  [i] is the position of the first
    light of [lights] in the rig. *)
Fixpoint add_shadow_passes (pass : RenderPass) (i : nat) (lights : list DirectionalLight)
    (pre_process_passes : list RenderPass)
    (shadow_maps : gmap DirectionalLightPtr RenderTargetRef)
    : M (list RenderPass * gmap DirectionalLightPtr RenderTargetRef) :=
  match lights with
  | [] => mret (pre_process_passes, shadow_maps)
  | light :: rest =>
      '(pre_process_passes, shadow_maps) ←
        (if casts_shadows light
         then
           rt ← create_render_target 1024 1024;
           let shadow_pass := pass in
           let shadow_pass := with_post_processing_description no_post_processing shadow_pass in
           let shadow_pass :=
             with_camera (ShadowCameraOf (DirectionalLightAt (scene pass) i)) shadow_pass in
           let shadow_pass := with_colour_target (Some rt) shadow_pass in
           let shadow_pass := with_normal_target None shadow_pass in
           let shadow_pass := with_position_target None shadow_pass in
           let shadow_pass := with_depth_only true shadow_pass in
           let shadow_pass := with_clear_colour true shadow_pass in
           let shadow_pass := with_clear_depth true shadow_pass in
           mret (pre_process_passes ++ [shadow_pass],
                 <[DirectionalLightAt (scene pass) i := rt]> shadow_maps)
         else mret (pre_process_passes, shadow_maps));
      add_shadow_passes pass (S i) rest pre_process_passes shadow_maps
  end.

(** The graph of the SSAO pass; [prev] is the position in the deque of the
    pass that outputs normals and positions. *)
Definition ambient_occlusion_graph (prev : nat) (ssao : AmbientOcclusionDescription)
    : GraphCallback :=
  fun passes rg target =>
    match passes !! prev with
    | Some prev_pass =>
        set_render_node
          (AmbientOcclusionNode
             (TextureNode (colour_texture (Some target)))
             (TextureNode (colour_texture (normal_target prev_pass)))
             (TextureNode (colour_texture (position_target prev_pass)))
             ssao) rg
    | None => rg
    end.

(** [pass_data_.back().camera = c] *)
Definition set_back_camera (c : Camera) : M unit :=
  fun w => (tt, update_pass_data (length (pass_data_ w) - 1)
                  (fun d => mkPassData (pd_scene d) c) w).

(** The [if (ssao)] block: the result is the changed [pass] and the longer
    deque of pre-process passes. *)
Definition add_ambient_occlusion_passes (ssao : AmbientOcclusionDescription)
    (pass : RenderPass) (pre_process_passes : list RenderPass)
    : M (RenderPass * list RenderPass) :=
  (* add a pass to output the data we need *)
  let ao_data_pass := pass in
  let ao_data_pass := with_post_processing_description no_post_processing ao_data_pass in
  let ao_data_pass := with_colour_target None ao_data_pass in
  normal ← create_render_target width_ height_;
  let ao_data_pass := with_normal_target (Some normal) ao_data_pass in
  position ← create_render_target width_ height_;
  let ao_data_pass := with_position_target (Some position) ao_data_pass in
  let ao_data_pass := with_depth_only true ao_data_pass in
  let ao_data_pass := with_clear_colour true ao_data_pass in
  let pre_process_passes := pre_process_passes ++ [ao_data_pass] in
  let prev := length pre_process_passes - 1 in
  w ← get_world;
  let prev_camera := get_camera w (camera ao_data_pass) in
  (* add a pass to calculate ssao (combined with the ambient light pass) *)
  '(pre_process_passes, ao_target) ←
    add_pass pre_process_passes (ambient_occlusion_graph prev ssao);
  (* ensure we render with the perspective camera not the orthographic
     camera that will be created for the new pass *)
  set_back_camera prev_camera ;;
  let pre_process_passes :=
    update_back (with_colour_target (colour_target pass)) pre_process_passes in
  let prev_colour_target := last pre_process_passes ≫= colour_target in
  (* fudge the colour target of the pre pass and the depth target of the
     ssao pass into one render target *)
  hybrid ← create_hybrid_render_target prev_colour_target (Some ao_target);
  let pass := with_colour_target (Some hybrid) pass in
  let pass := with_clear_colour false pass in
  let pass := with_clear_depth false pass in
  mret (pass, pre_process_passes).

(** The body of the first loop of [build]; the result is the pass as the loop
    leaves it in [initial_passes], the pre-process passes and the shadow maps. *)
Definition add_pre_process_passes_of (pass : RenderPass)
    (pre_process_passes : list RenderPass)
    (shadow_maps : gmap DirectionalLightPtr RenderTargetRef)
    : M (RenderPass * list RenderPass * gmap DirectionalLightPtr RenderTargetRef) :=
  w ← get_world;
  '(pre_process_passes, shadow_maps) ←
    add_shadow_passes pass 0
      (directional_lights (lighting_rig (get_scene w (scene pass))))
      pre_process_passes shadow_maps;
  match ambient_occlusion (post_processing_description pass) with
  | Some ssao =>
      '(pass, pre_process_passes) ←
        add_ambient_occlusion_passes ssao pass pre_process_passes;
      mret (pass, pre_process_passes, shadow_maps)
  | None => mret (pass, pre_process_passes, shadow_maps)
  end.

(** [for (auto &pass : initial_passes)]: the first component of the result
    is [initial_passes] after the loop. *)
Fixpoint add_pre_process_passes (initial_passes : list RenderPass)
    (pre_process_passes : list RenderPass)
    (shadow_maps : gmap DirectionalLightPtr RenderTargetRef)
    : M (list RenderPass * list RenderPass * gmap DirectionalLightPtr RenderTargetRef) :=
  match initial_passes with
  | [] => mret ([], pre_process_passes, shadow_maps)
  | pass :: rest =>
      '(pass, pre_process_passes, shadow_maps) ←
        add_pre_process_passes_of pass pre_process_passes shadow_maps;
      '(rest, pre_process_passes, shadow_maps) ←
        add_pre_process_passes rest pre_process_passes shadow_maps;
      mret (pass :: rest, pre_process_passes, shadow_maps)
  end.

(** The [if (pass.sky_box != nullptr)] block. *)
Definition encode_sky_box (render_passes : list RenderPass) (pass : RenderPass)
    (sky : CubeMapRef) (cmd : RenderCommand) (render_queue : list RenderCommand)
    : M (RenderCommand * list RenderCommand) :=
  let scene := scene pass in
  sky_box_rg ← create_render_graph scene;
  update_render_graph sky_box_rg (set_render_node (SkyBoxNode sky)) ;;
  sky_box_entity ← create_entity scene sky_box_rg CubeMesh
    (ScaleTransform 0.5 0.5 0.5)%Q;
  material ← create_material sky_box_rg sky_box_entity
    (colour_target_of render_passes cmd) AMBIENT false false;
  let cmd := set_material (Some material) cmd in
  let cmd := set_render_entity (Some sky_box_entity) cmd in
  let cmd := set_type DRAW cmd in
  let cmd := set_light (Some (AmbientLightOf scene)) cmd in
  mret (cmd, render_queue ++ [cmd]).

(** The four blocks between [PASS_START] and [PASS_END]. *)
Definition encode_ambient (render_passes : list RenderPass) (pass : RenderPass)
    (cmd : RenderCommand) (render_queue : list RenderCommand)
    (shadow_maps : gmap DirectionalLightPtr RenderTargetRef)
    : M (RenderCommand * list RenderCommand) :=
  (* encode ambient light pass unless we have used ssao (in which case this
     gets done by the ssao pass itself) *)
  match ambient_occlusion (post_processing_description pass) with
  | Some _ => mret (cmd, render_queue)
  | None =>
      encode_light_pass_commands render_passes (scene pass) AMBIENT
        (bool_decide (normal_target pass ≠ None))
        (bool_decide (position_target pass ≠ None))
        cmd render_queue shadow_maps
  end.

Definition encode_point (render_passes : list RenderPass) (pass : RenderPass)
    (cmd : RenderCommand) (render_queue : list RenderCommand)
    (shadow_maps : gmap DirectionalLightPtr RenderTargetRef)
    : M (RenderCommand * list RenderCommand) :=
  w ← get_world;
  (* encode point lights if there are any *)
  if bool_decide (point_lights (lighting_rig (get_scene w (scene pass))) = [])
  then mret (cmd, render_queue)
  else encode_light_pass_commands render_passes (scene pass) POINT
         (bool_decide (normal_target pass ≠ None))
         (bool_decide (position_target pass ≠ None))
         cmd render_queue shadow_maps.

Definition encode_directional (render_passes : list RenderPass) (pass : RenderPass)
    (cmd : RenderCommand) (render_queue : list RenderCommand)
    (shadow_maps : gmap DirectionalLightPtr RenderTargetRef)
    : M (RenderCommand * list RenderCommand) :=
  w ← get_world;
  (* encode directional lights if there are any *)
  if bool_decide (directional_lights (lighting_rig (get_scene w (scene pass))) = [])
  then mret (cmd, render_queue)
  else encode_light_pass_commands render_passes (scene pass) DIRECTIONAL
         (bool_decide (normal_target pass ≠ None))
         (bool_decide (position_target pass ≠ None))
         cmd render_queue shadow_maps.

Definition encode_sky (render_passes : list RenderPass) (pass : RenderPass)
    (cmd : RenderCommand) (render_queue : list RenderCommand)
    : M (RenderCommand * list RenderCommand) :=
  match sky_box pass with
  | Some sky => encode_sky_box render_passes pass sky cmd render_queue
  | None => mret (cmd, render_queue)
  end.

(** The body of the second loop of [build]: convert the pass at position [i]
    of [render_passes] into a series of commands which will render it. *)
Definition encode_pass (render_passes : list RenderPass) (i : nat) (pass : RenderPass)
    (cmd : RenderCommand) (render_queue : list RenderCommand)
    (shadow_maps : gmap DirectionalLightPtr RenderTargetRef)
    : M (RenderCommand * list RenderCommand) :=
  let cmd := set_render_pass (Some i) cmd in
  let cmd := set_type PASS_START cmd in
  let render_queue := render_queue ++ [cmd] in
  '(cmd, render_queue) ← encode_ambient render_passes pass cmd render_queue shadow_maps;
  '(cmd, render_queue) ←
    (if depth_only pass
     then mret (cmd, render_queue)
     else
       '(cmd, render_queue) ←
         encode_point render_passes pass cmd render_queue shadow_maps;
       '(cmd, render_queue) ←
         encode_directional render_passes pass cmd render_queue shadow_maps;
       encode_sky render_passes pass cmd render_queue);
  let cmd := set_type PASS_END cmd in
  mret (cmd, render_queue ++ [cmd]).

Fixpoint encode_passes (render_passes : list RenderPass) (i : nat)
    (passes : list RenderPass)
    (cmd : RenderCommand) (render_queue : list RenderCommand)
    (shadow_maps : gmap DirectionalLightPtr RenderTargetRef)
    : M (RenderCommand * list RenderCommand) :=
  match passes with
  | [] => mret (cmd, render_queue)
  | pass :: rest =>
      '(cmd, render_queue) ←
        encode_pass render_passes i pass cmd render_queue shadow_maps;
      encode_passes render_passes (S i) rest cmd render_queue shadow_maps
  end.

(** The three stages of [build] up to the final pass list: the pre-process
    passes are put in front of the initial passes, and every pass is followed
    by its post-processing passes.  The result is the caller's deque as
    [build] leaves it, and the shadow maps. *)
Definition build_passes (render_passes : list RenderPass)
    : M (list RenderPass * gmap DirectionalLightPtr RenderTargetRef) :=
  let shadow_maps : gmap DirectionalLightPtr RenderTargetRef := ∅ in
  let pre_process_passes : list RenderPass := [] in
  let initial_passes := render_passes in
  let render_passes : list RenderPass := [] in
  '(initial_passes, pre_process_passes, shadow_maps) ←
    add_pre_process_passes initial_passes pre_process_passes shadow_maps;
  (* insert shadow passes into the queue *)
  let initial_passes := pre_process_passes ++ initial_passes in
  render_passes ← add_post_processing_passes initial_passes render_passes;
  mret (render_passes, shadow_maps).

(** [build] takes the caller's deque by reference: the second component of
    the result is the deque when [build] returns. *)
Definition build (render_passes : list RenderPass)
    : M (list RenderCommand * list RenderPass) :=
  '(render_passes, shadow_maps) ← build_passes render_passes;
  let render_queue : list RenderCommand := [] in
  let cmd := empty_command in
  '(cmd, render_queue) ←
    encode_passes render_passes 0 render_passes cmd render_queue shadow_maps;
  let cmd := set_type PRESENT cmd in
  mret (render_queue ++ [cmd], render_passes).

(** * Vocabulary of the properties *)

(** [only_calls w w' new]: from [w] to [w'] the collaborators were called
    ([new], in order) and nothing else happened. *)
Definition only_calls (w w' : World) (new : list Call) : Prop :=
  scenes w' = scenes w /\ cameras w' = cameras w /\
  pass_data_ w' = pass_data_ w /\ calls w' = calls w ++ new.

(** What a command says apart from its material and its shadow map. *)
Definition view (c : RenderCommand)
    : RenderCommandType * option nat * option EntityPtr * option LightPtr :=
  (type c, render_pass c, render_entity c, light c).

(** The view of a DRAW of pass [rp] for the entity [e] and the light [l]. *)
Definition draw_view (rp : option nat) (e : EntityPtr) (l : LightPtr) :=
  (DRAW, rp, Some e, Some l).

(** The command the directional loop pushes for the light at position [i]. *)
Definition directional_command (scn : ScenePtr) (i : nat) (ent : RenderEntity)
    (sm : gmap DirectionalLightPtr RenderTargetRef) (cmd : RenderCommand) :=
  let cmd := set_light (Some (DirectionalLightPtrOf (DirectionalLightAt scn i)))
               (set_type DRAW cmd) in
  if receive_shadow ent
  then set_shadow_map (sm !! DirectionalLightAt scn i) cmd
  else cmd.

(** The (entity, light) pairs of one light type, entities outer and lights
    inner; [i] and [n] delimit the entities. *)
Definition light_pass_views (lt : LightType) (scn : ScenePtr) (rig : LightingRig)
    (rp : option nat) (i n : nat) :=
  match lt with
  | AMBIENT =>
      map (fun k => draw_view rp (EntityAt scn k) (AmbientLightOf scn)) (seq i n)
  | POINT =>
      flat_map (fun k =>
        map (fun j => draw_view rp (EntityAt scn k) (PointLightAt scn j))
            (seq 0 (length (point_lights rig)))) (seq i n)
  | DIRECTIONAL =>
      flat_map (fun k =>
        map (fun j => draw_view rp (EntityAt scn k)
                        (DirectionalLightPtrOf (DirectionalLightAt scn j)))
            (seq 0 (length (directional_lights rig)))) (seq i n)
  end.

(** A call of the material factory for the light type [lt]. *)
Definition material_call_of (lt : LightType) (c : Call) : Prop :=
  match c with
  | CreateMaterial _ _ _ lt' _ _ _ => lt' = lt
  | _ => False
  end.

(** A directional draw for an entity that receives shadows holds what the
    table says about its light. *)
Definition shadow_map_looked_up (scn : ScenePtr)
    (ents : list (RenderGraphPtr * RenderEntity))
    (sm : gmap DirectionalLightPtr RenderTargetRef) (c : RenderCommand) : Prop :=
  forall k l rg e,
    render_entity c = Some (EntityAt scn k) ->
    light c = Some (DirectionalLightPtrOf l) ->
    ents !! k = Some (rg, e) -> receive_shadow e = true ->
    shadow_map c = sm !! l.

(** What a block of [encode_pass] does to the command in flight, the queue
    and the trace when it leaves the memory alone: it appends [out], whose
    views are [views], keeps the pass of the command, and calls the material
    factory for light types in [lts] only. *)
Definition block_spec (scn : ScenePtr) (sm : gmap DirectionalLightPtr RenderTargetRef)
    (w : World) (cmd : RenderCommand) (q : list RenderCommand)
    (r : RenderCommand * list RenderCommand * World)
    (views : list (RenderCommandType * option nat * option EntityPtr * option LightPtr))
    (lts : list LightType) (out : list RenderCommand) (new : list Call) : Prop :=
  r.1.2 = q ++ out /\
  map view out = views /\
  render_pass r.1.1 = render_pass cmd /\
  only_calls w r.2 new /\
  Forall (fun c => exists lt, lt ∈ lts /\ material_call_of lt c) new /\
  Forall (shadow_map_looked_up scn (entities (get_scene w scn)) sm) out.

(** The draws of the four blocks of the pass at position [i], in the memory
    [w] in which its encoding starts. *)
Definition ambient_views (w : World) (i : nat) (pass : RenderPass) :=
  match ambient_occlusion (post_processing_description pass) with
  | Some _ => []
  | None =>
      light_pass_views AMBIENT (scene pass) (lighting_rig (get_scene w (scene pass)))
        (Some i) 0 (length (entities (get_scene w (scene pass))))
  end.

Definition point_views (w : World) (i : nat) (pass : RenderPass) :=
  light_pass_views POINT (scene pass) (lighting_rig (get_scene w (scene pass)))
    (Some i) 0 (length (entities (get_scene w (scene pass)))).

Definition directional_views (w : World) (i : nat) (pass : RenderPass) :=
  light_pass_views DIRECTIONAL (scene pass) (lighting_rig (get_scene w (scene pass)))
    (Some i) 0 (length (entities (get_scene w (scene pass)))).

(** The sky box is drawn on an entity made for it, which comes after the
    entities the scene had. *)
Definition sky_views (w : World) (i : nat) (pass : RenderPass) :=
  match sky_box pass with
  | Some _ =>
      [draw_view (Some i)
         (EntityAt (scene pass) (length (entities (get_scene w (scene pass)))))
         (AmbientLightOf (scene pass))]
  | None => []
  end.

(** The scene after the sky box block: one more graph and one more entity. *)
Definition with_sky_box (scn : ScenePtr) (sky : CubeMapRef) (s : Scene) : Scene :=
  mkScene
    (render_graphs s ++ [mkRenderGraph (SkyBoxNode sky)])
    (entities s ++
       [(RenderGraphAt scn (length (render_graphs s)),
         mkRenderEntity CubeMesh (ScaleTransform 0.5 0.5 0.5)%Q
           single_entity_receive_shadow)])
    (lighting_rig s).

(** The light types [encode_pass] may ask materials for. *)
Definition pass_light_types (w : World) (pass : RenderPass) : list LightType :=
  AMBIENT ::
  (if depth_only pass then []
   else
     (if bool_decide (point_lights (lighting_rig (get_scene w (scene pass))) = [])
      then [] else [POINT]) ++
     (if bool_decide (directional_lights (lighting_rig (get_scene w (scene pass))) = [])
      then [] else [DIRECTIONAL])).

(** The draws of a pass, block after block. *)
Definition pass_views (w : World) (i : nat) (pass : RenderPass) :=
  ambient_views w i pass ++
  (if depth_only pass then []
   else point_views w i pass ++ directional_views w i pass ++ sky_views w i pass).

(** The caller's scenes after a pass. *)
Definition scenes_after_pass (w : World) (pass : RenderPass) (a : nat) : Scene :=
  match sky_box pass with
  | Some sky =>
      if bool_decide (depth_only pass = false /\ scene pass = CallerScene a)
      then with_sky_box (scene pass) sky (scenes w a)
      else scenes w a
  | None => scenes w a
  end.

(** What [encode_pass] does: to the queue ([start], [draws], [stop]), to the
    command in flight, to the trace ([new]) and to the memory. *)
Record pass_encoded (rps : list RenderPass) (i : nat) (pass : RenderPass)
    (cmd : RenderCommand) (q : list RenderCommand)
    (sm : gmap DirectionalLightPtr RenderTargetRef) (w : World)
    (start : RenderCommand) (draws : list RenderCommand) (stop : RenderCommand)
    (new : list Call) : Prop := {
  pe_queue :
    (encode_pass rps i pass cmd q sm w).1.2 = q ++ start :: draws ++ [stop];
  pe_start : type start = PASS_START /\ render_pass start = Some i;
  pe_stop : type stop = PASS_END /\ render_pass stop = Some i;
  pe_views : map view draws = pass_views w i pass;
  pe_cmd : render_pass (encode_pass rps i pass cmd q sm w).1.1 = Some i;
  pe_calls : calls (encode_pass rps i pass cmd q sm w).2 = calls w ++ new;
  pe_materials :
    Forall (fun c => exists lt, lt ∈ pass_light_types w pass /\ material_call_of lt c) new;
  pe_shadow :
    Forall (shadow_map_looked_up (scene pass)
              (entities (get_scene w (scene pass))) sm) draws;
  pe_cameras : cameras (encode_pass rps i pass cmd q sm w).2 = cameras w;
  pe_scenes :
    forall a, scenes (encode_pass rps i pass cmd q sm w).2 a = scenes_after_pass w pass a
}.

(** The second loop of [build] from position [i] on, pass after pass: every
    pass is encoded by [encode_pass] in the memory the passes before it have
    left, and contributes its span to the queue. *)
Inductive passes_encoded (rps : list RenderPass)
    (sm : gmap DirectionalLightPtr RenderTargetRef)
    : nat -> list RenderPass -> World -> list (list RenderCommand) -> World -> Prop :=
| passes_encoded_nil (i : nat) (w : World) : passes_encoded rps sm i [] w [] w
| passes_encoded_cons (i : nat) (pass : RenderPass) (passes : list RenderPass)
    (cmd : RenderCommand) (q : list RenderCommand) (w w' : World)
    (start : RenderCommand) (draws : list RenderCommand) (stop : RenderCommand)
    (new : list Call) (spans : list (list RenderCommand)) :
    pass_encoded rps i pass cmd q sm w start draws stop new ->
    passes_encoded rps sm (S i) passes (encode_pass rps i pass cmd q sm w).2 spans w' ->
    passes_encoded rps sm i (pass :: passes) w ((start :: draws ++ [stop]) :: spans) w'.

(** The span of the pass at position [i]: one [PASS_START], draws, one
    [PASS_END], all of them commands of that pass. *)
Inductive pass_span (i : nat) : list RenderCommand -> Prop :=
| pass_span_intro (start : RenderCommand) (draws : list RenderCommand)
    (stop : RenderCommand) :
    type start = PASS_START -> render_pass start = Some i ->
    Forall (fun c => type c = DRAW /\ render_pass c = Some i) draws ->
    type stop = PASS_END -> render_pass stop = Some i ->
    pass_span i (start :: draws ++ [stop]).

(** The number of lights of a type in a rig; there is always exactly one
    ambient light. *)
Definition light_count (lt : LightType) (rig : LightingRig) : nat :=
  match lt with
  | AMBIENT => 1
  | POINT => length (point_lights rig)
  | DIRECTIONAL => length (directional_lights rig)
  end.

(** The entry of [pass_data_] that [add_pass] makes: a scene holding the one
    graph the callback has filled in and a screen-sized sprite bound to it,
    and an orthographic camera. *)
Definition stage_pass_data (n : nat) (graph : RenderGraph) : PassData :=
  mkPassData
    (mkScene [graph]
       [(RenderGraphAt (PassDataScene n) 0,
         mkRenderEntity SpriteMesh
           (ScaleTransform (float_of_N width_) (float_of_N height_) (1 - 1)%Q)
           single_entity_receive_shadow)]
       (mkLightingRig [] []))
    (mkCamera ORTHOGRAPHIC width_ height_).

(** The graph of the SSAO pass. *)
Definition ambient_occlusion_render_graph (input normal position : RenderTargetRef)
    (ssao : AmbientOcclusionDescription) : RenderGraph :=
  mkRenderGraph
    (AmbientOcclusionNode
       (TextureNode (colour_texture (Some input)))
       (TextureNode (colour_texture (Some normal)))
       (TextureNode (colour_texture (Some position)))
       ssao).

(** The shadow pass for the light at position [i] of the rig of [pass],
    rendering into [rt]. *)
Definition shadow_pass (pass : RenderPass) (i : nat) (rt : RenderTargetRef)
    : RenderPass :=
  mkRenderPass (scene pass)
    (ShadowCameraOf (DirectionalLightAt (scene pass) i))
    (Some rt) None None no_post_processing (sky_box pass) true true true.

(** The positions, counted from [i], of the lights that cast shadows. *)
Fixpoint casting_from (i : nat) (lights : list DirectionalLight) : list nat :=
  match lights with
  | [] => []
  | light :: rest =>
      (if casts_shadows light then [i] else []) ++ casting_from (S i) rest
  end.

(** [chain y m ts]: the pass [y] followed by one helper pass per target of
    [ts], on the entries of [pass_data_] from position [m] on.  Every pass
    but the last renders into the target that the pass after it reads; the
    last one has no colour target yet. *)
Fixpoint chain (y : RenderPass) (m : nat) (ts : list RenderTargetRef)
    : list RenderPass :=
  match ts with
  | [] => [y]
  | t :: ts' =>
      with_colour_target (Some t) y ::
      chain (new_render_pass (PassDataScene m) (PassDataCamera m)) (S m) ts'
  end.

(** The graphs of the four kinds of bloom stage, reading the target [t]. *)
Definition pass_through_render_graph (t : RenderTargetRef) : RenderGraph :=
  mkRenderGraph (RenderNode (Some (TextureNode (colour_texture (Some t))))).

Definition threshold_render_graph (b : BloomDescription) (t : RenderTargetRef)
    : RenderGraph :=
  mkRenderGraph (RenderNode (Some
    (ConditionalNode
       (ArithmeticNode
          (TextureNode (colour_texture (Some t)))
          (ValueNodeColour (mkColour 0.2126 0.7152 0.0722 0.0)%Q)
          DOT)
       (ValueNodeFloat (threshold b))
       (TextureNode (colour_texture (Some t)))
       (ValueNodeColour (mkColour 0.0 0.0 0.0 1.0)%Q)
       GREATER))).

Definition blur_render_graph (t : RenderTargetRef) : RenderGraph :=
  mkRenderGraph (RenderNode (Some (BlurNode (TextureNode (colour_texture (Some t)))))).

Definition composite_render_graph (null_target t : RenderTargetRef) : RenderGraph :=
  mkRenderGraph (RenderNode (Some
    (ArithmeticNode
       (TextureNode (colour_texture (Some null_target)))
       (TextureNode (colour_texture (Some t)))
       ADD))).

(** The entries of [pass_data_] of consecutive blur stages. *)
Fixpoint blur_pass_data (m : nat) (ts : list RenderTargetRef) : list PassData :=
  match ts with
  | [] => []
  | t :: ts' => stage_pass_data m (blur_render_graph t) :: blur_pass_data (S m) ts'
  end.


(** What [post_process_pass] puts at the back of the deque for one pass:
    the pass and its stages, the last of them rendering where the pass was
    meant to render. *)
Definition expansion_of (render_pass : RenderPass) (expansion : list RenderPass) : Prop :=
  exists m ts,
    expansion =
      update_back (with_colour_target (colour_target render_pass))
        (chain render_pass m ts) /\
    (post_processing_description render_pass = no_post_processing -> ts = []).

(** A stage of [post_process_pass] makes the chain of the pass longer. *)
Definition extends_chain (stage : list RenderPass -> M (list RenderPass))
    (skipped : Prop) : Prop :=
  forall d y m ts w,
    length (pass_data_ w) = m + length ts ->
    exists ts' w',
      stage (d ++ chain y m ts) w = (d ++ chain y m (ts ++ ts'), w') /\
      scenes w' = scenes w /\ cameras w' = cameras w /\
      length (pass_data_ w') = m + length (ts ++ ts') /\
      (skipped -> ts' = []).

(** A pass for which no sky box is drawn. *)
Definition no_sky_draw (p : RenderPass) : Prop :=
  sky_box p = None \/ depth_only p = true.

(** What the injector may change of an initial pass leaves these alone. *)
Definition same_scene_and_sky (p p' : RenderPass) : Prop :=
  scene p' = scene p /\ sky_box p' = sky_box p /\ depth_only p' = depth_only p.

(** A pre-process pass has no post-processing of its own and draws no sky. *)
Definition plain_pass (p : RenderPass) : Prop :=
  post_processing_description p = no_post_processing /\ no_sky_draw p.



(** * Vocabulary of the further properties *)

(** The number of stages [post_process_pass] adds for a description. *)
Definition stage_count (description : PostProcessingDescription) : nat :=
  (match bloom description with Some b => iterations b + 3 | None => 0 end) +
  (match colour_adjust description with Some _ => 1 | None => 0 end) +
  (if anti_aliasing description then 1 else 0).

(** The graphs of the colour adjustment stage and of the anti-aliasing
    stage, reading the target [t]. *)
Definition colour_adjust_render_graph (colour_adjust : ColourAdjustDescription)
    (t : RenderTargetRef) : RenderGraph :=
  mkRenderGraph (ColourAdjustNode (TextureNode (colour_texture (Some t))) colour_adjust).

Definition anti_aliasing_render_graph (t : RenderTargetRef) : RenderGraph :=
  mkRenderGraph (AntiAliasingNode (TextureNode (colour_texture (Some t)))).

(** A stage of [post_process_pass] that adds [n] passes: it makes the chain
    of the pass longer by [n] targets, asks the provider for [n] targets of
    the size of the screen, and puts [n] entries at the back of
    [pass_data_]. *)
Definition adds_stages (stage : list RenderPass -> M (list RenderPass)) (n : nat) : Prop :=
  forall d y m ts w,
    length (pass_data_ w) = m + length ts ->
    exists ts' data w',
      stage (d ++ chain y m ts) w = (d ++ chain y m (ts ++ ts'), w') /\
      length ts' = n /\ length data = n /\
      pass_data_ w' = pass_data_ w ++ data /\
      calls w' = calls w ++ map (CreateRenderTarget width_ height_) ts' /\
      scenes w' = scenes w /\ cameras w' = cameras w.

(** A shadow map that is null or a value of the table. *)
Definition from_table (sm : gmap DirectionalLightPtr RenderTargetRef)
    (t : option RenderTargetRef) : Prop :=
  forall rt, t = Some rt -> exists l, sm !! l = Some rt.

(** The shadow maps of commands pushed one after the other, from a command
    in flight whose shadow map is [s]; [s'] is the shadow map of the command
    in flight afterwards.  A command holds the shadow map of the command
    before it, unless it is a DRAW for a directional light and holds what
    the table says about that light. *)
Inductive shadow_maps_follow (sm : gmap DirectionalLightPtr RenderTargetRef)
    : option RenderTargetRef -> list RenderCommand -> option RenderTargetRef -> Prop :=
| shadow_maps_follow_nil (s : option RenderTargetRef) : shadow_maps_follow sm s [] s
| shadow_maps_follow_cons (s : option RenderTargetRef) (c : RenderCommand)
    (out : list RenderCommand) (s' : option RenderTargetRef) :
    (shadow_map c = s \/
     exists l, type c = DRAW /\ light c = Some (DirectionalLightPtrOf l) /\
               shadow_map c = sm !! l) ->
    shadow_maps_follow sm (shadow_map c) out s' ->
    shadow_maps_follow sm s (c :: out) s'.

(** The shadow map of the command before position [n] of a queue that
    starts from a command in flight whose shadow map is [s]. *)
Definition previous_shadow_map (s : option RenderTargetRef)
    (q : list RenderCommand) (n : nat) : option RenderTargetRef :=
  match n with
  | 0 => s
  | S n' => q !! n' ≫= shadow_map
  end.

(** The calls of the material factory for the entities [ents], the first of
    which is at position [i] of the scene, with the results [ms]. *)
Fixpoint material_calls (scn : ScenePtr) (target : option RenderTargetRef)
    (lt : LightType) (nn np : bool) (i : nat)
    (ents : list (RenderGraphPtr * RenderEntity)) (ms : list MaterialRef) : list Call :=
  match ents, ms with
  | (rg, _) :: ents', m :: ms' =>
      CreateMaterial rg (EntityAt scn i) target lt nn np m ::
      material_calls scn target lt nn np (S i) ents' ms'
  | _, _ => []
  end.

(** A command of one light type for an entity from position [i] on, holding
    the material made for that entity. *)
Definition draws_with (scn : ScenePtr) (rp : option nat) (i : nat)
    (ms : list MaterialRef) (c : RenderCommand) : Prop :=
  type c = DRAW /\ render_pass c = rp /\ light c <> None /\
  exists k m, render_entity c = Some (EntityAt scn (i + k)) /\
              ms !! k = Some m /\ material c = Some m.

(** A DRAW that names a pass, a light and an entity, and holds the material
    that a call of [new] has made for that entity. *)
Definition draws_material_of (new : list Call) (c : RenderCommand) : Prop :=
  type c = DRAW /\ render_pass c <> None /\ light c <> None /\
  exists rg e target lt nn np m,
    render_entity c = Some e /\ material c = Some m /\
    CreateMaterial rg e target lt nn np m ∈ new.

(** A call of the material factory on behalf of [pass]. *)
Definition material_request_of (pass : RenderPass) (c : Call) : Prop :=
  match c with
  | CreateMaterial rg e target lt nn np _ =>
      target = colour_target pass /\
      (exists k, e = EntityAt (scene pass) k) /\
      (nn = true -> lt = AMBIENT /\ normal_target pass <> None) /\
      (np = true -> lt = AMBIENT /\ position_target pass <> None)
  | _ => False
  end.

(** A block of [encode_pass], for the pass at position [i]. *)
Definition encodes_draws (rps : list RenderPass) (i : nat) (pass : RenderPass)
    (sm : gmap DirectionalLightPtr RenderTargetRef)
    (f : RenderCommand -> list RenderCommand -> M (RenderCommand * list RenderCommand))
    : Prop :=
  forall cmd q w,
    render_pass cmd = Some i ->
    exists out new,
      (f cmd q w).1.2 = q ++ out /\
      render_pass (f cmd q w).1.1 = Some i /\
      calls (f cmd q w).2 = calls w ++ new /\
      length (pass_data_ (f cmd q w).2) = length (pass_data_ w) /\
      Forall (draws_material_of new) out /\
      Forall (material_request_of pass) new /\
      shadow_maps_follow sm (shadow_map cmd) out (shadow_map (f cmd q w).1.1).

(** A command that can be executed: a DRAW names its pass, its light and
    its entity, and holds a material made for that entity by a call of
    [new]. *)
Definition command_complete (new : list Call) (c : RenderCommand) : Prop :=
  type c = DRAW -> draws_material_of new c.

(** A call of the material factory on behalf of a pass of [rps]. *)
Definition material_request_in (rps : list RenderPass) (c : Call) : Prop :=
  exists i pass, rps !! i = Some pass /\ material_request_of pass c.

(** A call of a provider of render targets, for a shadow map, for a
    full-screen target or for a hybrid target. *)
Definition target_request (c : Call) : Prop :=
  match c with
  | CreateRenderTarget w h _ => (w = 1024%N /\ h = 1024%N) \/ (w = width_ /\ h = height_)
  | CreateHybridRenderTarget _ _ _ => True
  | CreateMaterial _ _ _ _ _ _ _ => False
  end.

(** The entries of [pass_data_] a pass points into: with its scene, with
    its camera, or with the shadow camera of a light of such a scene. *)
Definition pass_data_refs (p : RenderPass) : list nat :=
  match scene p with PassDataScene j => [j] | CallerScene _ => [] end ++
  match camera p with
  | PassDataCamera j => [j]
  | ShadowCameraOf (DirectionalLightAt (PassDataScene j) _) => [j]
  | _ => []
  end.

(** A pass whose pointers into [pass_data_] are below [n]. *)
Definition points_below (n : nat) (p : RenderPass) : Prop :=
  Forall (fun j => j < n) (pass_data_refs p).

(** Every entry of the table of shadow maps is the colour target of a
    shadow pass of [pre], made for a pass satisfying [Q] and for a light
    that casts shadows. *)
Definition table_backed (sc : nat -> Scene) (Q : RenderPass -> Prop)
    (pre : list RenderPass) (sm : gmap DirectionalLightPtr RenderTargetRef) : Prop :=
  forall l rt,
    sm !! l = Some rt ->
    exists n pass j,
      Q pass /\ l = DirectionalLightAt (scene pass) j /\
      pre !! n = Some (shadow_pass pass j rt) /\
      forall a, scene pass = CallerScene a ->
        casts_shadows <$> directional_lights (lighting_rig (sc a)) !! j = Some true.

(** The passes the ambient occlusion block puts in front. *)
Definition ambient_occlusion_passes (pass : RenderPass) (m : nat)
    (normal position input : RenderTargetRef) : list RenderPass :=
  [mkRenderPass (scene pass) (camera pass) (Some input)
     (Some normal) (Some position) no_post_processing (sky_box pass)
     true true (clear_depth pass);
   with_colour_target (colour_target pass)
     (new_render_pass (PassDataScene m) (PassDataCamera m))].

(** The number of entries that [build] adds to [pass_data_] for a pass:
    one for ambient occlusion, and one for each stage. *)
Definition helper_count (p : RenderPass) : nat :=
  (match ambient_occlusion (post_processing_description p) with
   | Some _ => 1 | None => 0 end) +
  stage_count (post_processing_description p).

(** What the injector keeps of an initial pass. *)
Definition same_view (p p' : RenderPass) : Prop :=
  scene p' = scene p /\ camera p' = camera p /\
  post_processing_description p' = post_processing_description p.

End Builder.

(** * The pool of texture units of [OpenGLTextureManager] *)

(** [GLuint]: an unsigned integer of 32 bits; [GLuint_of] is the conversion
    that an arithmetic result undergoes. *)
Definition GLuint := Z.
Definition GLuint_of (z : Z) : GLuint := (z mod 2 ^ 32)%Z.

(** Modelled from the spec: [expect(condition, message)] of
    error_handling.h, which is not among the sources.  A failed expectation
    is a precondition violation that stops the call with the message
    (section 7, fail fast); nothing after the [expect] runs.  In a build
    that does not check expectations [next_id] would go on to read the top
    of an empty stack, which is undefined. *)
Inductive Expected (A : Type) :=
| Value (a : A)
| ExpectFailed (message : string).
Arguments Value {A} a.
Arguments ExpectFailed {A} message.

(** The manager as this file sees it: [id_pool_], a [std::stack<GLuint>]
    whose top is the head of the list. *)
Record OpenGLTextureManager := mkOpenGLTextureManager { id_pool_ : list GLuint }.

(** [for (auto i = 79u; i > 0u; --i) id_pool_.emplace(GL_TEXTURE0 + i);]
    from the value [i] of the counter on.  [GL_TEXTURE0] is a constant of
    the OpenGL headers and a parameter here. *)
Fixpoint fill_id_pool (GL_TEXTURE0 : Z) (i : nat) (id_pool_ : list GLuint)
    : list GLuint :=
  match i with
  | 0 => id_pool_
  | S i' =>
      fill_id_pool GL_TEXTURE0 i' (GLuint_of (GL_TEXTURE0 + Z.of_nat i) :: id_pool_)
  end.

(** [OpenGLTextureManager::OpenGLTextureManager()] *)
Definition new_OpenGLTextureManager (GL_TEXTURE0 : Z) : OpenGLTextureManager :=
  mkOpenGLTextureManager (fill_id_pool GL_TEXTURE0 79 []).

(** [OpenGLTextureManager::next_id] *)
Definition next_id (m : OpenGLTextureManager) : Expected (GLuint * OpenGLTextureManager) :=
  match id_pool_ m with
  | [] => ExpectFailed "texture id pool empty"
  | id :: rest => Value (id, mkOpenGLTextureManager rest)
  end.

(** [OpenGLTextureManager::return_id] *)
Definition return_id (id : GLuint) (m : OpenGLTextureManager) : OpenGLTextureManager :=
  mkOpenGLTextureManager (id :: id_pool_ m).

(** What the manager reads of the objects it makes: [index] is passed
    through to the constructor, [id()] is read back by [destroy].  The
    constructors belong to the backend; they are taken to return. *)
Record OpenGLTexture := mkOpenGLTexture { texture_index : N; texture_id : GLuint }.
Record OpenGLCubeMap := mkOpenGLCubeMap { cube_map_index : N; cube_map_id : GLuint }.
Record OpenGLSampler := mkOpenGLSampler { sampler_index : N }.

(** [do_create] for a [Texture] *)
Definition do_create_texture (index : N) (m : OpenGLTextureManager)
    : Expected (OpenGLTexture * OpenGLTextureManager) :=
  match next_id m with
  | Value (id, m) => Value (mkOpenGLTexture index id, m)
  | ExpectFailed message => ExpectFailed message
  end.

(** [do_create] for a [CubeMap] *)
Definition do_create_cube_map (index : N) (m : OpenGLTextureManager)
    : Expected (OpenGLCubeMap * OpenGLTextureManager) :=
  match next_id m with
  | Value (id, m) => Value (mkOpenGLCubeMap index id, m)
  | ExpectFailed message => ExpectFailed message
  end.

(** [do_create] for a [Sampler] *)
Definition do_create_sampler (index : N) (m : OpenGLTextureManager)
    : Expected (OpenGLSampler * OpenGLTextureManager) :=
  Value (mkOpenGLSampler index, m).

(** [destroy] for a [Texture] and for a [CubeMap]: return the id of the
    texture to the pool. *)
Definition destroy_texture (texture : OpenGLTexture) (m : OpenGLTextureManager)
    : OpenGLTextureManager :=
  return_id (texture_id texture) m.

Definition destroy_cube_map (cube_map : OpenGLCubeMap) (m : OpenGLTextureManager)
    : OpenGLTextureManager :=
  return_id (cube_map_id cube_map) m.

(** ** Vocabulary *)

(** [n] calls of [next_id] in a row: the ids in the order they come out. *)
Fixpoint next_ids (n : nat) (m : OpenGLTextureManager)
    : Expected (list GLuint * OpenGLTextureManager) :=
  match n with
  | 0 => Value ([], m)
  | S n' =>
      match next_id m with
      | Value (id, m) =>
          match next_ids n' m with
          | Value (ids, m) => Value (id :: ids, m)
          | ExpectFailed message => ExpectFailed message
          end
      | ExpectFailed message => ExpectFailed message
      end
  end.

(** The ids a new manager holds, from the top of the pool down. *)
Definition texture_units (GL_TEXTURE0 : Z) : list GLuint :=
  map (fun k => GLuint_of (GL_TEXTURE0 + Z.of_nat k)) (seq 1 79).

(** A user of the manager: the objects it has created and not yet
    destroyed, and what it does next. *)
Inductive LiveObject :=
| LiveTexture (texture : OpenGLTexture)
| LiveCubeMap (cube_map : OpenGLCubeMap).

(** [id()] of a live object. *)
Definition live_id (o : LiveObject) : GLuint :=
  match o with
  | LiveTexture texture => texture_id texture
  | LiveCubeMap cube_map => cube_map_id cube_map
  end.

(** What a user asks of the manager. *)
Inductive TextureRequest :=
| CreateTexture (index : N)
| CreateCubeMap (index : N)
| CreateSampler (index : N)
| Destroy (n : nat).    (* destroy the [n]th live object, if there is one *)

(** One request served, by the matching [do_create] or [destroy]; a
    creation that fails stops the user. *)
Definition serve (request : TextureRequest)
    (state : OpenGLTextureManager * list LiveObject)
    : Expected (OpenGLTextureManager * list LiveObject) :=
  let '(m, live) := state in
  match request with
  | CreateTexture index =>
      match do_create_texture index m with
      | Value (texture, m) => Value (m, LiveTexture texture :: live)
      | ExpectFailed message => ExpectFailed message
      end
  | CreateCubeMap index =>
      match do_create_cube_map index m with
      | Value (cube_map, m) => Value (m, LiveCubeMap cube_map :: live)
      | ExpectFailed message => ExpectFailed message
      end
  | CreateSampler index =>
      match do_create_sampler index m with
      | Value (_, m) => Value (m, live)
      | ExpectFailed message => ExpectFailed message
      end
  | Destroy n =>
      match live !! n with
      | Some (LiveTexture texture) => Value (destroy_texture texture m, delete n live)
      | Some (LiveCubeMap cube_map) => Value (destroy_cube_map cube_map m, delete n live)
      | None => Value (m, live)
      end
  end.

(** The requests served one after the other. *)
Fixpoint serve_all (requests : list TextureRequest)
    (state : OpenGLTextureManager * list LiveObject)
    : Expected (OpenGLTextureManager * list LiveObject) :=
  match requests with
  | [] => Value state
  | request :: rest =>
      match serve request state with
      | Value state => serve_all rest state
      | ExpectFailed message => ExpectFailed message
      end
  end.

(** * A backend to run the builder on

    Handles are handed out in the order of the calls: the state of the
    backend is the next handle. *)
Definition counting_backend : Backend := {|
  ColourAdjustDescription := unit;
  AmbientOcclusionDescription := unit;
  ExtState := nat;
  width_ := 800;
  height_ := 600;
  create_material_callback_ := fun _ _ _ _ _ _ n => (n, S n);
  create_render_target_callback_ := fun _ _ n => (n, S n);
  create_hybrid_render_target_callback_ := fun _ _ n => (n, S n);
  default_depth_only := false;
  default_clear_colour := true;
  default_clear_depth := true;
  single_entity_receive_shadow := false
|}.

Section Inputs.
#[local] Existing Instance counting_backend.

(** An entity of the caller, bound to the first graph of scene 0. *)
Definition caller_entity (receives : bool) : RenderGraphPtr * RenderEntity :=
  (RenderGraphAt (CallerScene 0) 0,
   mkRenderEntity (CallerMesh 0) (CallerTransform 0) receives).

Definition light_camera : Camera := mkCamera ORTHOGRAPHIC 100 100.

(** Two entities, the first receiving shadows and the second not; one point
    light; one directional light that casts shadows. *)
Definition shadow_scene : Scene :=
  mkScene [mkRenderGraph (RenderNode None)]
    [caller_entity true; caller_entity false]
    (mkLightingRig [mkPointLight] [mkDirectionalLight true light_camera]).

(** One entity receiving shadows; one directional light that casts none. *)
Definition plain_scene : Scene :=
  mkScene [mkRenderGraph (RenderNode None)]
    [caller_entity true]
    (mkLightingRig [] [mkDirectionalLight false light_camera]).

Definition world_of (s : Scene) : World :=
  mkWorld 100 (fun _ => s) (fun _ => mkCamera PERSPECTIVE 800 600) [] [].

Definition plain_pass_on_scene_0 : RenderPass :=
  mkRenderPass (CallerScene 0) (CallerCamera 0) None None None
    (mkPostProcessing None None None false) None false true true.

Definition bloom_pass : RenderPass :=
  mkRenderPass (CallerScene 0) (CallerCamera 0) None None None
    (mkPostProcessing (Some (mkBloom 0.8%Q 1)) None None false) None false true true.



(** The DRAW of [plain_scene] for its directional light, which casts no
    shadows, on its entity, which receives shadows. *)
Definition directional_draw_without_shadow_map : RenderCommand :=
  mkRenderCommand DRAW (Some 0) (Some 101)
    (Some (EntityAt (CallerScene 0) 0)) None
    (Some (DirectionalLightPtrOf (DirectionalLightAt (CallerScene 0) 0))).

(** A pass with bloom (one blur), colour adjustment and anti-aliasing. *)
Definition full_post_processing_pass : RenderPass :=
  mkRenderPass (CallerScene 0) (CallerCamera 0) None None None
    (mkPostProcessing (Some (mkBloom 0.8%Q 1)) (Some tt) None true) None false true true.

(** The value of [GL_TEXTURE0] in the OpenGL headers. *)
Definition GL_TEXTURE0_value : Z := 33984.

(** A texture and a cube map are created, the texture is destroyed, a
    sampler is created. *)
Definition texture_requests : list TextureRequest :=
  [CreateTexture 0; CreateCubeMap 1; Destroy 1; CreateSampler 2].

End Inputs.

Section Properties.
Context `{backend : Backend}.

(** * Properties *)

(** ** What a run leaves of the memory *)

Lemma only_calls_refl w : only_calls w w [].
Proof. unfold only_calls. by rewrite app_nil_r. Qed.

Lemma only_calls_trans w1 w2 w3 n1 n2 :
  only_calls w1 w2 n1 -> only_calls w2 w3 n2 -> only_calls w1 w3 (n1 ++ n2).
Proof.
  intros (?&?&?&?) (?&?&?&?). unfold only_calls.
  repeat split; try congruence. rewrite app_assoc. congruence.
Qed.

Lemma get_scene_only_calls w w' new p :
  only_calls w w' new -> get_scene w' p = get_scene w p.
Proof. intros (Hs&_&Hp&_). destruct p; simpl; by rewrite ?Hs, ?Hp. Qed.

Lemma create_material_spec rg e t lt nn np w :
  exists m, (create_material rg e t lt nn np w).1 = m /\
    only_calls w (create_material rg e t lt nn np w).2
      [CreateMaterial rg e t lt nn np m].
Proof.
  unfold create_material, mbind, M_bind, lift_ext, log_call, mret, M_ret.
  destruct (create_material_callback_ rg e t lt nn np (ext w)) as [m e'].
  exists m. by repeat split.
Qed.

Lemma create_render_target_spec wd ht w :
  exists t, (create_render_target wd ht w).1 = t /\
    only_calls w (create_render_target wd ht w).2 [CreateRenderTarget wd ht t].
Proof.
  unfold create_render_target, mbind, M_bind, lift_ext, log_call, mret, M_ret.
  destruct (create_render_target_callback_ wd ht (ext w)) as [t e'].
  exists t. by repeat split.
Qed.

Lemma create_hybrid_render_target_spec c d w :
  exists t, (create_hybrid_render_target c d w).1 = t /\
    only_calls w (create_hybrid_render_target c d w).2
      [CreateHybridRenderTarget c d t].
Proof.
  unfold create_hybrid_render_target, mbind, M_bind, lift_ext, log_call, mret, M_ret.
  destruct (create_hybrid_render_target_callback_ c d (ext w)) as [t e'].
  exists t. by repeat split.
Qed.

(** ** The commands of one light type *)

Lemma encode_point_lights_spec scn i lights cmd q :
  exists out,
    (encode_point_lights scn i lights cmd q).2 = q ++ out /\
    map view out =
      map (fun j => (DRAW, render_pass cmd, render_entity cmd,
                     Some (PointLightAt scn j))) (seq i (length lights)) /\
    render_pass (encode_point_lights scn i lights cmd q).1 = render_pass cmd /\
    render_entity (encode_point_lights scn i lights cmd q).1 = render_entity cmd.
Proof.
  revert i cmd q. induction lights as [|l lights IH]; intros i cmd q; simpl.
  - exists []. by rewrite app_nil_r.
  - destruct (IH (S i) (set_light (Some (PointLightAt scn i)) (set_type DRAW cmd))
                (q ++ [set_light (Some (PointLightAt scn i)) (set_type DRAW cmd)]))
      as (out & Hq & Hv & Hp & He).
    eexists (_ :: out). rewrite Hq, <- app_assoc. simpl.
    split; [done|]. split; [|by rewrite Hp, He].
    by rewrite Hv.
Qed.

Lemma directional_command_fields scn i ent sm cmd :
  type (directional_command scn i ent sm cmd) = DRAW /\
  render_pass (directional_command scn i ent sm cmd) = render_pass cmd /\
  render_entity (directional_command scn i ent sm cmd) = render_entity cmd /\
  light (directional_command scn i ent sm cmd)
    = Some (DirectionalLightPtrOf (DirectionalLightAt scn i)).
Proof. unfold directional_command. by destruct (receive_shadow ent). Qed.

Lemma encode_directional_lights_spec scn i lights ent sm cmd q :
  exists out,
    (encode_directional_lights scn i lights ent sm cmd q).2 = q ++ out /\
    map view out =
      map (fun j => (DRAW, render_pass cmd, render_entity cmd,
                     Some (DirectionalLightPtrOf (DirectionalLightAt scn j))))
          (seq i (length lights)) /\
    render_pass (encode_directional_lights scn i lights ent sm cmd q).1
      = render_pass cmd /\
    render_entity (encode_directional_lights scn i lights ent sm cmd q).1
      = render_entity cmd /\
    (receive_shadow ent = true ->
     Forall (fun c => forall l, light c = Some (DirectionalLightPtrOf l) ->
                      shadow_map c = sm !! l) out).
Proof.
  revert i cmd q. induction lights as [|l lights IH]; intros i cmd q; simpl.
  - exists []. rewrite app_nil_r. by repeat split.
  - fold (directional_command scn i ent sm cmd).
    destruct (IH (S i) (directional_command scn i ent sm cmd)
                (q ++ [directional_command scn i ent sm cmd]))
      as (out & Hq & Hv & Hp & He & Hs).
    destruct (directional_command_fields scn i ent sm cmd) as (Ht & Hrp & Hre & Hl).
    eexists (_ :: out). rewrite Hq, <- app_assoc. simpl.
    split; [done|]. rewrite Hv, Hp, He, Hrp, Hre. unfold view at 1.
    rewrite Ht, Hrp, Hre, Hl. repeat split; try done.
    intros Hrs. constructor; [|by apply Hs].
    intros l' Hl'. rewrite Hl in Hl'. injection Hl' as <-.
    unfold directional_command. by rewrite Hrs.
Qed.

Lemma encode_entities_spec rps scn rig lt hn hp sm ents_all i ents cmd q w :
  drop i ents_all = ents ->
  exists out new,
    (encode_entities rps scn rig lt hn hp sm i ents cmd q w).1.2 = q ++ out /\
    map view out = light_pass_views lt scn rig (render_pass cmd) i (length ents) /\
    render_pass (encode_entities rps scn rig lt hn hp sm i ents cmd q w).1.1
      = render_pass cmd /\
    only_calls w (encode_entities rps scn rig lt hn hp sm i ents cmd q w).2 new /\
    Forall (material_call_of lt) new /\
    (lt = DIRECTIONAL -> Forall (shadow_map_looked_up scn ents_all sm) out).
Proof.
  revert i cmd q w. induction ents as [|[rg e] ents IH]; intros i cmd q w Hdrop.
  - exists [], []. simpl. rewrite app_nil_r. split; [done|].
    split; [by destruct lt|]. split; [done|]. split; [apply only_calls_refl|].
    by split.
  - assert (Hi : ents_all !! i = Some (rg, e)).
    { rewrite <- (Nat.add_0_r i), <- lookup_drop, Hdrop. done. }
    assert (Hdrop' : drop (S i) ents_all = ents).
    { rewrite (drop_S _ _ _ Hi) in Hdrop. by injection Hdrop. }
    cbn [encode_entities]. unfold mbind, M_bind.
    destruct (create_material_spec rg (EntityAt scn i) (colour_target_of rps cmd) lt
                (hn && bool_decide (lt = AMBIENT)) (hp && bool_decide (lt = AMBIENT)) w)
      as (m & Hm & Hw).
    destruct (create_material _ _ _ _ _ _ w) as [m' w1]. simpl in Hm, Hw. subst m'.
    cbv beta iota zeta.
    set (cmd1 := set_render_entity (Some (EntityAt scn i)) (set_material (Some m) cmd)).
    destruct lt; cbv beta iota.
    + destruct (IH (S i) (set_light (Some (AmbientLightOf scn)) (set_type DRAW cmd1))
                  (q ++ [set_light (Some (AmbientLightOf scn)) (set_type DRAW cmd1)])
                  w1 Hdrop') as (out & new & Hq & Hv & Hp & Hc & Hn & _).
      eexists (_ :: out), (_ :: new). rewrite Hq, Hp, <- app_assoc. simpl.
      split; [done|]. split; [by rewrite Hv|]. split; [done|].
      split; [apply (only_calls_trans _ _ _ [_] _ Hw Hc)|]. split; [by constructor|done].
    + destruct (encode_point_lights_spec scn 0 (point_lights rig) cmd1 q)
        as (out1 & Hq1 & Hv1 & Hp1 & He1).
      destruct (encode_point_lights scn 0 (point_lights rig) cmd1 q) as [cmd2 q2].
      simpl in Hq1, Hp1, He1. subst q2.
      destruct (IH (S i) cmd2 (q ++ out1) w1 Hdrop')
        as (out & new & Hq & Hv & Hp & Hc & Hn & _).
      exists (out1 ++ out), (CreateMaterial rg (EntityAt scn i) (colour_target_of rps cmd)
                POINT (hn && bool_decide (POINT = AMBIENT))
                (hp && bool_decide (POINT = AMBIENT)) m :: new).
      rewrite Hq, Hp, Hp1, <- app_assoc. simpl.
      split; [done|]. split; [by rewrite map_app, Hv, Hv1, Hp1|]. split; [done|].
      split; [apply (only_calls_trans _ _ _ [_] _ Hw Hc)|]. split; [by constructor|done].
    + destruct (encode_directional_lights_spec scn 0 (directional_lights rig) e sm cmd1 q)
        as (out1 & Hq1 & Hv1 & Hp1 & He1 & Hs1).
      destruct (encode_directional_lights scn 0 (directional_lights rig) e sm cmd1 q)
        as [cmd2 q2].
      simpl in Hq1, Hp1, He1. subst q2.
      destruct (IH (S i) cmd2 (q ++ out1) w1 Hdrop')
        as (out & new & Hq & Hv & Hp & Hc & Hn & Hs).
      exists (out1 ++ out), (CreateMaterial rg (EntityAt scn i) (colour_target_of rps cmd)
                DIRECTIONAL (hn && bool_decide (DIRECTIONAL = AMBIENT))
                (hp && bool_decide (DIRECTIONAL = AMBIENT)) m :: new).
      rewrite Hq, Hp, Hp1, <- app_assoc. simpl.
      split; [done|]. split; [by rewrite map_app, Hv, Hv1, Hp1|]. split; [done|].
      split; [apply (only_calls_trans _ _ _ [_] _ Hw Hc)|]. split; [by constructor|].
      intros _. apply Forall_app. split; [|by apply Hs].
      apply Forall_forall. intros c Hc1 k l rg' e' Hre Hl Hk Hrs.
      assert (Hvc : view c ∈ map view out1) by (by apply list_elem_of_fmap_2).
      rewrite Hv1 in Hvc. apply list_elem_of_fmap in Hvc as (j & Hvj & _).
      unfold view in Hvj. injection Hvj as _ _ Hre' _.
      rewrite Hre in Hre'. simpl in Hre'. injection Hre' as ->.
      rewrite Hi in Hk. injection Hk as <- <-.
      specialize (Hs1 Hrs). rewrite Forall_forall in Hs1. by apply Hs1.
Qed.

Lemma encode_light_pass_commands_spec rps scn lt hn hp cmd q sm w :
  exists out new,
    (encode_light_pass_commands rps scn lt hn hp cmd q sm w).1.2 = q ++ out /\
    map view out =
      light_pass_views lt scn (lighting_rig (get_scene w scn)) (render_pass cmd)
        0 (length (entities (get_scene w scn))) /\
    render_pass (encode_light_pass_commands rps scn lt hn hp cmd q sm w).1.1
      = render_pass cmd /\
    only_calls w (encode_light_pass_commands rps scn lt hn hp cmd q sm w).2 new /\
    Forall (material_call_of lt) new /\
    (lt = DIRECTIONAL ->
     Forall (shadow_map_looked_up scn (entities (get_scene w scn)) sm) out).
Proof.
  unfold encode_light_pass_commands, mbind, M_bind, get_world.
  apply encode_entities_spec. done.
Qed.

(** With no light of a type there is nothing to draw for it. *)
Lemma light_pass_views_no_point scn rig rp i n :
  point_lights rig = [] -> light_pass_views POINT scn rig rp i n = [].
Proof.
  intros H. simpl. rewrite H. simpl. revert i.
  induction n as [|n IH]; intros i; simpl; [done|]. apply IH.
Qed.

Lemma light_pass_views_no_directional scn rig rp i n :
  directional_lights rig = [] -> light_pass_views DIRECTIONAL scn rig rp i n = [].
Proof.
  intros H. simpl. rewrite H. simpl. revert i.
  induction n as [|n IH]; intros i; simpl; [done|]. apply IH.
Qed.

(** ** The blocks of one pass *)

Lemma views_not_directional scn ents sm out views :
  map view out = views ->
  Forall (fun v => forall l, v.2 <> Some (DirectionalLightPtrOf l)) views ->
  Forall (shadow_map_looked_up scn ents sm) out.
Proof.
  intros <- Hv. apply Forall_forall. intros c Hc k l rg e _ Hl _ _.
  rewrite Forall_forall in Hv. exfalso. apply (Hv (view c)) with l.
  - by apply list_elem_of_fmap_2.
  - done.
Qed.

Lemma ambient_views_not_directional scn rig rp i n :
  Forall (fun v => forall l, v.2 <> Some (DirectionalLightPtrOf l))
    (light_pass_views AMBIENT scn rig rp i n).
Proof. apply Forall_forall. intros v (k & -> & _)%list_elem_of_fmap l. done. Qed.

Lemma point_views_not_directional scn rig rp i n :
  Forall (fun v => forall l, v.2 <> Some (DirectionalLightPtrOf l))
    (light_pass_views POINT scn rig rp i n).
Proof.
  apply Forall_forall. intros v Hv l. simpl in Hv.
  apply list_elem_of_In, in_flat_map in Hv as (k & _ & Hv).
  apply list_elem_of_In, list_elem_of_fmap in Hv as (j & -> & _). done.
Qed.

Lemma encode_ambient_spec rps i pass cmd q sm w :
  render_pass cmd = Some i ->
  exists out new,
    block_spec (scene pass) sm w cmd q (encode_ambient rps pass cmd q sm w)
      (ambient_views w i pass)
      [AMBIENT] out new.
Proof.
  intros Hrp. unfold encode_ambient, ambient_views.
  destruct (ambient_occlusion (post_processing_description pass)).
  - exists [], []. unfold block_spec. simpl. rewrite app_nil_r.
    repeat split; try done. apply only_calls_refl.
  - destruct (encode_light_pass_commands_spec rps (scene pass) AMBIENT
                (bool_decide (normal_target pass ≠ None))
                (bool_decide (position_target pass ≠ None)) cmd q sm w)
      as (out & new & Hq & Hv & Hp & Hc & Hn & _).
    exists out, new. unfold block_spec. rewrite Hrp in Hv.
    split; [exact Hq|]. split; [exact Hv|]. split; [exact Hp|].
    split; [exact Hc|]. split.
    + apply (Forall_impl _ _ _ Hn). intros c Hc'. exists AMBIENT.
      split; [apply list_elem_of_here|done].
    + eapply views_not_directional; [exact Hv|apply ambient_views_not_directional].
Qed.

Lemma encode_point_spec rps i pass cmd q sm w :
  render_pass cmd = Some i ->
  exists out new,
    block_spec (scene pass) sm w cmd q (encode_point rps pass cmd q sm w)
      (point_views w i pass)
      (if bool_decide (point_lights (lighting_rig (get_scene w (scene pass))) = [])
       then [] else [POINT]) out new.
Proof.
  intros Hrp. unfold encode_point, point_views, mbind, M_bind, get_world.
  case_bool_decide as Hpl.
  - exists [], []. unfold block_spec.
    rewrite light_pass_views_no_point by done. simpl. rewrite app_nil_r.
    repeat split; try done. apply only_calls_refl.
  - destruct (encode_light_pass_commands_spec rps (scene pass) POINT
                (bool_decide (normal_target pass ≠ None))
                (bool_decide (position_target pass ≠ None)) cmd q sm w)
      as (out & new & Hq & Hv & Hp & Hc & Hn & _).
    exists out, new. unfold block_spec. rewrite Hrp in Hv.
    split; [exact Hq|]. split; [exact Hv|]. split; [exact Hp|].
    split; [exact Hc|]. split.
    + apply (Forall_impl _ _ _ Hn). intros c Hc'. exists POINT.
      split; [apply list_elem_of_here|done].
    + eapply views_not_directional; [exact Hv|apply point_views_not_directional].
Qed.

Lemma encode_directional_spec rps i pass cmd q sm w :
  render_pass cmd = Some i ->
  exists out new,
    block_spec (scene pass) sm w cmd q (encode_directional rps pass cmd q sm w)
      (directional_views w i pass)
      (if bool_decide (directional_lights (lighting_rig (get_scene w (scene pass))) = [])
       then [] else [DIRECTIONAL]) out new.
Proof.
  intros Hrp. unfold encode_directional, directional_views, mbind, M_bind, get_world.
  case_bool_decide as Hdl.
  - exists [], []. unfold block_spec.
    rewrite light_pass_views_no_directional by done. simpl. rewrite app_nil_r.
    repeat split; try done. apply only_calls_refl.
  - destruct (encode_light_pass_commands_spec rps (scene pass) DIRECTIONAL
                (bool_decide (normal_target pass ≠ None))
                (bool_decide (position_target pass ≠ None)) cmd q sm w)
      as (out & new & Hq & Hv & Hp & Hc & Hn & Hs).
    exists out, new. unfold block_spec. rewrite Hrp in Hv.
    split; [exact Hq|]. split; [exact Hv|]. split; [exact Hp|].
    split; [exact Hc|]. split.
    + apply (Forall_impl _ _ _ Hn). intros c Hc'. exists DIRECTIONAL.
      split; [apply list_elem_of_here|done].
    + by apply Hs.
Qed.

Lemma update_scene_in_frame p f w :
  ext (update_scene_in p f w) = ext w /\
  cameras (update_scene_in p f w) = cameras w /\
  calls (update_scene_in p f w) = calls w.
Proof. by destruct p. Qed.

(** A change of a scene that keeps some part of it keeps that part of
    every scene. *)
Lemma get_scene_update_scene_in {A} (g : Scene -> A) p f w p' :
  (forall s, g (f s) = g s) ->
  g (get_scene (update_scene_in p f w) p') = g (get_scene w p').
Proof.
  intros Hg. destruct p as [a|j], p' as [a'|j']; simpl; try done.
  - case_decide; [subst; apply Hg|done].
  - rewrite !nth_lookup, list_lookup_alter.
    destruct (decide (j = j')) as [->|]; [|done].
    destruct (pass_data_ w !! j'); simpl; [apply Hg|done].
Qed.

Lemma scenes_update_scene_in p f w a :
  scenes (update_scene_in p f w) a =
    if bool_decide (p = CallerScene a) then f (scenes w a) else scenes w a.
Proof.
  destruct p as [a'|j]; simpl.
  - case_decide as Ha; case_bool_decide as Hb; try done.
    + by subst.
    + congruence.
    + by injection Hb as ->.
  - done.
Qed.

Lemma encode_sky_box_spec rps i pass sky cmd q w :
  render_pass cmd = Some i ->
  exists out m,
    (encode_sky_box rps pass sky cmd q w).1.2 = q ++ [out] /\
    view out = draw_view (Some i)
                 (EntityAt (scene pass) (length (entities (get_scene w (scene pass)))))
                 (AmbientLightOf (scene pass)) /\
    render_pass (encode_sky_box rps pass sky cmd q w).1.1 = Some i /\
    calls (encode_sky_box rps pass sky cmd q w).2 =
      calls w ++ [CreateMaterial
                    (RenderGraphAt (scene pass)
                       (length (render_graphs (get_scene w (scene pass)))))
                    (EntityAt (scene pass) (length (entities (get_scene w (scene pass)))))
                    (colour_target_of rps cmd) AMBIENT false false m] /\
    cameras (encode_sky_box rps pass sky cmd q w).2 = cameras w /\
    (forall a, scenes (encode_sky_box rps pass sky cmd q w).2 a =
       if bool_decide (scene pass = CallerScene a)
       then with_sky_box (scene pass) sky (scenes w a) else scenes w a).
Proof.
  intros Hrp. unfold encode_sky_box, create_render_graph, create_entity,
    update_render_graph, update_scene, mbind, M_bind, get_world, mret, M_ret.
  set (f1 := fun s => mkScene (render_graphs s ++ [mkRenderGraph (RenderNode None)])
                        (entities s) (lighting_rig s)).
  set (n := length (render_graphs (get_scene w (scene pass)))).
  set (f2 := fun s => mkScene (alter (set_render_node (SkyBoxNode sky)) n (render_graphs s))
                        (entities s) (lighting_rig s)).
  set (w1 := update_scene_in (scene pass) f1 w).
  set (w2 := update_scene_in (scene pass) f2 w1).
  assert (He2 : entities (get_scene w2 (scene pass)) = entities (get_scene w (scene pass))).
  { unfold w2, w1. by rewrite !(get_scene_update_scene_in entities). }
  rewrite He2.
  set (f3 := fun s => mkScene (render_graphs s)
                (entities s ++ [(RenderGraphAt (scene pass) n,
                   mkRenderEntity CubeMesh (ScaleTransform 0.5 0.5 0.5)%Q
                     single_entity_receive_shadow)]) (lighting_rig s)).
  set (w3 := update_scene_in (scene pass) f3 w2).
  set (e := EntityAt (scene pass) (length (entities (get_scene w (scene pass))))).
  destruct (create_material_spec (RenderGraphAt (scene pass) n) e
              (colour_target_of rps cmd) AMBIENT false false w3) as (m & Hm & Hw).
  destruct (create_material _ _ _ _ _ _ w3) as [m' w4]. simpl in Hm, Hw. subst m'.
  destruct Hw as (Hs4 & Hc4 & Hp4 & Hl4).
  destruct (update_scene_in_frame (scene pass) f3 w2) as (_ & Hc3 & Hl3).
  destruct (update_scene_in_frame (scene pass) f2 w1) as (_ & Hc2 & Hl2).
  destruct (update_scene_in_frame (scene pass) f1 w) as (_ & Hc1 & Hl1).
  eexists _, m. simpl. rewrite Hrp.
  split; [done|]. split; [unfold view, draw_view; simpl; by rewrite Hrp|].
  split; [done|].
  fold w1 in Hc1, Hl1. fold w2 in Hc2, Hl2. fold w3 in Hc3, Hl3.
  split; [rewrite Hl4; congruence|].
  split; [congruence|].
  intros a. rewrite Hs4. unfold w3, w2, w1. rewrite !scenes_update_scene_in.
  case_bool_decide as Ha; [|done].
  unfold f3, f2, f1, with_sky_box, set_render_node. simpl.
  assert (Hn : n = length (render_graphs (scenes w a))).
  { unfold n. by rewrite Ha. }
  rewrite Hn. f_equal.
  rewrite <- (Nat.add_0_r (length (render_graphs (scenes w a)))) at 1.
  by rewrite alter_app_r.
Qed.

(** ** One pass *)

Lemma views_only_calls w w' new i pass :
  only_calls w w' new ->
  point_views w' i pass = point_views w i pass /\
  directional_views w' i pass = directional_views w i pass /\
  sky_views w' i pass = sky_views w i pass.
Proof.
  intros H. unfold point_views, directional_views, sky_views.
  by rewrite (get_scene_only_calls _ _ _ _ H).
Qed.

Lemma material_calls_weaken (lts lts' : list LightType) (new : list Call) :
  lts ⊆ lts' ->
  Forall (fun c => exists lt, lt ∈ lts /\ material_call_of lt c) new ->
  Forall (fun c => exists lt, lt ∈ lts' /\ material_call_of lt c) new.
Proof.
  intros Hsub H. apply (Forall_impl _ _ _ H). intros c (lt & Hlt & Hc).
  exists lt. split; [by apply Hsub|done].
Qed.

Lemma encode_pass_spec rps i pass cmd q sm w :
  exists start draws stop new, pass_encoded rps i pass cmd q sm w start draws stop new.
Proof.
  set (cmd0 := set_type PASS_START (set_render_pass (Some i) cmd)).
  destruct (encode_ambient_spec rps i pass cmd0 (q ++ [cmd0]) sm w eq_refl)
    as (out1 & new1 & Hq1 & Hv1 & Hp1 & Hc1 & Hn1 & Hs1).
  destruct (encode_ambient rps pass cmd0 (q ++ [cmd0]) sm w) as [[cmd1 q1] w1] eqn:E1.
  simpl in Hq1, Hp1, Hc1. subst q1.
  assert (Hrp1 : render_pass cmd1 = Some i) by (by rewrite Hp1).
  destruct (depth_only pass) eqn:Hdepth.
  - exists cmd0, out1, (set_type PASS_END cmd1), new1.
    assert (Hrun : encode_pass rps i pass cmd q sm w =
              (set_type PASS_END cmd1,
               ((q ++ [cmd0]) ++ out1) ++ [set_type PASS_END cmd1], w1)).
    { unfold encode_pass. fold cmd0. unfold mbind, M_bind, mret, M_ret.
      by rewrite E1, Hdepth. }
    destruct Hc1 as (Hsc & Hcam & Hpd & Hcalls).
    split; rewrite ?Hrun; unfold pass_views, scenes_after_pass; rewrite ?Hdepth;
      simpl; try done.
    + by rewrite <- !app_assoc.
    + by rewrite app_nil_r.
    + apply (material_calls_weaken [AMBIENT]); [|done].
      intros lt ->%list_elem_of_singleton. apply list_elem_of_here.
    + intros a'. rewrite Hsc. by destruct (sky_box pass).
  - destruct (encode_point_spec rps i pass cmd1 ((q ++ [cmd0]) ++ out1) sm w1 Hrp1)
      as (out2 & new2 & Hq2 & Hv2 & Hp2 & Hc2 & Hn2 & Hs2).
    destruct (encode_point rps pass cmd1 ((q ++ [cmd0]) ++ out1) sm w1)
      as [[cmd2 q2] w2] eqn:E2.
    simpl in Hq2, Hp2, Hc2. subst q2.
    assert (Hrp2 : render_pass cmd2 = Some i) by (by rewrite Hp2).
    destruct (encode_directional_spec rps i pass cmd2
                (((q ++ [cmd0]) ++ out1) ++ out2) sm w2 Hrp2)
      as (out3 & new3 & Hq3 & Hv3 & Hp3 & Hc3 & Hn3 & Hs3).
    destruct (encode_directional rps pass cmd2 (((q ++ [cmd0]) ++ out1) ++ out2) sm w2)
      as [[cmd3 q3] w3] eqn:E3.
    simpl in Hq3, Hp3, Hc3. subst q3.
    assert (Hrp3 : render_pass cmd3 = Some i) by (by rewrite Hp3).
    pose proof (only_calls_trans _ _ _ _ _ Hc1 Hc2) as Hc12.
    pose proof (only_calls_trans _ _ _ _ _ Hc12 Hc3) as Hc123.
    destruct (views_only_calls _ _ _ i pass Hc1) as (Hpv1 & _ & _).
    destruct (views_only_calls _ _ _ i pass Hc12) as (_ & Hdv2 & _).
    destruct (views_only_calls _ _ _ i pass Hc123) as (_ & _ & Hsv3).
    rewrite (get_scene_only_calls _ _ _ _ Hc1) in Hs2, Hn2.
    rewrite (get_scene_only_calls _ _ _ _ Hc12) in Hs3, Hn3.
    rewrite Hpv1 in Hv2. rewrite Hdv2 in Hv3.
    assert (Hlts : forall lts new,
      lts ⊆ pass_light_types w pass ->
      Forall (fun c => exists lt, lt ∈ lts /\ material_call_of lt c) new ->
      Forall (fun c => exists lt, lt ∈ pass_light_types w pass /\ material_call_of lt c) new).
    { intros lts new Hsub. by apply material_calls_weaken. }
    assert (Hsub1 : [AMBIENT] ⊆ pass_light_types w pass).
    { intros lt ->%list_elem_of_singleton. apply list_elem_of_here. }
    assert (Hsub2 :
      (if bool_decide (point_lights (lighting_rig (get_scene w (scene pass))) = [])
       then [] else [POINT]) ⊆ pass_light_types w pass).
    { unfold pass_light_types. rewrite Hdepth. intros lt Hlt.
      by apply list_elem_of_further, elem_of_app; left. }
    assert (Hsub3 :
      (if bool_decide (directional_lights (lighting_rig (get_scene w (scene pass))) = [])
       then [] else [DIRECTIONAL]) ⊆ pass_light_types w pass).
    { unfold pass_light_types. rewrite Hdepth. intros lt Hlt.
      by apply list_elem_of_further, elem_of_app; right. }
    destruct Hc123 as (Hsc & Hcam & Hpd & Hcalls).
    destruct (sky_box pass) as [sky|] eqn:Hsky.
    + destruct (encode_sky_box_spec rps i pass sky cmd3
                  ((((q ++ [cmd0]) ++ out1) ++ out2) ++ out3) w3 Hrp3)
        as (out4 & m & Hq4 & Hv4 & Hp4 & Hl4 & Hcam4 & Hsc4).
      destruct (encode_sky_box rps pass sky cmd3
                  ((((q ++ [cmd0]) ++ out1) ++ out2) ++ out3) w3)
        as [[cmd4 q4] w4] eqn:E4.
      simpl in Hq4, Hp4, Hl4, Hcam4, Hsc4. subst q4.
      exists cmd0, (out1 ++ out2 ++ out3 ++ [out4]), (set_type PASS_END cmd4),
        (new1 ++ new2 ++ new3 ++
         [CreateMaterial
            (RenderGraphAt (scene pass) (length (render_graphs (get_scene w3 (scene pass)))))
            (EntityAt (scene pass) (length (entities (get_scene w3 (scene pass)))))
            (colour_target_of rps cmd3) AMBIENT false false m]).
      assert (Hrun : encode_pass rps i pass cmd q sm w =
                (set_type PASS_END cmd4,
                 (((((q ++ [cmd0]) ++ out1) ++ out2) ++ out3) ++ [out4])
                   ++ [set_type PASS_END cmd4], w4)).
      { unfold encode_pass. fold cmd0. unfold mbind, M_bind, mret, M_ret, encode_sky.
        by rewrite E1, Hdepth, E2, E3, Hsky, E4. }
      split; rewrite ?Hrun; unfold pass_views, scenes_after_pass; rewrite ?Hdepth;
        simpl; try done.
      * by rewrite <- !app_assoc.
      * rewrite !map_app, Hv1, Hv2, Hv3. simpl. rewrite Hv4.
        unfold sky_views. rewrite Hsky.
        by rewrite (get_scene_only_calls _ _ _ _
                      (conj Hsc (conj Hcam (conj Hpd Hcalls)))).
      * by rewrite Hl4, Hcalls, <- !app_assoc.
      * rewrite !Forall_app. split; [apply (Hlts _ _ Hsub1 Hn1)|].
        split; [apply (Hlts _ _ Hsub2 Hn2)|]. split; [apply (Hlts _ _ Hsub3 Hn3)|].
        constructor; [|done]. exists AMBIENT. split; [by apply Hsub1, list_elem_of_here|done].
      * rewrite !Forall_app. split; [done|]. split; [done|]. split; [done|].
        constructor; [|done]. intros k l rg e _ Hl _ _.
        unfold view, draw_view in Hv4. congruence.
      * congruence.
      * intros a0. rewrite Hsc4, Hsc, Hsky.
        destruct (decide (scene pass = CallerScene a0)) as [Heq|Hne].
        -- by rewrite !bool_decide_eq_true_2.
        -- rewrite !bool_decide_eq_false_2; [done| |done]. by intros [_ ?].
    + exists cmd0, (out1 ++ out2 ++ out3), (set_type PASS_END cmd3),
        (new1 ++ new2 ++ new3).
      assert (Hrun : encode_pass rps i pass cmd q sm w =
                (set_type PASS_END cmd3,
                 ((((q ++ [cmd0]) ++ out1) ++ out2) ++ out3)
                   ++ [set_type PASS_END cmd3], w3)).
      { unfold encode_pass. fold cmd0. unfold mbind, M_bind, mret, M_ret, encode_sky.
        by rewrite E1, Hdepth, E2, E3, Hsky. }
      split; rewrite ?Hrun; unfold pass_views, scenes_after_pass; rewrite ?Hdepth;
        simpl; try done.
      * by rewrite <- !app_assoc.
      * rewrite !map_app, Hv1, Hv2, Hv3. unfold sky_views. rewrite Hsky.
        by rewrite app_nil_r.
      * by rewrite Hcalls, <- !app_assoc.
      * rewrite !Forall_app. split; [apply (Hlts _ _ Hsub1 Hn1)|].
        split; [apply (Hlts _ _ Hsub2 Hn2)|apply (Hlts _ _ Hsub3 Hn3)].
      * by rewrite !Forall_app.
      * intros a0. by rewrite Hsc, Hsky.
Qed.

Lemma light_pass_views_draw lt scn rig rp i n :
  Forall (fun v => v.1.1.1 = DRAW /\ v.1.1.2 = rp) (light_pass_views lt scn rig rp i n).
Proof.
  apply Forall_forall. intros v Hv. destruct lt; simpl in Hv.
  - by apply list_elem_of_fmap in Hv as (k & -> & _).
  - apply list_elem_of_In, in_flat_map in Hv as (k & _ & Hv).
    by apply list_elem_of_In, list_elem_of_fmap in Hv as (j & -> & _).
  - apply list_elem_of_In, in_flat_map in Hv as (k & _ & Hv).
    by apply list_elem_of_In, list_elem_of_fmap in Hv as (j & -> & _).
Qed.

Lemma pass_views_draw w i pass :
  Forall (fun v => v.1.1.1 = DRAW /\ v.1.1.2 = Some i) (pass_views w i pass).
Proof.
  unfold pass_views, ambient_views, point_views, directional_views, sky_views.
  apply Forall_app. split.
  - destruct (ambient_occlusion _); [done|apply light_pass_views_draw].
  - destruct (depth_only pass); [done|].
    rewrite !Forall_app. split; [apply light_pass_views_draw|].
    split; [apply light_pass_views_draw|].
    destruct (sky_box pass); [|done]. by constructor.
Qed.

Lemma pass_span_no_present i span :
  pass_span i span -> Forall (fun c => type c <> PRESENT) span.
Proof.
  intros [start draws stop Hs _ Hd He _].
  constructor; [congruence|]. apply Forall_app. split.
  - apply (Forall_impl _ _ _ Hd). intros c [Hc _]. congruence.
  - constructor; [congruence|done].
Qed.

Lemma encode_pass_span rps i pass cmd q sm w :
  exists span,
    (encode_pass rps i pass cmd q sm w).1.2 = q ++ span /\ pass_span i span.
Proof.
  destruct (encode_pass_spec rps i pass cmd q sm w) as (start & draws & stop & new & H).
  exists (start :: draws ++ [stop]). split; [apply H|].
  destruct (pe_start _ _ _ _ _ _ _ _ _ _ _ H) as [Hs1 Hs2].
  destruct (pe_stop _ _ _ _ _ _ _ _ _ _ _ H) as [He1 He2].
  constructor; try done.
  pose proof (pass_views_draw w i pass) as Hd.
  rewrite <- (pe_views _ _ _ _ _ _ _ _ _ _ _ H) in Hd.
  rewrite Forall_fmap in Hd. apply (Forall_impl _ _ _ Hd). by intros c [? ?].
Qed.

Lemma encode_passes_spans rps i passes cmd q sm w :
  exists spans,
    (encode_passes rps i passes cmd q sm w).1.2 = q ++ concat spans /\
    Forall2 pass_span (seq i (length passes)) spans.
Proof.
  revert i cmd q w. induction passes as [|pass passes IH]; intros i cmd q w; simpl.
  - exists []. simpl. by rewrite app_nil_r.
  - unfold mbind, M_bind.
    destruct (encode_pass_span rps i pass cmd q sm w) as (span & Hq & Hspan).
    destruct (encode_pass rps i pass cmd q sm w) as [[cmd1 q1] w1].
    simpl in Hq. subst q1.
    destruct (IH (S i) cmd1 (q ++ span) w1) as (spans & Hqs & Hspans).
    exists (span :: spans). simpl. rewrite Hqs, <- app_assoc.
    split; [done|by constructor].
Qed.

(** Every theorem about [encode_pass] below speaks of every pass of a
    build: the queue of [build] is made of the spans of the runs of
    [encode_pass] on the passes of the final list, one after the other. *)
Lemma encode_passes_run rps i passes cmd q sm w :
  exists spans,
    (encode_passes rps i passes cmd q sm w).1.2 = q ++ concat spans /\
    passes_encoded rps sm i passes w spans (encode_passes rps i passes cmd q sm w).2.
Proof.
  revert i cmd q w. induction passes as [|pass passes IH]; intros i cmd q w; simpl.
  - exists []. simpl. rewrite app_nil_r. split; [done|constructor].
  - unfold mbind, M_bind.
    destruct (encode_pass_spec rps i pass cmd q sm w) as (start & draws & stop & new & H).
    pose proof (pe_queue _ _ _ _ _ _ _ _ _ _ _ H) as Hq.
    pose proof (passes_encoded_cons rps sm i pass passes cmd q w) as Hcons.
    destruct (encode_pass rps i pass cmd q sm w) as [[cmd1 q1] w1].
    simpl in Hq, Hcons. subst q1.
    destruct (IH (S i) cmd1 (q ++ start :: draws ++ [stop]) w1) as (spans & Hqs & Hrun).
    exists ((start :: draws ++ [stop]) :: spans). simpl.
    rewrite Hqs, <- app_assoc. split; [done|]. by eapply Hcons.
Qed.

Lemma build_encodes_every_pass render_passes w :
  exists spans present,
    (build render_passes w).1.1 = concat spans ++ [present] /\
    passes_encoded (build_passes render_passes w).1.1 (build_passes render_passes w).1.2
      0 (build_passes render_passes w).1.1 (build_passes render_passes w).2
      spans (build render_passes w).2.
Proof.
  unfold build, mbind, M_bind, mret, M_ret.
  destruct (build_passes render_passes w) as [[rps sm] w1].
  destruct (encode_passes_run rps 0 rps empty_command [] sm w1) as (spans & Hq & Hrun).
  destruct (encode_passes rps 0 rps empty_command [] sm w1) as [[cmd q] w2].
  simpl in Hq, Hrun. subst q. simpl. eauto.
Qed.

(** ** C1: the shape of the command sequence *)

(** C1. For every input pass list, the command sequence [build] returns is
    the concatenation of one span per pass of the final pass list, in the
    order of that list and with nothing in between, followed by one command
    of type PRESENT.  The span of the pass at position [i] is one PASS_START,
    then DRAW commands, then one PASS_END, every one of them pointing at
    pass [i].  PRESENT is the last command and occurs nowhere before. *)
Theorem build_command_sequence (render_passes : list RenderPass) (w : World) :
  exists spans present,
    (build render_passes w).1.1 = concat spans ++ [present] /\
    Forall2 pass_span (seq 0 (length (build render_passes w).1.2)) spans /\
    type present = PRESENT /\
    Forall (fun c => type c <> PRESENT) (concat spans).
Proof.
  unfold build, mbind, M_bind, mret, M_ret.
  destruct (build_passes render_passes w) as [[rps sm] w1].
  destruct (encode_passes_spans rps 0 rps empty_command [] sm w1)
    as (spans & Hq & Hspans).
  destruct (encode_passes rps 0 rps empty_command [] sm w1) as [[cmd q] w2].
  simpl in Hq. subst q. simpl.
  exists spans, (set_type PRESENT cmd). repeat split; try done.
  apply Forall_concat. clear - Hspans. revert Hspans. generalize (seq 0 (length rps)).
  induction spans as [|span spans IH]; intros l Hl; [done|].
  inversion Hl as [|i span' l' spans' Hi Hrest]; subst.
  constructor; [by eapply pass_span_no_present|by eapply IH].
Qed.

(** ** C3: which blocks of a pass draw *)


(** ** C7: the point light draws of a pass *)





(** ** C9 and C10: lights without a shadow map, rigs without lights *)

Lemma pass_draw_inv rps i pass cmd q sm w start draws stop new n c :
  pass_encoded rps i pass cmd q sm w start draws stop new ->
  length q <= n ->
  (encode_pass rps i pass cmd q sm w).1.2 !! n = Some c ->
  type c = DRAW ->
  c ∈ draws.
Proof.
  intros H Hn Hc Ht. rewrite (pe_queue _ _ _ _ _ _ _ _ _ _ _ H) in Hc.
  rewrite lookup_app_r in Hc by done.
  apply list_elem_of_lookup_2 in Hc.
  destruct (pe_start _ _ _ _ _ _ _ _ _ _ _ H) as [Hs _].
  destruct (pe_stop _ _ _ _ _ _ _ _ _ _ _ H) as [He _].
  apply elem_of_cons in Hc as [->|Hc]; [congruence|].
  apply elem_of_app in Hc as [Hc|Hc]; [done|].
  apply list_elem_of_singleton in Hc as ->. congruence.
Qed.

(** C9. While a pass is encoded with the shadow map table [sm]: a DRAW
    command for a directional light that has no entry in the table, on an
    entity that receives shadows, holds the null shadow map.  The lookup has
    no failing case: [encode_pass], like [build], is a total function. *)
Theorem missing_shadow_map_is_null (rps : list RenderPass) (i : nat) (pass : RenderPass)
    (cmd : RenderCommand) (q : list RenderCommand)
    (sm : gmap DirectionalLightPtr RenderTargetRef) (w : World)
    (n : nat) (c : RenderCommand) (k : nat) (l : DirectionalLightPtr)
    (rg : RenderGraphPtr) (e : RenderEntity) :
  length q <= n ->
  (encode_pass rps i pass cmd q sm w).1.2 !! n = Some c ->
  type c = DRAW ->
  light c = Some (DirectionalLightPtrOf l) ->
  render_entity c = Some (EntityAt (scene pass) k) ->
  entities (get_scene w (scene pass)) !! k = Some (rg, e) ->
  receive_shadow e = true ->
  sm !! l = None ->
  shadow_map c = None.
Proof.
  intros Hn Hc Ht Hl Hre Hk Hrs Hsm.
  destruct (encode_pass_spec rps i pass cmd q sm w) as (start & draws & stop & new & H).
  pose proof (pass_draw_inv _ _ _ _ _ _ _ _ _ _ _ _ _ H Hn Hc Ht) as Hin.
  pose proof (pe_shadow _ _ _ _ _ _ _ _ _ _ _ H) as Hs.
  rewrite Forall_forall in Hs. rewrite <- Hsm. by eapply (Hs c Hin).
Qed.

(** C10. While a pass is encoded, the material factory is not called with
    light type POINT when the scene of the pass has no point light, nor with
    DIRECTIONAL when it has no directional light: among the calls made for
    the pass none is a material call of a light type, other than ambient, of
    which the rig has no light. *)
Theorem no_material_without_light (rps : list RenderPass) (i : nat) (pass : RenderPass)
    (cmd : RenderCommand) (q : list RenderCommand)
    (sm : gmap DirectionalLightPtr RenderTargetRef) (w : World) (lt : LightType) :
  lt <> AMBIENT ->
  light_count lt (lighting_rig (get_scene w (scene pass))) = 0 ->
  Forall (fun c => ~ material_call_of lt c)
    (drop (length (calls w)) (calls (encode_pass rps i pass cmd q sm w).2)).
Proof.
  intros Hlt Hcount.
  destruct (encode_pass_spec rps i pass cmd q sm w) as (start & draws & stop & new & H).
  rewrite (pe_calls _ _ _ _ _ _ _ _ _ _ _ H), drop_app_length.
  pose proof (pe_materials _ _ _ _ _ _ _ _ _ _ _ H) as Hm.
  apply (Forall_impl _ _ _ Hm). intros c (lt' & Hin & Hc) Hc'.
  assert (lt' = lt) as ->.
  { destruct c; simpl in *; try done; congruence. }
  unfold pass_light_types in Hin.
  apply elem_of_cons in Hin as [->|Hin]; [done|].
  destruct (depth_only pass); [by apply elem_of_nil in Hin|].
  apply elem_of_app in Hin as [Hin|Hin].
  - case_bool_decide as Hp; [by apply elem_of_nil in Hin|].
    apply list_elem_of_singleton in Hin as ->. simpl in Hcount.
    by apply Hp, nil_length_inv.
  - case_bool_decide as Hp; [by apply elem_of_nil in Hin|].
    apply list_elem_of_singleton in Hin as ->. simpl in Hcount.
    by apply Hp, nil_length_inv.
Qed.

(** ** The helper [add_pass] *)

Lemma alter_back {A} (f : A -> A) (l : list A) (x : A) :
  alter f (length l) (l ++ [x]) = l ++ [f x].
Proof.
  rewrite <- (Nat.add_0_r (length l)). by rewrite alter_app_r.
Qed.

Lemma nth_back {A} (l : list A) (x d : A) : nth (length l) (l ++ [x]) d = x.
Proof. rewrite app_nth2 by lia. by rewrite Nat.sub_diag. Qed.

Lemma update_back_snoc {A} (f : A -> A) (l : list A) (x : A) :
  update_back f (l ++ [x]) = l ++ [f x].
Proof. unfold update_back. by rewrite reverse_snoc, reverse_involutive. Qed.

(** [add_pass]: a fresh target from the provider; the last pass of the deque
    now renders into it; a new pass, on a scene and a camera of the builder,
    is pushed, and its graph is what the callback makes of the target. *)
Lemma add_pass_eq rps cb w :
  add_pass rps cb w =
    let '(target, e') := create_render_target_callback_ width_ height_ (ext w) in
    (update_back (with_colour_target (Some target)) rps ++
       [new_render_pass (PassDataScene (length (pass_data_ w)))
          (PassDataCamera (length (pass_data_ w)))],
     target,
     mkWorld e' (scenes w) (cameras w)
       (pass_data_ w ++
          [stage_pass_data (length (pass_data_ w))
             (cb rps (mkRenderGraph (RenderNode None)) target)])
       (calls w ++ [CreateRenderTarget width_ height_ target])).
Proof.
  unfold add_pass, push_pass_data, create_render_target, create_render_graph,
    update_render_graph, create_entity, update_scene, update_scene_in,
    update_pass_data, get_world, lift_ext, log_call, mbind, M_bind, mret, M_ret.
  simpl. destruct (create_render_target_callback_ width_ height_ (ext w)) as [t e'].
  simpl. rewrite !alter_back. simpl. rewrite !nth_back. simpl. done.
Qed.

Lemma add_pass_spec rps cb w :
  exists target w',
    add_pass rps cb w =
      (update_back (with_colour_target (Some target)) rps ++
         [new_render_pass (PassDataScene (length (pass_data_ w)))
            (PassDataCamera (length (pass_data_ w)))],
       target, w') /\
    pass_data_ w' =
      pass_data_ w ++
        [stage_pass_data (length (pass_data_ w))
           (cb rps (mkRenderGraph (RenderNode None)) target)] /\
    scenes w' = scenes w /\ cameras w' = cameras w /\
    calls w' = calls w ++ [CreateRenderTarget width_ height_ target].
Proof.
  rewrite add_pass_eq.
  destruct (create_render_target_callback_ width_ height_ (ext w)) as [t e'].
  eexists t, _. split; [reflexivity|]. done.
Qed.

(** ** C6: the passes for ambient occlusion *)

Lemma get_camera_only_calls w w' new p :
  only_calls w w' new -> get_camera w' p = get_camera w p.
Proof.
  intros H. destruct p as [c|[s i]|i]; simpl.
  - destruct H as (_ & -> & _). done.
  - by rewrite (get_scene_only_calls _ _ _ s H).
  - destruct H as (_ & _ & -> & _). done.
Qed.

(** What the [if (ssao)] block leaves behind. *)
Lemma add_ambient_occlusion_passes_spec (ssao : AmbientOcclusionDescription)
    (pass : RenderPass) (pre_process_passes : list RenderPass) (w : World) :
  exists normal position input hybrid w',
    add_ambient_occlusion_passes ssao pass pre_process_passes w =
      (mkRenderPass (scene pass) (camera pass) (Some hybrid)
         (normal_target pass) (position_target pass)
         (post_processing_description pass) (sky_box pass) (depth_only pass)
         false false,
       pre_process_passes ++
         [mkRenderPass (scene pass) (camera pass) (Some input)
            (Some normal) (Some position) no_post_processing (sky_box pass)
            true true (clear_depth pass);
          with_colour_target (colour_target pass)
            (new_render_pass (PassDataScene (length (pass_data_ w)))
               (PassDataCamera (length (pass_data_ w))))],
       w') /\
    pass_data_ w' =
      pass_data_ w ++
        [mkPassData
           (pd_scene (stage_pass_data (length (pass_data_ w))
                        (ambient_occlusion_render_graph input normal position ssao)))
           (get_camera w (camera pass))] /\
    calls w' =
      calls w ++
        [CreateRenderTarget width_ height_ normal;
         CreateRenderTarget width_ height_ position;
         CreateRenderTarget width_ height_ input;
         CreateHybridRenderTarget (colour_target pass) (Some input) hybrid] /\
    scenes w' = scenes w /\ cameras w' = cameras w.
Proof.
  unfold add_ambient_occlusion_passes, mbind, M_bind, get_world, mret, M_ret.
  destruct (create_render_target_spec width_ height_ w) as (normal & Hn & Hw1).
  destruct (create_render_target width_ height_ w) as [normal' w1].
  simpl in Hn, Hw1. subst normal'.
  destruct (create_render_target_spec width_ height_ w1) as (position & Hp & Hw2).
  destruct (create_render_target width_ height_ w1) as [position' w2].
  simpl in Hp, Hw2. subst position'.
  pose proof (only_calls_trans _ _ _ _ _ Hw1 Hw2) as Hw12.
  match goal with |- context [add_pass ?rps ?cb w2] =>
    destruct (add_pass_spec rps cb w2) as (input & w3 & Hadd & Hpd3 & Hs3 & Hc3 & Hl3);
    rewrite Hadd
  end.
  unfold set_back_camera, update_pass_data. cbv beta iota zeta.
  match goal with |- context [create_hybrid_render_target ?c ?d ?w4] =>
    destruct (create_hybrid_render_target_spec c d w4) as (hybrid & Hh & Hw5);
    destruct (create_hybrid_render_target c d w4) as [hybrid' w5];
    simpl in Hh, Hw5; subst hybrid'
  end.
  exists normal, position, input, hybrid, w5.
  destruct Hw5 as (Hs5 & Hc5 & Hp5 & Hl5). simpl in Hs5, Hc5, Hp5, Hl5.
  destruct Hw12 as (Hs2 & Hc2 & Hp2 & Hl2).
  rewrite !update_back_snoc.
  split; [|split; [|split; [|split]]].
  - rewrite Hp2, <- app_assoc. destruct pass. reflexivity.
  - rewrite Hp5, Hpd3, Hp2, length_app. simpl.
    replace (length (pass_data_ w) + 1 - 1) with (length (pass_data_ w)) by lia.
    rewrite alter_back. simpl. unfold stage_pass_data, ambient_occlusion_graph.
    rewrite length_app. simpl.
    replace (length pre_process_passes + 1 - 1) with (length pre_process_passes) by lia.
    rewrite list_lookup_middle by done. simpl.
    rewrite (get_camera_only_calls _ _ _ _ (conj Hs2 (conj Hc2 (conj Hp2 Hl2)))).
    done.
  - rewrite !update_back_snoc, last_snoc in Hl5. rewrite Hl5, Hl3, Hl2. simpl.
    by rewrite <- !app_assoc.
  - congruence.
  - congruence.
Qed.


(** ** C5: the shadow passes *)

Lemma casting_from_ge i lights j : j ∈ casting_from i lights -> i <= j.
Proof.
  revert i. induction lights as [|l lights IH]; intros i Hj; simpl in Hj.
  - by apply elem_of_nil in Hj.
  - apply elem_of_app in Hj as [Hj|Hj].
    + destruct (casts_shadows l); [|by apply elem_of_nil in Hj].
      apply list_elem_of_singleton in Hj. lia.
    + apply IH in Hj. lia.
Qed.

Lemma add_shadow_passes_spec pass i lights pre sm w :
  exists rts,
    length rts = length (casting_from i lights) /\
    (add_shadow_passes pass i lights pre sm w).1.1 =
      pre ++ zip_with (shadow_pass pass) (casting_from i lights) rts /\
    only_calls w (add_shadow_passes pass i lights pre sm w).2
      (map (CreateRenderTarget 1024 1024) rts) /\
    (forall n j rt,
       casting_from i lights !! n = Some j -> rts !! n = Some rt ->
       (add_shadow_passes pass i lights pre sm w).1.2
         !! DirectionalLightAt (scene pass) j = Some rt) /\
    (forall k,
       (forall j, j ∈ casting_from i lights -> k <> DirectionalLightAt (scene pass) j) ->
       (add_shadow_passes pass i lights pre sm w).1.2 !! k = sm !! k).
Proof.
  revert i pre sm w. induction lights as [|l lights IH]; intros i pre sm w.
  - exists []. simpl. rewrite app_nil_r. split; [done|]. split; [done|].
    split; [apply only_calls_refl|]. split; [|done].
    intros n j rt Hn. by rewrite lookup_nil in Hn.
  - cbn [add_shadow_passes casting_from]. unfold mbind, M_bind, mret, M_ret.
    destruct (casts_shadows l).
    + destruct (create_render_target_spec 1024 1024 w) as (rt & Hrt & Hw1).
      destruct (create_render_target 1024 1024 w) as [rt' w1].
      simpl in Hrt, Hw1. subst rt'.
      destruct (IH (S i) (pre ++ [shadow_pass pass i rt])
                  (<[DirectionalLightAt (scene pass) i := rt]> sm) w1)
        as (rts & Hlen & Hpre & Hw & Hin & Hout).
      exists (rt :: rts). simpl.
      assert (Heq :
        with_clear_depth true (with_clear_colour true (with_depth_only true
          (with_position_target None (with_normal_target None
            (with_colour_target (Some rt)
              (with_camera (ShadowCameraOf (DirectionalLightAt (scene pass) i))
                (with_post_processing_description no_post_processing pass)))))))
        = shadow_pass pass i rt) by done.
      rewrite Heq.
      split; [by rewrite Hlen|]. split; [by rewrite Hpre, <- app_assoc|].
      split; [apply (only_calls_trans _ _ _ [_] _ Hw1 Hw)|]. split.
      * intros [|n] j rt' Hj Hrt'; simpl in Hj, Hrt'.
        -- injection Hj as <-. injection Hrt' as <-.
           rewrite Hout; [apply lookup_insert_eq|].
           intros j Hj Heq'. injection Heq' as <-.
           apply casting_from_ge in Hj. lia.
        -- by eapply Hin.
      * intros k Hk. rewrite Hout.
        -- apply lookup_insert_ne. intros <-. apply (Hk i); [|done].
           apply list_elem_of_here.
        -- intros j Hj. apply Hk. by apply list_elem_of_further.
    + destruct (IH (S i) pre sm w) as (rts & Hlen & Hpre & Hw & Hin & Hout).
      exists rts. simpl. done.
Qed.

(** ** C4: the passes for bloom *)

Lemma chain_length y m ts : length (chain y m ts) = S (length ts).
Proof. revert y m. induction ts as [|t ts IH]; intros y m; simpl; [done|]. by rewrite IH. Qed.

Lemma update_back_app {A} (f : A -> A) (d l : list A) :
  l <> [] -> update_back f (d ++ l) = d ++ update_back f l.
Proof.
  intros Hl. destruct l as [|x l' _] using rev_ind; [done|].
  by rewrite app_assoc, !update_back_snoc, app_assoc.
Qed.

Lemma chain_snoc y m ts t :
  update_back (with_colour_target (Some t)) (chain y m ts) ++
    [new_render_pass (PassDataScene (m + length ts)) (PassDataCamera (m + length ts))]
  = chain y m (ts ++ [t]).
Proof.
  revert y m. induction ts as [|t' ts IH]; intros y m; simpl.
  - by rewrite Nat.add_0_r.
  - rewrite <- IH.
    change (with_colour_target (Some t') y :: ?l) with ([with_colour_target (Some t') y] ++ l).
    rewrite update_back_app.
    + simpl. by rewrite Nat.add_succ_r.
    + intros Hnil. apply (f_equal length) in Hnil. by rewrite chain_length in Hnil.
Qed.

Lemma add_pass_chain d y m ts cb w :
  length (pass_data_ w) = m + length ts ->
  exists t w',
    add_pass (d ++ chain y m ts) cb w = (d ++ chain y m (ts ++ [t]), t, w') /\
    pass_data_ w' =
      pass_data_ w ++
        [stage_pass_data (m + length ts)
           (cb (d ++ chain y m ts) (mkRenderGraph (RenderNode None)) t)] /\
    scenes w' = scenes w /\ cameras w' = cameras w /\
    calls w' = calls w ++ [CreateRenderTarget width_ height_ t].
Proof.
  intros Hm.
  destruct (add_pass_spec (d ++ chain y m ts) cb w) as (t & w' & Hadd & Hpd & Hrest).
  exists t, w'. rewrite Hadd, Hpd, Hm. split; [|done].
  rewrite update_back_app, <- app_assoc, chain_snoc; [done|].
  intros Hnil. apply (f_equal length) in Hnil. by rewrite chain_length in Hnil.
Qed.

Lemma blur_pass_data_snoc m ts t :
  blur_pass_data m (ts ++ [t]) =
    blur_pass_data m ts ++ [stage_pass_data (m + length ts) (blur_render_graph t)].
Proof.
  revert m. induction ts as [|t' ts IH]; intros m; simpl.
  - by rewrite Nat.add_0_r.
  - by rewrite IH, Nat.add_succ_r.
Qed.

Lemma add_blur_passes_spec n d y m ts w :
  length (pass_data_ w) = m + length ts ->
  exists bs w',
    length bs = n /\
    add_blur_passes n (d ++ chain y m ts) w = (d ++ chain y m (ts ++ bs), w') /\
    pass_data_ w' = pass_data_ w ++ blur_pass_data (m + length ts) bs /\
    scenes w' = scenes w /\ cameras w' = cameras w /\
    calls w' = calls w ++ map (CreateRenderTarget width_ height_) bs.
Proof.
  revert ts w. induction n as [|n IH]; intros ts w Hm; simpl.
  - exists [], w. unfold mret, M_ret. by rewrite !app_nil_r.
  - unfold mbind, M_bind.
    destruct (add_pass_chain d y m ts blur_graph w Hm)
      as (t & w1 & Hadd & Hpd & Hs & Hc & Hl).
    rewrite Hadd.
    destruct (IH (ts ++ [t]) w1) as (bs & w2 & Hlen & Hblur & Hpd2 & Hs2 & Hc2 & Hl2).
    { rewrite Hpd, !length_app. simpl. lia. }
    exists (t :: bs), w2. rewrite Hblur, Hpd2, Hpd, Hl2, Hl, <- !app_assoc. simpl.
    rewrite length_app. simpl.
    replace (m + (length ts + 1)) with (S (m + length ts)) by lia.
    repeat split; try done; try congruence.
Qed.

Lemma add_bloom_passes_chain b d y m ts w :
  length (pass_data_ w) = m + length ts ->
  exists null_target t_threshold blurs t_composite w',
    length blurs = iterations b /\
    add_bloom_passes b (d ++ chain y m ts) w =
      (d ++ chain y m (ts ++ null_target :: t_threshold :: blurs ++ [t_composite]), w') /\
    pass_data_ w' =
      pass_data_ w ++
        stage_pass_data (m + length ts) (pass_through_render_graph null_target) ::
        stage_pass_data (S (m + length ts)) (threshold_render_graph b t_threshold) ::
        blur_pass_data (S (S (m + length ts))) blurs ++
        [stage_pass_data (S (S (m + length ts)) + iterations b)
           (composite_render_graph null_target t_composite)] /\
    scenes w' = scenes w /\ cameras w' = cameras w /\
    calls w' =
      calls w ++
        map (CreateRenderTarget width_ height_)
          (null_target :: t_threshold :: blurs ++ [t_composite]).
Proof.
  intros Hm. unfold add_bloom_passes, mbind, M_bind, mret, M_ret.
  destruct (add_pass_chain d y m ts pass_through_graph w Hm)
    as (t1 & w1 & Hadd1 & Hpd1 & Hs1 & Hc1 & Hl1).
  rewrite Hadd1.
  destruct (add_pass_chain d y m (ts ++ [t1]) (threshold_graph b) w1)
    as (t2 & w2 & Hadd2 & Hpd2 & Hs2 & Hc2 & Hl2).
  { rewrite Hpd1, !length_app. simpl. lia. }
  rewrite Hadd2.
  destruct (add_blur_passes_spec (iterations b) d y m ((ts ++ [t1]) ++ [t2]) w2)
    as (bs & w3 & Hlen & Hblur & Hpd3 & Hs3 & Hc3 & Hl3).
  { rewrite Hpd2, Hpd1, !length_app. simpl. lia. }
  rewrite Hblur.
  destruct (add_pass_chain d y m (((ts ++ [t1]) ++ [t2]) ++ bs) (composite_graph t1) w3)
    as (tc & w4 & Hadd4 & Hpd4 & Hs4 & Hc4 & Hl4).
  { rewrite Hpd3, Hpd2, Hpd1, !length_app. simpl.
    assert (Hb : forall k l, length (blur_pass_data k l) = length l).
    { intros k l. revert k. induction l as [|? l IH]; intros k; simpl; [done|].
      by rewrite IH. }
    rewrite Hb. lia. }
  rewrite Hadd4.
  exists t1, t2, bs, tc, w4.
  split; [done|]. split; [by rewrite <- !app_assoc|].
  split; [|split; [congruence|split; [congruence|]]].
  - rewrite Hpd4, Hpd3, Hpd2, Hpd1, !length_app, <- !app_assoc. simpl.
    replace (m + (length ts + 1)) with (S (m + length ts)) by lia.
    replace (m + (length ts + 1 + 1)) with (S (S (m + length ts))) by lia.
    replace (m + (length ts + 1 + 1 + length bs))
      with (S (S (m + length ts)) + iterations b) by lia.
    done.
  - rewrite Hl4, Hl3, Hl2, Hl1, <- !app_assoc. simpl.
    by rewrite map_app.
Qed.

Lemma blur_pass_data_length m ts : length (blur_pass_data m ts) = length ts.
Proof. revert m. induction ts as [|t ts IH]; intros m; simpl; [done|]. by rewrite IH. Qed.

Lemma bloom_stage_chain description :
  extends_chain (bloom_stage description) (bloom description = None).
Proof.
  intros d y m ts w Hm. unfold bloom_stage. destruct (bloom description) as [b|].
  - destruct (add_bloom_passes_chain b d y m ts w Hm)
      as (t1 & t2 & bs & tc & w1 & Hlen & Hrun & Hpd & Hs & Hc & Hl).
    exists (t1 :: t2 :: bs ++ [tc]), w1.
    split; [done|]. split; [done|]. split; [done|]. split; [|done].
    rewrite Hpd, !length_app. simpl. rewrite !length_app, blur_pass_data_length.
    simpl. lia.
  - exists [], w. rewrite app_nil_r. by repeat split.
Qed.

Lemma colour_adjust_stage_chain description :
  extends_chain (colour_adjust_stage description) (colour_adjust description = None).
Proof.
  intros d y m ts w Hm. unfold colour_adjust_stage, mbind, M_bind, mret, M_ret.
  destruct (colour_adjust description) as [ca|].
  - destruct (add_pass_chain d y m ts (colour_adjust_graph ca) w Hm)
      as (t & w1 & Hadd & Hpd & Hs & Hc & Hl).
    exists [t], w1. rewrite Hadd.
    split; [done|]. split; [done|]. split; [done|]. split; [|done].
    rewrite Hpd, !length_app. simpl. lia.
  - exists [], w. rewrite app_nil_r. by repeat split.
Qed.

Lemma anti_aliasing_stage_chain description :
  extends_chain (anti_aliasing_stage description) (anti_aliasing description = false).
Proof.
  intros d y m ts w Hm. unfold anti_aliasing_stage, mbind, M_bind, mret, M_ret.
  destruct (anti_aliasing description).
  - destruct (add_pass_chain d y m ts anti_aliasing_graph w Hm)
      as (t & w1 & Hadd & Hpd & Hs & Hc & Hl).
    exists [t], w1. rewrite Hadd.
    split; [done|]. split; [done|]. split; [done|]. split; [|done].
    rewrite Hpd, !length_app. simpl. lia.
  - exists [], w. rewrite app_nil_r. by repeat split.
Qed.

Lemma post_process_pass_chain render_pass rps w :
  exists ts w',
    post_process_pass render_pass rps w =
      (rps ++ update_back (with_colour_target (colour_target render_pass))
                (chain render_pass (length (pass_data_ w)) ts), w') /\
    scenes w' = scenes w /\ cameras w' = cameras w /\
    length (pass_data_ w') = length (pass_data_ w) + length ts /\
    (post_processing_description render_pass = no_post_processing -> ts = []).
Proof.
  unfold post_process_pass, mbind, M_bind, mret, M_ret.
  set (m := length (pass_data_ w)).
  set (description := post_processing_description render_pass).
  change (rps ++ [render_pass]) with (rps ++ chain render_pass m []).
  destruct (bloom_stage_chain description rps render_pass m [] w)
    as (ts1 & w1 & -> & Hs1 & Hc1 & Hp1 & Hn1).
  { simpl. unfold m. lia. }
  destruct (colour_adjust_stage_chain description rps render_pass m _ w1 Hp1)
    as (ts2 & w2 & -> & Hs2 & Hc2 & Hp2 & Hn2).
  destruct (anti_aliasing_stage_chain description rps render_pass m _ w2 Hp2)
    as (ts3 & w3 & -> & Hs3 & Hc3 & Hp3 & Hn3).
  exists ((ts1 ++ ts2) ++ ts3), w3. simpl in *.
  split; [|split; [congruence|split; [congruence|split; [done|]]]].
  - rewrite update_back_app; [done|].
    intros Hnil. apply (f_equal length) in Hnil. by rewrite chain_length in Hnil.
  - intros Hd. unfold description in *. rewrite Hd in Hn1, Hn2, Hn3.
    by rewrite Hn1, Hn2, Hn3.
Qed.

Lemma update_back_last {A} (f : A -> A) (l : list A) :
  l <> [] -> exists l' x, l = l' ++ [x] /\ update_back f l = l' ++ [f x].
Proof.
  intros Hl. destruct l as [|x l' _] using rev_ind; [done|].
  exists l', x. by rewrite update_back_snoc.
Qed.


(** ** The pass list as a whole *)

Lemma zip_with_shadow_pass_plain pass js rts :
  Forall plain_pass (zip_with (shadow_pass pass) js rts).
Proof.
  revert rts. induction js as [|j js IH]; intros [|rt rts]; simpl; try done.
  constructor; [|apply IH]. split; [done|]. by right.
Qed.

Lemma add_pre_process_passes_of_spec pass pre sm w :
  exists rts ao_passes new,
    length rts =
      length (casting_from 0 (directional_lights (lighting_rig (get_scene w (scene pass))))) /\
    (add_pre_process_passes_of pass pre sm w).1.1.2 =
      pre ++
      zip_with (shadow_pass pass)
        (casting_from 0 (directional_lights (lighting_rig (get_scene w (scene pass)))))
        rts ++
      ao_passes /\
    calls (add_pre_process_passes_of pass pre sm w).2 =
      calls w ++ map (CreateRenderTarget 1024 1024) rts ++ new /\
    (forall n j rt,
       casting_from 0 (directional_lights (lighting_rig (get_scene w (scene pass)))) !! n
         = Some j ->
       rts !! n = Some rt ->
       (add_pre_process_passes_of pass pre sm w).1.2
         !! DirectionalLightAt (scene pass) j = Some rt) /\
    Forall plain_pass ao_passes /\
    same_scene_and_sky pass (add_pre_process_passes_of pass pre sm w).1.1.1 /\
    scenes (add_pre_process_passes_of pass pre sm w).2 = scenes w /\
    cameras (add_pre_process_passes_of pass pre sm w).2 = cameras w.
Proof.
  unfold add_pre_process_passes_of, mbind, M_bind, mret, M_ret, get_world.
  destruct (add_shadow_passes_spec pass 0
              (directional_lights (lighting_rig (get_scene w (scene pass)))) pre sm w)
    as (rts & Hlen & Hpre & Hw & Hin & _).
  destruct (add_shadow_passes pass 0 _ pre sm w) as [[pre1 sm1] w1].
  simpl in Hpre, Hw, Hin. subst pre1.
  destruct Hw as (Hs1 & Hc1 & Hp1 & Hl1).
  destruct (ambient_occlusion (post_processing_description pass)) as [ssao|].
  - destruct (add_ambient_occlusion_passes_spec ssao pass
                (pre ++ zip_with (shadow_pass pass)
                   (casting_from 0
                      (directional_lights (lighting_rig (get_scene w (scene pass))))) rts) w1)
      as (normal & position & input & hybrid & w2 & Hrun & Hpd & Hl & Hs & Hc).
    rewrite Hrun. simpl.
    eexists rts, [_; _], _. split; [done|]. split; [by rewrite <- app_assoc|].
    split; [by rewrite Hl, Hl1, <- app_assoc|]. split; [done|].
    split; [|split; [done|split; congruence]].
    constructor; [split; [done|by right]|].
    constructor; [|done]. split; [done|by left].
  - exists rts, [], []. simpl. rewrite !app_nil_r.
    split; [done|]. split; [done|]. split; [done|]. split; [done|].
    split; [done|]. split; [done|]. done.
Qed.

Lemma add_pre_process_passes_spec passes pre sm w :
  exists new_pre,
    (add_pre_process_passes passes pre sm w).1.1.2 = pre ++ new_pre /\
    Forall plain_pass new_pre /\
    Forall2 same_scene_and_sky passes (add_pre_process_passes passes pre sm w).1.1.1 /\
    scenes (add_pre_process_passes passes pre sm w).2 = scenes w /\
    cameras (add_pre_process_passes passes pre sm w).2 = cameras w.
Proof.
  revert pre sm w. induction passes as [|pass passes IH]; intros pre sm w; simpl.
  - exists []. rewrite app_nil_r. by repeat split.
  - unfold mbind, M_bind, mret, M_ret.
    destruct (add_pre_process_passes_of_spec pass pre sm w)
      as (rts & ao & new & _ & Hpre & _ & _ & Hao & Hsame & Hs & Hc).
    destruct (add_pre_process_passes_of pass pre sm w) as [[[pass1 pre1] sm1] w1].
    simpl in Hpre, Hsame, Hs, Hc. subst pre1.
    destruct (IH (pre ++ zip_with (shadow_pass pass)
                    (casting_from 0
                       (directional_lights (lighting_rig (get_scene w (scene pass))))) rts
                  ++ ao) sm1 w1) as (new_pre & Hpre2 & Hplain & Hsame2 & Hs2 & Hc2).
    destruct (add_pre_process_passes passes _ sm1 w1) as [[[rest pre2] sm2] w2].
    simpl in *. subst pre2.
    exists (zip_with (shadow_pass pass)
              (casting_from 0
                 (directional_lights (lighting_rig (get_scene w (scene pass))))) rts
            ++ ao ++ new_pre).
    split; [by rewrite <- !app_assoc|].
    split; [|split; [by constructor|split; congruence]].
    rewrite !Forall_app. split; [apply zip_with_shadow_pass_plain|]. by split.
Qed.

Lemma chain_Forall (Q : RenderPass -> Prop) y m ts :
  Q y ->
  (forall p t, Q p -> Q (with_colour_target t p)) ->
  (forall s c, Q (new_render_pass s c)) ->
  Forall Q (chain y m ts).
Proof.
  intros Hy Hct Hnew. revert y m Hy. induction ts as [|t ts IH]; intros y m Hy; simpl.
  - by constructor.
  - constructor; [by apply Hct|]. apply IH, Hnew.
Qed.

Lemma expansion_of_no_sky_draw p expansion :
  expansion_of p expansion -> no_sky_draw p -> Forall no_sky_draw expansion.
Proof.
  intros (m & ts & -> & _) Hp.
  assert (Hct : forall p t, no_sky_draw p -> no_sky_draw (with_colour_target t p)).
  { intros q t Hq. exact Hq. }
  pose proof (chain_Forall no_sky_draw p m ts Hp Hct) as Hchain.
  destruct (update_back_last (with_colour_target (colour_target p)) (chain p m ts))
    as (l & x & Heq & ->).
  { intros Hnil. apply (f_equal length) in Hnil. by rewrite chain_length in Hnil. }
  rewrite Heq in Hchain. specialize (Hchain (fun _ _ => or_introl eq_refl)).
  apply Forall_app in Hchain as [Hl Hx]. apply Forall_app. split; [done|].
  constructor; [|done]. apply Hct. by inversion Hx.
Qed.

Lemma expansion_of_plain p :
  post_processing_description p = no_post_processing -> forall expansion,
  expansion_of p expansion -> expansion = [p].
Proof.
  intros Hp expansion (m & ts & -> & Hts). rewrite (Hts Hp). simpl.
  unfold update_back. simpl. by destruct p.
Qed.

Lemma add_post_processing_passes_spec passes rps w :
  exists expansions,
    (add_post_processing_passes passes rps w).1 = rps ++ concat expansions /\
    Forall2 expansion_of passes expansions /\
    scenes (add_post_processing_passes passes rps w).2 = scenes w /\
    cameras (add_post_processing_passes passes rps w).2 = cameras w.
Proof.
  revert rps w. induction passes as [|pass passes IH]; intros rps w; simpl.
  - exists []. simpl. rewrite app_nil_r. by repeat split.
  - unfold mbind, M_bind.
    destruct (post_process_pass_chain pass rps w) as (ts & w1 & -> & Hs & Hc & _ & Hts).
    destruct (IH (rps ++ update_back (with_colour_target (colour_target pass))
                           (chain pass (length (pass_data_ w)) ts)) w1)
      as (expansions & Hrun & Hexp & Hs2 & Hc2).
    eexists (_ :: expansions). rewrite Hrun. simpl. rewrite <- app_assoc.
    split; [done|]. split; [|split; congruence].
    constructor; [|done]. by exists (length (pass_data_ w)), ts.
Qed.

(** The final pass list: the pre-process passes as they are, then every
    initial pass with its stages. *)
Lemma build_passes_order render_passes w :
  exists pre_process_passes initial_passes expansions,
    (build_passes render_passes w).1.1 = pre_process_passes ++ concat expansions /\
    pre_process_passes = (add_pre_process_passes render_passes [] ∅ w).1.1.2 /\
    initial_passes = (add_pre_process_passes render_passes [] ∅ w).1.1.1 /\
    Forall plain_pass pre_process_passes /\
    Forall2 same_scene_and_sky render_passes initial_passes /\
    Forall2 expansion_of initial_passes expansions /\
    scenes (build_passes render_passes w).2 = scenes w /\
    cameras (build_passes render_passes w).2 = cameras w.
Proof.
  unfold build_passes, mbind, M_bind, mret, M_ret.
  destruct (add_pre_process_passes_spec render_passes [] ∅ w)
    as (pre & Hpre & Hplain & Hsame & Hs & Hc).
  destruct (add_pre_process_passes render_passes [] ∅ w) as [[[init pre'] sm] w1].
  simpl in Hpre, Hsame, Hs, Hc. subst pre'.
  destruct (add_post_processing_passes_spec (pre ++ init) [] w1)
    as (expansions & Hrun & Hexp & Hs2 & Hc2).
  destruct (add_post_processing_passes (pre ++ init) [] w1) as [rps w2].
  simpl in Hrun, Hs2, Hc2. subst rps. simpl.
  apply Forall2_app_inv_l in Hexp as (e1 & e2 & He1 & He2 & ->).
  assert (Hpre_exp : concat e1 = pre).
  { clear - Hplain He1. revert e1 He1.
    induction Hplain as [|p pre [Hp _] _ IH]; intros e1 He1.
    - by inversion He1.
    - inversion He1 as [|? x ? e1' Hx Hrest]; subst. simpl.
      rewrite (expansion_of_plain p Hp x Hx). simpl. f_equal. by apply IH. }
  exists pre, init, e2. rewrite concat_app, Hpre_exp.
  split; [done|]. split; [done|]. split; [done|]. split; [done|].
  split; [done|]. split; [done|]. split; congruence.
Qed.


(** ** C8: what [build] does to the data of the caller *)











(** ** C2: shadow maps on directional draws *)

(** The part of C2 that the code keeps: a directional DRAW on an entity that
    receives shadows holds what the table says about its light, so the
    target of the light if the light casts shadows. *)
Lemma receiver_draw_holds_table_entry (rps : list RenderPass) (i : nat)
    (pass : RenderPass) (cmd : RenderCommand) (q : list RenderCommand)
    (sm : gmap DirectionalLightPtr RenderTargetRef) (w : World)
    (n : nat) (c : RenderCommand) (k : nat) (l : DirectionalLightPtr)
    (rg : RenderGraphPtr) (e : RenderEntity) :
  length q <= n ->
  (encode_pass rps i pass cmd q sm w).1.2 !! n = Some c ->
  type c = DRAW ->
  light c = Some (DirectionalLightPtrOf l) ->
  render_entity c = Some (EntityAt (scene pass) k) ->
  entities (get_scene w (scene pass)) !! k = Some (rg, e) ->
  receive_shadow e = true ->
  shadow_map c = sm !! l.
Proof.
  intros Hn Hc Ht Hl Hre Hk Hrs.
  destruct (encode_pass_spec rps i pass cmd q sm w) as (start & draws & stop & new & H).
  pose proof (pass_draw_inv _ _ _ _ _ _ _ _ _ _ _ _ _ H Hn Hc Ht) as Hin.
  pose proof (pe_shadow _ _ _ _ _ _ _ _ _ _ _ H) as Hs.
  rewrite Forall_forall in Hs. by eapply (Hs c Hin).
Qed.

(** * Further properties of the builder *)

(** ** The stages of a pass, counted *)

Lemma adds_stages_skip n (stage : list RenderPass -> M (list RenderPass)) :
  n = 0 -> (forall rps w, stage rps w = (rps, w)) -> adds_stages stage n.
Proof.
  intros -> H d y m ts w _. exists [], [], w. rewrite H, !app_nil_r. by repeat split.
Qed.

Lemma adds_stages_bind s1 s2 n1 n2 :
  adds_stages s1 n1 -> adds_stages s2 n2 ->
  adds_stages (fun rps => rps ← s1 rps; s2 rps) (n1 + n2).
Proof.
  intros H1 H2 d y m ts w Hlen. unfold mbind, M_bind.
  destruct (H1 d y m ts w Hlen) as (ts1 & data1 & w1 & E1 & Ht1 & Hd1 & Hp1 & Hc1 & Hs1 & Hcam1).
  rewrite E1.
  destruct (H2 d y m (ts ++ ts1) w1) as (ts2 & data2 & w2 & E2 & Ht2 & Hd2 & Hp2 & Hc2 & Hs2 & Hcam2).
  { rewrite Hp1, !length_app. lia. }
  exists (ts1 ++ ts2), (data1 ++ data2), w2. rewrite E2, <- app_assoc.
  split; [done|]. rewrite !length_app, Ht1, Ht2, Hd1, Hd2.
  split; [done|]. split; [done|].
  split; [by rewrite Hp2, Hp1, <- app_assoc|].
  split; [by rewrite Hc2, Hc1, map_app, <- app_assoc|].
  split; congruence.
Qed.

Lemma add_pass_adds_stage cb :
  adds_stages (fun rps => '(rps, _) ← add_pass rps cb; mret rps) 1.
Proof.
  intros d y m ts w Hlen. unfold mbind, M_bind, mret, M_ret.
  destruct (add_pass_chain d y m ts cb w Hlen) as (t & w' & E & Hp & Hs & Hc & Hl).
  rewrite E. exists [t], [stage_pass_data (m + length ts)
                           (cb (d ++ chain y m ts) (mkRenderGraph (RenderNode None)) t)], w'.
  by repeat split.
Qed.

Lemma bloom_stage_adds description :
  adds_stages (bloom_stage description)
    (match bloom description with Some b => iterations b + 3 | None => 0 end).
Proof.
  unfold bloom_stage. destruct (bloom description) as [b|]; [|by apply adds_stages_skip].
  intros d y m ts w Hlen.
  destruct (add_bloom_passes_chain b d y m ts w Hlen)
    as (nt & tt & blurs & tc & w' & Hb & E & Hp & Hs & Hc & Hl).
  eexists (nt :: tt :: blurs ++ [tc]), _, w'. rewrite E.
  split; [done|]. split; [simpl; rewrite length_app; simpl; lia|].
  split; [|split; [exact Hp|by repeat split]].
  simpl. rewrite length_app, blur_pass_data_length. simpl. lia.
Qed.

Lemma colour_adjust_stage_adds description :
  adds_stages (colour_adjust_stage description)
    (match colour_adjust description with Some _ => 1 | None => 0 end).
Proof.
  unfold colour_adjust_stage.
  destruct (colour_adjust description) as [ca|]; [|by apply adds_stages_skip].
  apply add_pass_adds_stage.
Qed.

Lemma anti_aliasing_stage_adds description :
  adds_stages (anti_aliasing_stage description)
    (if anti_aliasing description then 1 else 0).
Proof.
  unfold anti_aliasing_stage.
  destruct (anti_aliasing description); [|by apply adds_stages_skip].
  apply add_pass_adds_stage.
Qed.

Lemma post_process_pass_stages render_pass rps w :
  exists ts data w',
    post_process_pass render_pass rps w =
      (rps ++ update_back (with_colour_target (colour_target render_pass))
                (chain render_pass (length (pass_data_ w)) ts), w') /\
    length ts = stage_count (post_processing_description render_pass) /\
    length data = stage_count (post_processing_description render_pass) /\
    pass_data_ w' = pass_data_ w ++ data /\
    calls w' = calls w ++ map (CreateRenderTarget width_ height_) ts /\
    scenes w' = scenes w /\ cameras w' = cameras w.
Proof.
  pose proof (adds_stages_bind _ _ _ _
    (adds_stages_bind _ _ _ _
       (bloom_stage_adds (post_processing_description render_pass))
       (colour_adjust_stage_adds (post_processing_description render_pass)))
    (anti_aliasing_stage_adds (post_processing_description render_pass))) as H.
  destruct (H rps render_pass (length (pass_data_ w)) [] w)
    as (ts & data & w' & E & Ht & Hd & Hp & Hc & Hs & Hcam); [simpl; lia|].
  exists ts, data, w'. split; [|by repeat split].
  unfold post_process_pass. unfold mbind, M_bind, mret, M_ret in *.
  simpl in E.
  destruct (bloom_stage _ (rps ++ [render_pass]) w) as [r1 w1].
  destruct (colour_adjust_stage _ r1 w1) as [r2 w2].
  destruct (anti_aliasing_stage _ r2 w2) as [r3 w3].
  injection E as -> ->.
  rewrite update_back_app; [done|]. by destruct ts.
Qed.


(** ** What the commands and the material calls of a build hold *)

Lemma encode_point_lights_fields scn i lights cmd q :
  exists out,
    (encode_point_lights scn i lights cmd q).2 = q ++ out /\
    Forall (fun c => type c = DRAW /\ render_pass c = render_pass cmd /\
                     material c = material cmd /\ render_entity c = render_entity cmd /\
                     shadow_map c = shadow_map cmd /\ light c <> None) out /\
    render_pass (encode_point_lights scn i lights cmd q).1 = render_pass cmd /\
    shadow_map (encode_point_lights scn i lights cmd q).1 = shadow_map cmd.
Proof.
  revert i cmd q. induction lights as [|l lights IH]; intros i cmd q; simpl.
  - exists []. by rewrite app_nil_r.
  - destruct (IH (S i) (set_light (Some (PointLightAt scn i)) (set_type DRAW cmd))
                (q ++ [set_light (Some (PointLightAt scn i)) (set_type DRAW cmd)]))
      as (out & Hq & Hout & Hp & Hs).
    eexists (_ :: out). rewrite Hq, <- app_assoc, Hp, Hs. simpl.
    split; [done|]. split; [|done]. constructor; [done|].
    apply (Forall_impl _ _ _ Hout). by intros c (?&?&?&?&?&?).
Qed.

Lemma from_table_lookup (sm : gmap DirectionalLightPtr RenderTargetRef) l :
  from_table sm (sm !! l).
Proof. intros rt H. by exists l. Qed.

Lemma shadow_maps_follow_app sm s out1 s1 out2 s2 :
  shadow_maps_follow sm s out1 s1 -> shadow_maps_follow sm s1 out2 s2 ->
  shadow_maps_follow sm s (out1 ++ out2) s2.
Proof.
  induction 1 as [|s c out s' Hc _ IH]; intros H2; simpl; [done|].
  constructor; [done|]. by apply IH.
Qed.

Lemma shadow_maps_follow_same sm s out :
  Forall (fun c => shadow_map c = s) out -> shadow_maps_follow sm s out s.
Proof.
  induction 1 as [|c out Hc _ IH]; [constructor|].
  constructor; [by left|]. by rewrite Hc.
Qed.

Lemma shadow_maps_follow_from_table sm s out s' :
  shadow_maps_follow sm s out s' -> from_table sm s ->
  Forall (fun c => from_table sm (shadow_map c)) out /\ from_table sm s'.
Proof.
  induction 1 as [|s c out s' Hc _ IH]; intros Hs; [done|].
  assert (Hc' : from_table sm (shadow_map c)).
  { destruct Hc as [->|(l & _ & _ & ->)]; [done|apply from_table_lookup]. }
  destruct (IH Hc') as [H1 H2]. split; [by constructor|done].
Qed.

Lemma shadow_maps_follow_lookup sm s q s' n c :
  shadow_maps_follow sm s q s' -> q !! n = Some c ->
  shadow_map c = previous_shadow_map s q n \/
  exists l, type c = DRAW /\ light c = Some (DirectionalLightPtrOf l) /\
            shadow_map c = sm !! l.
Proof.
  intros H. revert n. induction H as [|s c0 out s' Hc _ IH]; intros n Hn; [done|].
  destruct n as [|n]; simpl in Hn.
  - by injection Hn as <-.
  - destruct (IH n Hn) as [Heq|Hdir]; [left|by right].
    rewrite Heq. by destruct n.
Qed.

Lemma encode_directional_lights_fields scn i lights ent sm cmd q :
  exists out,
    (encode_directional_lights scn i lights ent sm cmd q).2 = q ++ out /\
    Forall (fun c => type c = DRAW /\ render_pass c = render_pass cmd /\
                     material c = material cmd /\ render_entity c = render_entity cmd /\
                     light c <> None) out /\
    render_pass (encode_directional_lights scn i lights ent sm cmd q).1 = render_pass cmd /\
    shadow_maps_follow sm (shadow_map cmd) out
      (shadow_map (encode_directional_lights scn i lights ent sm cmd q).1).
Proof.
  revert i cmd q. induction lights as [|l lights IH]; intros i cmd q; simpl.
  - exists []. rewrite app_nil_r. repeat split; try done. constructor.
  - fold (directional_command scn i ent sm cmd).
    destruct (IH (S i) (directional_command scn i ent sm cmd)
                (q ++ [directional_command scn i ent sm cmd]))
      as (out & Hq & Hout & Hp & Hs).
    destruct (directional_command_fields scn i ent sm cmd) as (Ht & Hrp & Hre & Hl).
    assert (Hm : material (directional_command scn i ent sm cmd) = material cmd).
    { unfold directional_command. by destruct (receive_shadow ent). }
    assert (Hsm :
      shadow_map (directional_command scn i ent sm cmd) = shadow_map cmd \/
      exists l', type (directional_command scn i ent sm cmd) = DRAW /\
        light (directional_command scn i ent sm cmd) = Some (DirectionalLightPtrOf l') /\
        shadow_map (directional_command scn i ent sm cmd) = sm !! l').
    { unfold directional_command. destruct (receive_shadow ent); [|by left].
      right. by eexists. }
    eexists (_ :: out). rewrite Hq, <- app_assoc, Hp, Hrp. simpl.
    split; [done|]. split; [|split; [done|]].
    + constructor; [by rewrite Hl|].
      apply (Forall_impl _ _ _ Hout). intros c (?&?&?&?&?). repeat split; congruence.
    + by constructor.
Qed.

Lemma draws_with_next scn rp i m ms c :
  draws_with scn rp (S i) ms c -> draws_with scn rp i (m :: ms) c.
Proof.
  intros (Ht & Hrp & Hl & k & m' & He & Hk & Hm). repeat split; try done.
  exists (S k), m'. rewrite Nat.add_succ_r. by repeat split.
Qed.

Lemma colour_target_of_render_pass rps c c' :
  render_pass c = render_pass c' -> colour_target_of rps c = colour_target_of rps c'.
Proof. unfold colour_target_of. by intros ->. Qed.

Lemma encode_entities_materials rps scn rig lt hn hp sm i ents cmd q w :
  exists ms out,
    length ms = length ents /\
    (encode_entities rps scn rig lt hn hp sm i ents cmd q w).1.2 = q ++ out /\
    render_pass (encode_entities rps scn rig lt hn hp sm i ents cmd q w).1.1
      = render_pass cmd /\
    calls (encode_entities rps scn rig lt hn hp sm i ents cmd q w).2 =
      calls w ++
      material_calls scn (colour_target_of rps cmd) lt
        (hn && bool_decide (lt = AMBIENT)) (hp && bool_decide (lt = AMBIENT)) i ents ms /\
    pass_data_ (encode_entities rps scn rig lt hn hp sm i ents cmd q w).2 = pass_data_ w /\
    Forall (draws_with scn (render_pass cmd) i ms) out /\
    shadow_maps_follow sm (shadow_map cmd) out
      (shadow_map (encode_entities rps scn rig lt hn hp sm i ents cmd q w).1.1).
Proof.
  revert i cmd q w. induction ents as [|[rg e] ents IH]; intros i cmd q w.
  - exists [], []. simpl. rewrite !app_nil_r. repeat split; try done. constructor.
  - cbn [encode_entities]. unfold mbind, M_bind.
    destruct (create_material_spec rg (EntityAt scn i) (colour_target_of rps cmd) lt
                (hn && bool_decide (lt = AMBIENT)) (hp && bool_decide (lt = AMBIENT)) w)
      as (m & Hm & Hw).
    destruct (create_material _ _ _ _ _ _ w) as [m' w1]. simpl in Hm, Hw. subst m'.
    destruct Hw as (_ & _ & Hpd & Hcalls).
    cbv beta iota zeta.
    set (cmd1 := set_render_entity (Some (EntityAt scn i)) (set_material (Some m) cmd)).
    assert (Hdraw : forall ms c,
      type c = DRAW -> render_pass c = render_pass cmd1 ->
      material c = material cmd1 -> render_entity c = render_entity cmd1 ->
      light c <> None -> draws_with scn (render_pass cmd) i (m :: ms) c).
    { intros ms c Ht Hrp Hmat Hre Hl. repeat split; try done.
      exists 0, m. by rewrite Nat.add_0_r. }
    assert (Hstep : forall cmd2 q2 out1,
      render_pass cmd2 = render_pass cmd ->
      q2 = q ++ out1 ->
      (forall ms, Forall (draws_with scn (render_pass cmd) i (m :: ms)) out1) ->
      shadow_maps_follow sm (shadow_map cmd) out1 (shadow_map cmd2) ->
      exists ms out,
        length ms = S (length ents) /\
        (encode_entities rps scn rig lt hn hp sm (S i) ents cmd2 q2 w1).1.2 = q ++ out /\
        render_pass (encode_entities rps scn rig lt hn hp sm (S i) ents cmd2 q2 w1).1.1
          = render_pass cmd /\
        calls (encode_entities rps scn rig lt hn hp sm (S i) ents cmd2 q2 w1).2 =
          calls w ++
          material_calls scn (colour_target_of rps cmd) lt
            (hn && bool_decide (lt = AMBIENT)) (hp && bool_decide (lt = AMBIENT))
            i ((rg, e) :: ents) ms /\
        pass_data_ (encode_entities rps scn rig lt hn hp sm (S i) ents cmd2 q2 w1).2
          = pass_data_ w /\
        Forall (draws_with scn (render_pass cmd) i ms) out /\
        shadow_maps_follow sm (shadow_map cmd) out
          (shadow_map
             (encode_entities rps scn rig lt hn hp sm (S i) ents cmd2 q2 w1).1.1)).
    { intros cmd2 q2 out1 Hrp2 -> Hout1 Hsm1.
      destruct (IH (S i) cmd2 (q ++ out1) w1)
        as (ms & out & Hlen & Hq & Hp & Hc & Hpd2 & Hout & Hs).
      exists (m :: ms), (out1 ++ out). rewrite Hq, Hp, Hc, Hcalls, <- !app_assoc.
      rewrite (colour_target_of_render_pass rps cmd2 cmd Hrp2), Hrp2 in *.
      split; [by simpl; rewrite Hlen|]. split; [done|]. split; [done|].
      split; [done|]. split; [congruence|]. split.
      - apply Forall_app. split; [apply Hout1|].
        apply (Forall_impl _ _ _ Hout). intros c. apply draws_with_next.
      - by apply (shadow_maps_follow_app _ _ _ _ _ _ Hsm1). }
    destruct lt; cbv beta iota.
    + apply (Hstep _ _ [set_light (Some (AmbientLightOf scn)) (set_type DRAW cmd1)]);
        try done.
      * intros ms. constructor; [|done]. by apply Hdraw.
      * constructor; [by left|constructor].
    + destruct (encode_point_lights_fields scn 0 (point_lights rig) cmd1 q)
        as (out1 & Hq1 & Hout1 & Hp1 & Hs1).
      destruct (encode_point_lights scn 0 (point_lights rig) cmd1 q) as [cmd2 q2].
      simpl in Hq1, Hp1, Hs1.
      apply (Hstep _ _ out1); try done.
      * intros ms. apply (Forall_impl _ _ _ Hout1).
        intros c (?&?&?&?&?&?). by apply Hdraw.
      * rewrite Hs1. apply shadow_maps_follow_same.
        apply (Forall_impl _ _ _ Hout1). by intros c (_&_&_&_&Hc&_).
    + destruct (encode_directional_lights_fields scn 0 (directional_lights rig) e sm cmd1 q)
        as (out1 & Hq1 & Hout1 & Hp1 & Hs1).
      destruct (encode_directional_lights scn 0 (directional_lights rig) e sm cmd1 q)
        as [cmd2 q2].
      simpl in Hq1, Hp1, Hs1.
      apply (Hstep _ _ out1); try done.
      intros ms. apply (Forall_impl _ _ _ Hout1).
      intros c (?&?&?&?&?). by apply Hdraw.
Qed.

Lemma material_calls_requests rps i pass cmd lt k ents ms :
  render_pass cmd = Some i -> rps !! i = Some pass ->
  Forall (material_request_of pass)
    (material_calls (scene pass) (colour_target_of rps cmd) lt
       (bool_decide (normal_target pass <> None) && bool_decide (lt = AMBIENT))
       (bool_decide (position_target pass <> None) && bool_decide (lt = AMBIENT))
       k ents ms).
Proof.
  intros Hrp Hi.
  assert (Ht : colour_target_of rps cmd = colour_target pass).
  { unfold colour_target_of. rewrite Hrp. simpl. by rewrite Hi. }
  rewrite Ht. clear Ht. revert k ms.
  induction ents as [|[rg e] ents IH]; intros k [|m ms]; simpl; try done.
  constructor; [|apply IH]. simpl. split; [done|]. split; [by eexists|].
  split; intros [H1 H2]%andb_prop; apply bool_decide_eq_true_1 in H1, H2; done.
Qed.

Lemma material_calls_lookup scn target lt nn np i ents ms k rg e m :
  ents !! k = Some (rg, e) -> ms !! k = Some m ->
  material_calls scn target lt nn np i ents ms !! k =
    Some (CreateMaterial rg (EntityAt scn (i + k)) target lt nn np m).
Proof.
  revert i ms k. induction ents as [|[rg' e'] ents IH]; intros i [|m' ms] [|k] He Hm;
    simpl in *; try done.
  - injection He as -> ->. injection Hm as ->. by rewrite Nat.add_0_r.
  - rewrite (IH (S i) ms k He Hm). by rewrite Nat.add_succ_r.
Qed.

Lemma draws_with_material scn i target lt nn np ents ms c :
  length ms = length ents ->
  draws_with scn (Some i) 0 ms c ->
  draws_material_of (material_calls scn target lt nn np 0 ents ms) c.
Proof.
  intros Hlen (Ht & Hrp & Hl & k & m & He & Hk & Hm).
  destruct (lookup_lt_is_Some_2 ents k) as [[rg e] Hek].
  { rewrite <- Hlen. by eapply lookup_lt_Some. }
  split; [done|]. split; [by rewrite Hrp|]. split; [done|].
  exists rg, (EntityAt scn (0 + k)), target, lt, nn, np, m.
  split; [done|]. split; [done|].
  eapply list_elem_of_lookup_2. by apply (material_calls_lookup _ _ _ _ _ _ _ _ _ _ e).
Qed.

Lemma draws_material_of_weaken new new' c :
  (forall x, x ∈ new -> x ∈ new') -> draws_material_of new c -> draws_material_of new' c.
Proof.
  intros Hsub (Ht & Hrp & Hl & rg & e & target & lt & nn & np & m & He & Hm & Hin).
  split; [done|]. split; [done|]. split; [done|].
  exists rg, e, target, lt, nn, np, m. split; [done|]. split; [done|]. by apply Hsub.
Qed.

Lemma encodes_draws_ret rps i pass sm :
  encodes_draws rps i pass sm (fun cmd q => mret (cmd, q)).
Proof.
  intros cmd q w Hrp. exists [], []. simpl. rewrite !app_nil_r.
  repeat split; try done. constructor.
Qed.

Lemma length_pass_data_update_scene_in p f w :
  length (pass_data_ (update_scene_in p f w)) = length (pass_data_ w).
Proof. destruct p; simpl; [done|]. by rewrite length_alter. Qed.

Lemma encodes_draws_bind rps i pass sm f g :
  encodes_draws rps i pass sm f -> encodes_draws rps i pass sm g ->
  encodes_draws rps i pass sm (fun cmd q => '(cmd, q) ← f cmd q; g cmd q).
Proof.
  intros Hf Hg cmd q w Hrp. unfold mbind, M_bind.
  destruct (Hf cmd q w Hrp) as (out1 & new1 & Hq1 & Hp1 & Hc1 & Hl1 & Hd1 & Hn1 & Hs1).
  destruct (f cmd q w) as [[cmd1 q1] w1]. simpl in Hq1, Hp1, Hc1, Hl1, Hs1. subst q1.
  destruct (Hg cmd1 (q ++ out1) w1 Hp1)
    as (out2 & new2 & Hq2 & Hp2 & Hc2 & Hl2 & Hd2 & Hn2 & Hs2).
  exists (out1 ++ out2), (new1 ++ new2). rewrite Hq2, Hp2, Hc2, Hc1, <- !app_assoc.
  split; [done|]. split; [done|]. split; [done|]. split; [congruence|].
  split; [|split; [by apply Forall_app|by apply (shadow_maps_follow_app _ _ _ _ _ _ Hs1)]].
  apply Forall_app. split.
  - apply (Forall_impl _ _ _ Hd1). intros c. apply draws_material_of_weaken.
    intros x Hx. apply elem_of_app. by left.
  - apply (Forall_impl _ _ _ Hd2). intros c. apply draws_material_of_weaken.
    intros x Hx. apply elem_of_app. by right.
Qed.

Lemma encode_light_pass_commands_draws rps i pass sm lt :
  rps !! i = Some pass ->
  encodes_draws rps i pass sm (fun cmd q =>
    encode_light_pass_commands rps (scene pass) lt
      (bool_decide (normal_target pass <> None))
      (bool_decide (position_target pass <> None)) cmd q sm).
Proof.
  intros Hi cmd q w Hrp. unfold encode_light_pass_commands, mbind, M_bind, get_world.
  destruct (encode_entities_materials rps (scene pass)
              (lighting_rig (get_scene w (scene pass))) lt
              (bool_decide (normal_target pass <> None))
              (bool_decide (position_target pass <> None)) sm 0
              (entities (get_scene w (scene pass))) cmd q w)
    as (ms & out & Hlen & Hq & Hp & Hc & Hpd & Hout & Hs).
  eexists out, _. split; [exact Hq|]. split; [by rewrite Hp|]. split; [exact Hc|].
  split; [by rewrite Hpd|]. split; [|split; [by apply (material_calls_requests rps i)|exact Hs]].
  apply (Forall_impl _ _ _ Hout). intros c. rewrite Hrp. by apply draws_with_material.
Qed.

Lemma encode_ambient_draws rps i pass sm :
  rps !! i = Some pass ->
  encodes_draws rps i pass sm (fun cmd q => encode_ambient rps pass cmd q sm).
Proof.
  intros Hi. unfold encode_ambient.
  destruct (ambient_occlusion (post_processing_description pass)).
  - apply encodes_draws_ret.
  - by apply encode_light_pass_commands_draws.
Qed.

Lemma encode_point_draws rps i pass sm :
  rps !! i = Some pass ->
  encodes_draws rps i pass sm (fun cmd q => encode_point rps pass cmd q sm).
Proof.
  intros Hi cmd q w Hrp. unfold encode_point, mbind, M_bind, get_world.
  destruct (bool_decide _).
  - by apply (encodes_draws_ret rps i pass sm).
  - by apply (encode_light_pass_commands_draws rps i pass sm POINT).
Qed.

Lemma encode_directional_draws rps i pass sm :
  rps !! i = Some pass ->
  encodes_draws rps i pass sm (fun cmd q => encode_directional rps pass cmd q sm).
Proof.
  intros Hi cmd q w Hrp. unfold encode_directional, mbind, M_bind, get_world.
  destruct (bool_decide _).
  - by apply (encodes_draws_ret rps i pass sm).
  - by apply (encode_light_pass_commands_draws rps i pass sm DIRECTIONAL).
Qed.

Lemma encode_sky_box_command rps pass sky cmd q w :
  exists rg k m,
    (encode_sky_box rps pass sky cmd q w).1.1 =
      set_light (Some (AmbientLightOf (scene pass)))
        (set_type DRAW
           (set_render_entity (Some (EntityAt (scene pass) k))
              (set_material (Some m) cmd))) /\
    (encode_sky_box rps pass sky cmd q w).1.2 =
      q ++ [(encode_sky_box rps pass sky cmd q w).1.1] /\
    calls (encode_sky_box rps pass sky cmd q w).2 =
      calls w ++ [CreateMaterial rg (EntityAt (scene pass) k)
                    (colour_target_of rps cmd) AMBIENT false false m] /\
    length (pass_data_ (encode_sky_box rps pass sky cmd q w).2) = length (pass_data_ w).
Proof.
  unfold encode_sky_box, create_render_graph, create_entity,
    update_render_graph, update_scene, mbind, M_bind, get_world, mret, M_ret.
  match goal with
  | |- context [create_material ?rg ?e ?t ?lt ?nn ?np ?w3] =>
      destruct (create_material_spec rg e t lt nn np w3) as (m & Hm & Hw);
      destruct (create_material rg e t lt nn np w3) as [m' w4] eqn:E;
      pose proof (update_scene_in_frame) as Hframe
  end.
  simpl in Hm, Hw. subst m'. destruct Hw as (_ & _ & Hp4 & Hl4).
  eexists _, _, m. simpl. split; [done|]. split; [done|].
  rewrite Hl4, Hp4, !length_pass_data_update_scene_in. split; [|done]. f_equal.
  repeat match goal with
  | |- context [calls (update_scene_in ?p ?f ?w0)] =>
      let H := fresh in
      destruct (update_scene_in_frame p f w0) as (_ & _ & H); rewrite H; clear H
  end.
  done.
Qed.

Lemma encode_sky_draws rps i pass sm :
  rps !! i = Some pass ->
  encodes_draws rps i pass sm (fun cmd q => encode_sky rps pass cmd q).
Proof.
  intros Hi. unfold encode_sky. destruct (sky_box pass) as [sky|];
    [|apply encodes_draws_ret].
  intros cmd q w Hrp.
  destruct (encode_sky_box_command rps pass sky cmd q w)
    as (rg & k & m & Hcmd & Hq & Hc & Hlen).
  eexists [_], [_]. split; [exact Hq|]. rewrite Hc, Hcmd. simpl.
  split; [done|]. split; [done|]. split; [done|]. split.
  - constructor; [|done]. split; [done|]. split; [simpl; by rewrite Hrp|].
    split; [done|]. eexists _, _, _, _, _, _, _. split; [done|]. split; [done|]. apply list_elem_of_here.
  - split.
    + constructor; [|done]. simpl.
      assert (Ht : colour_target_of rps cmd = colour_target pass).
      { unfold colour_target_of. rewrite Hrp. simpl. by rewrite Hi. }
      rewrite Ht. split; [done|]. split; [by eexists|]. by split.
    + constructor; [by left|constructor].
Qed.

Lemma encode_pass_commands rps i pass cmd q sm w :
  rps !! i = Some pass ->
  exists out new,
    (encode_pass rps i pass cmd q sm w).1.2 = q ++ out /\
    calls (encode_pass rps i pass cmd q sm w).2 = calls w ++ new /\
    length (pass_data_ (encode_pass rps i pass cmd q sm w).2) = length (pass_data_ w) /\
    Forall (command_complete new) out /\
    Forall (material_request_of pass) new /\
    shadow_maps_follow sm (shadow_map cmd) out
      (shadow_map (encode_pass rps i pass cmd q sm w).1.1).
Proof.
  intros Hi.
  pose proof (encodes_draws_bind rps i pass sm _ _
    (encode_ambient_draws rps i pass sm Hi)
    (if depth_only pass as b return
        encodes_draws rps i pass sm (fun cmd q =>
          if b then mret (cmd, q)
          else '(cmd, q) ← encode_point rps pass cmd q sm;
               '(cmd, q) ← encode_directional rps pass cmd q sm;
               encode_sky rps pass cmd q)
     then encodes_draws_ret rps i pass sm
     else encodes_draws_bind rps i pass sm _ _
            (encode_point_draws rps i pass sm Hi)
            (encodes_draws_bind rps i pass sm _ _
               (encode_directional_draws rps i pass sm Hi)
               (encode_sky_draws rps i pass sm Hi)))) as Hbody.
  set (cmd0 := set_type PASS_START (set_render_pass (Some i) cmd)).
  destruct (Hbody cmd0 (q ++ [cmd0]) w eq_refl)
    as (out & new & Hq & Hp & Hc & Hlen & Hd & Hn & Hs).
  unfold encode_pass. fold cmd0. unfold mbind, M_bind, mret, M_ret in *.
  destruct (encode_ambient rps pass cmd0 (q ++ [cmd0]) sm w) as [[cmd1 q1] w1].
  match goal with
  | |- context [let (x, w') := ?body in _] => destruct body as [[cmd2 q2] w2]
  end.
  simpl in Hq, Hp, Hc, Hlen, Hs. subst q2.
  exists (cmd0 :: out ++ [set_type PASS_END cmd2]), new. simpl.
  split; [by rewrite <- !app_assoc|]. split; [done|]. split; [done|]. split.
  - constructor; [done|]. apply Forall_app. split; [|by constructor].
    apply (Forall_impl _ _ _ Hd). by intros c Hdraw _.
  - split; [done|]. constructor; [by left|].
    apply (shadow_maps_follow_app _ _ _ _ _ _ Hs).
    constructor; [by left|constructor].
Qed.

Lemma encode_passes_commands rps i passes cmd q sm w :
  drop i rps = passes ->
  exists out new,
    (encode_passes rps i passes cmd q sm w).1.2 = q ++ out /\
    calls (encode_passes rps i passes cmd q sm w).2 = calls w ++ new /\
    length (pass_data_ (encode_passes rps i passes cmd q sm w).2) = length (pass_data_ w) /\
    Forall (command_complete new) out /\
    Forall (material_request_in rps) new /\
    shadow_maps_follow sm (shadow_map cmd) out
      (shadow_map (encode_passes rps i passes cmd q sm w).1.1).
Proof.
  revert i cmd q w. induction passes as [|pass passes IH]; intros i cmd q w Hdrop.
  - exists [], []. simpl. rewrite !app_nil_r. repeat split; try done. constructor.
  - assert (Hi : rps !! i = Some pass).
    { rewrite <- (Nat.add_0_r i), <- lookup_drop, Hdrop. done. }
    assert (Hdrop' : drop (S i) rps = passes).
    { rewrite (drop_S _ _ _ Hi) in Hdrop. by injection Hdrop. }
    cbn [encode_passes]. unfold mbind, M_bind.
    destruct (encode_pass_commands rps i pass cmd q sm w Hi)
      as (out1 & new1 & Hq1 & Hc1 & Hl1 & Hd1 & Hn1 & Hs1).
    destruct (encode_pass rps i pass cmd q sm w) as [[cmd1 q1] w1].
    simpl in Hq1, Hc1, Hl1, Hs1. subst q1.
    destruct (IH (S i) cmd1 (q ++ out1) w1 Hdrop')
      as (out2 & new2 & Hq2 & Hc2 & Hl2 & Hd2 & Hn2 & Hs2).
    exists (out1 ++ out2), (new1 ++ new2). rewrite Hq2, Hc2, Hc1, <- !app_assoc.
    split; [done|]. split; [done|]. split; [congruence|]. split.
    { apply Forall_app. split.
      - apply (Forall_impl _ _ _ Hd1). intros c Hdraw Ht.
        apply (draws_material_of_weaken new1); [|by apply Hdraw].
        intros x Hx. apply elem_of_app. by left.
      - apply (Forall_impl _ _ _ Hd2). intros c Hdraw Ht.
        apply (draws_material_of_weaken new2); [|by apply Hdraw].
        intros x Hx. apply elem_of_app. by right. }
    split.
    + apply Forall_app. split; [|done].
      apply (Forall_impl _ _ _ Hn1). intros c Hc. by exists i, pass.
    + by apply (shadow_maps_follow_app _ _ _ _ _ _ Hs1).
Qed.

Lemma build_commands render_passes w :
  exists new,
    calls (build render_passes w).2 = calls (build_passes render_passes w).2 ++ new /\
    length (pass_data_ (build render_passes w).2) =
      length (pass_data_ (build_passes render_passes w).2) /\
    Forall (material_request_in (build render_passes w).1.2) new /\
    Forall (command_complete new) (build render_passes w).1.1 /\
    Forall (fun c => from_table (build_passes render_passes w).1.2 (shadow_map c))
      (build render_passes w).1.1 /\
    exists s, shadow_maps_follow (build_passes render_passes w).1.2 None
                (build render_passes w).1.1 s.
Proof.
  unfold build, mbind, M_bind, mret, M_ret.
  destruct (build_passes render_passes w) as [[rps sm] w1].
  destruct (encode_passes_commands rps 0 rps empty_command [] sm w1 eq_refl)
    as (out & new & Hq & Hc & Hl & Hd & Hn & Hs).
  destruct (encode_passes rps 0 rps empty_command [] sm w1) as [[cmd q] w2].
  simpl in Hq, Hc, Hl, Hs. subst q. simpl.
  assert (Hs' : shadow_maps_follow sm None (out ++ [set_type PRESENT cmd]) (shadow_map cmd)).
  { apply (shadow_maps_follow_app _ _ _ _ _ _ Hs). constructor; [by left|constructor]. }
  destruct (shadow_maps_follow_from_table _ _ _ _ Hs') as [H1 H2]; [done|].
  exists new. split; [done|]. split; [done|]. split; [done|].
  split; [|split; [done|by eexists]].
  apply Forall_app. split; [done|]. by constructor.
Qed.

(** ** What the first two loops of [build] do to the memory *)

Lemma add_pre_process_passes_of_shape pass pre sm w :
  exists rts ao_passes data ao_calls,
    length rts =
      length (casting_from 0 (directional_lights (lighting_rig (get_scene w (scene pass))))) /\
    (add_pre_process_passes_of pass pre sm w).1.1.2 =
      pre ++
      zip_with (shadow_pass pass)
        (casting_from 0 (directional_lights (lighting_rig (get_scene w (scene pass)))))
        rts ++
      ao_passes /\
    (forall n j rt,
       casting_from 0 (directional_lights (lighting_rig (get_scene w (scene pass)))) !! n
         = Some j ->
       rts !! n = Some rt ->
       (add_pre_process_passes_of pass pre sm w).1.2
         !! DirectionalLightAt (scene pass) j = Some rt) /\
    (forall k,
       (forall j,
          j ∈ casting_from 0 (directional_lights (lighting_rig (get_scene w (scene pass)))) ->
          k <> DirectionalLightAt (scene pass) j) ->
       (add_pre_process_passes_of pass pre sm w).1.2 !! k = sm !! k) /\
    scene (add_pre_process_passes_of pass pre sm w).1.1.1 = scene pass /\
    camera (add_pre_process_passes_of pass pre sm w).1.1.1 = camera pass /\
    post_processing_description (add_pre_process_passes_of pass pre sm w).1.1.1
      = post_processing_description pass /\
    pass_data_ (add_pre_process_passes_of pass pre sm w).2 = pass_data_ w ++ data /\
    calls (add_pre_process_passes_of pass pre sm w).2 =
      calls w ++ map (CreateRenderTarget 1024 1024) rts ++ ao_calls /\
    scenes (add_pre_process_passes_of pass pre sm w).2 = scenes w /\
    cameras (add_pre_process_passes_of pass pre sm w).2 = cameras w /\
    match ambient_occlusion (post_processing_description pass) with
    | None => ao_passes = [] /\ data = [] /\ ao_calls = []
    | Some _ =>
        length data = 1 /\
        exists normal position input hybrid,
          ao_passes =
            ambient_occlusion_passes pass (length (pass_data_ w)) normal position input /\
          ao_calls =
            [CreateRenderTarget width_ height_ normal;
             CreateRenderTarget width_ height_ position;
             CreateRenderTarget width_ height_ input;
             CreateHybridRenderTarget (colour_target pass) (Some input) hybrid]
    end.
Proof.
  unfold add_pre_process_passes_of, mbind, M_bind, mret, M_ret, get_world.
  destruct (add_shadow_passes_spec pass 0
              (directional_lights (lighting_rig (get_scene w (scene pass)))) pre sm w)
    as (rts & Hlen & Hpre & Hw & Hin & Hout).
  destruct (add_shadow_passes pass 0 _ pre sm w) as [[pre1 sm1] w1].
  simpl in Hpre, Hw, Hin, Hout. subst pre1.
  destruct Hw as (Hs1 & Hc1 & Hp1 & Hl1).
  destruct (ambient_occlusion (post_processing_description pass)) as [ssao|].
  - destruct (add_ambient_occlusion_passes_spec ssao pass
                (pre ++ zip_with (shadow_pass pass)
                   (casting_from 0
                      (directional_lights (lighting_rig (get_scene w (scene pass))))) rts) w1)
      as (normal & position & input & hybrid & w2 & Hrun & Hpd & Hl & Hs & Hc).
    rewrite Hrun. simpl.
    eexists rts, _, _, _. split; [done|]. split; [by rewrite <- app_assoc|].
    split; [done|]. split; [done|]. split; [done|]. split; [done|]. split; [done|].
    split; [by rewrite Hpd, Hp1|]. split; [by rewrite Hl, Hl1, <- app_assoc|].
    split; [congruence|]. split; [congruence|]. split; [done|].
    exists normal, position, input, hybrid. by rewrite Hp1.
  - exists rts, [], [], []. simpl. rewrite !app_nil_r. by repeat split.
Qed.

Lemma casting_from_lookup i lights j :
  j ∈ casting_from i lights ->
  i <= j /\ casts_shadows <$> lights !! (j - i) = Some true.
Proof.
  revert i. induction lights as [|l lights IH]; intros i Hj; simpl in Hj.
  - by apply elem_of_nil in Hj.
  - apply elem_of_app in Hj as [Hj|Hj].
    + destruct (casts_shadows l) eqn:Hl; [|by apply elem_of_nil in Hj].
      apply list_elem_of_singleton in Hj. subst j. rewrite Nat.sub_diag. simpl.
      by rewrite Hl.
    + apply IH in Hj as [Hle Hj]. split; [lia|].
      replace (j - i) with (S (j - S i)) by lia. done.
Qed.

Lemma points_below_same n p p' :
  scene p' = scene p -> camera p' = camera p -> points_below n p -> points_below n p'.
Proof. unfold points_below, pass_data_refs. by intros -> ->. Qed.

Lemma points_below_mono n n' p : n <= n' -> points_below n p -> points_below n' p.
Proof.
  intros Hn H. apply (Forall_impl _ _ _ H). intros j Hj. simpl in Hj. lia.
Qed.

Lemma points_below_shadow_pass n pass j rt :
  points_below n pass -> points_below n (shadow_pass pass j rt).
Proof.
  unfold points_below, pass_data_refs. simpl. intros H.
  apply Forall_app in H as [H _]. apply Forall_app. split; [done|].
  by destruct (scene pass).
Qed.

Lemma points_below_new_render_pass n m :
  m < n -> points_below n (new_render_pass (PassDataScene m) (PassDataCamera m)).
Proof. intros H. unfold points_below. simpl. by repeat constructor. Qed.

Lemma table_backed_step sc Q pass pre sm w :
  scenes w = sc -> Q pass -> table_backed sc Q pre sm ->
  table_backed sc Q (add_pre_process_passes_of pass pre sm w).1.1.2
    (add_pre_process_passes_of pass pre sm w).1.2.
Proof.
  intros Hsc HQ Hinv.
  destruct (add_pre_process_passes_of_shape pass pre sm w)
    as (rts & ao & data & ao_calls & Hlen & Hpre & Hin & Hout & _).
  rewrite Hpre. intros l rt Hl.
  set (casting := casting_from 0
         (directional_lights (lighting_rig (get_scene w (scene pass))))) in *.
  destruct l as [s j].
  destruct (decide (s = scene pass /\ j ∈ casting)) as [[-> Hj]|Hne].
  - apply list_elem_of_lookup in Hj as [n Hn].
    destruct (lookup_lt_is_Some_2 rts n) as [rt' Hrt'].
    { rewrite Hlen. by eapply lookup_lt_Some. }
    rewrite (Hin n j rt' Hn Hrt') in Hl. injection Hl as <-.
    exists (length pre + n), pass, j. split; [done|]. split; [done|]. split.
    + rewrite lookup_app_r by lia. rewrite Nat.add_comm, Nat.add_sub.
      apply lookup_app_l_Some. rewrite lookup_zip_with, Hn. simpl. by rewrite Hrt'.
    + intros a Ha. assert (Hj : j ∈ casting) by (by eapply list_elem_of_lookup_2).
      apply casting_from_lookup in Hj as [_ Hj]. rewrite Nat.sub_0_r in Hj.
      rewrite Ha in Hj. simpl in Hj. by rewrite <- Hsc.
  - rewrite Hout in Hl.
    + destruct (Hinv _ _ Hl) as (n & pass' & j' & HQ' & Heq & Hn & Hcast).
      exists n, pass', j'. split; [done|]. split; [done|]. split; [|done].
      by apply lookup_app_l_Some.
    + intros j' Hj' Heq. injection Heq as -> ->. by apply Hne.
Qed.

Lemma add_pre_process_passes_effects passes pre sm w :
  exists new_pre data new,
    (add_pre_process_passes passes pre sm w).1.1.2 = pre ++ new_pre /\
    Forall (fun p => post_processing_description p = no_post_processing) new_pre /\
    Forall2 same_view passes (add_pre_process_passes passes pre sm w).1.1.1 /\
    pass_data_ (add_pre_process_passes passes pre sm w).2 = pass_data_ w ++ data /\
    length data =
      sum_list_with (fun p => match ambient_occlusion (post_processing_description p) with
                               | Some _ => 1 | None => 0 end) passes /\
    calls (add_pre_process_passes passes pre sm w).2 = calls w ++ new /\
    Forall target_request new /\
    (forall Q, Forall Q passes -> table_backed (scenes w) Q pre sm ->
       table_backed (scenes w) Q (add_pre_process_passes passes pre sm w).1.1.2
         (add_pre_process_passes passes pre sm w).1.2) /\
    (Forall (points_below (length (pass_data_ w))) passes ->
     Forall (points_below (length (pass_data_ (add_pre_process_passes passes pre sm w).2)))
       (new_pre ++ (add_pre_process_passes passes pre sm w).1.1.1)).
Proof.
  revert pre sm w. induction passes as [|pass passes IH]; intros pre sm w; simpl.
  - exists [], [], []. rewrite !app_nil_r. by repeat split.
  - unfold mbind, M_bind, mret, M_ret.
    pose proof (fun Q => table_backed_step (scenes w) Q pass pre sm w eq_refl) as Htab.
    destruct (add_pre_process_passes_of_shape pass pre sm w)
      as (rts & ao & data1 & ao_calls & Hlen & Hpre & _ & _ & Hsc & Hcam & Hppd
          & Hpd & Hcalls & Hscenes & _ & Hao).
    set (casting := casting_from 0
           (directional_lights (lighting_rig (get_scene w (scene pass))))) in *.
    destruct (add_pre_process_passes_of pass pre sm w) as [[[pass1 pre1] sm1] w1].
    simpl in Hpre, Hsc, Hcam, Hppd, Hpd, Hcalls, Hscenes, Htab. subst pre1.
    destruct (IH (pre ++ zip_with (shadow_pass pass) casting rts ++ ao) sm1 w1)
      as (new_pre & data2 & new2 & Hpre2 & Hplain & Hsame & Hpd2 & Hd2 & Hcalls2 & Hreq2
          & Htab2 & Hval2).
    destruct (add_pre_process_passes passes _ sm1 w1) as [[[rest pre2] sm2] w2].
    simpl in Hpre2, Hsame, Hpd2, Hcalls2, Htab2, Hval2. simpl. subst pre2.
    assert (Hdata1 : length data1 =
              match ambient_occlusion (post_processing_description pass) with
              | Some _ => 1 | None => 0 end).
    { destruct (ambient_occlusion (post_processing_description pass)).
      - by destruct Hao.
      - by destruct Hao as (_ & -> & _). }
    assert (Hao_plain : Forall (fun p => post_processing_description p = no_post_processing) ao).
    { destruct (ambient_occlusion (post_processing_description pass)).
      - destruct Hao as (_ & n & p & i & h & -> & _). by repeat constructor.
      - by destruct Hao as (-> & _). }
    assert (Hao_calls : Forall target_request ao_calls).
    { destruct (ambient_occlusion (post_processing_description pass)).
      - destruct Hao as (_ & n & p & i & h & _ & ->).
        repeat constructor; simpl; by right.
      - by destruct Hao as (_ & _ & ->). }
    assert (Hao_valid : points_below (length (pass_data_ w)) pass ->
              Forall (points_below (length (pass_data_ w1))) ao).
    { intros Hv. destruct (ambient_occlusion (post_processing_description pass)).
      - destruct Hao as (Hd1 & n & p & i & h & -> & _).
        rewrite Hpd, length_app, Hd1. constructor.
        + apply (points_below_mono (length (pass_data_ w))); [lia|].
          by apply (points_below_same _ pass).
        + constructor; [|done].
          apply (points_below_same _
                   (new_render_pass (PassDataScene (length (pass_data_ w)))
                      (PassDataCamera (length (pass_data_ w))))); try done.
          apply points_below_new_render_pass. lia.
      - by destruct Hao as (-> & _). }
    exists (zip_with (shadow_pass pass) casting rts ++ ao ++ new_pre),
      (data1 ++ data2), (map (CreateRenderTarget 1024 1024) rts ++ ao_calls ++ new2).
    split; [by rewrite <- !app_assoc|]. split.
    { rewrite !Forall_app. split; [|by split].
      clear. generalize casting. intros js. revert rts.
      induction js as [|j js IHj]; intros [|rt rts]; simpl; try done.
      constructor; [done|apply IHj]. }
    split; [by constructor|]. split; [by rewrite Hpd2, Hpd, <- app_assoc|].
    split; [rewrite length_app, Hd2, Hdata1; done|].
    split; [by rewrite Hcalls2, Hcalls, <- !app_assoc|]. split.
    { rewrite !Forall_app. split; [|by split].
      apply Forall_fmap, Forall_forall. intros rt _. simpl. by left. }
    split.
    { intros Q HQ Hinv. inversion HQ as [|? ? HQ1 HQ2]; subst.
      rewrite <- Hscenes. apply Htab2; [done|]. rewrite Hscenes. by apply Htab. }
    intros Hv. inversion Hv as [|? ? Hv1 Hv2]; subst.
    assert (Hle1 : length (pass_data_ w) <= length (pass_data_ w1)).
    { rewrite Hpd, length_app. lia. }
    assert (Hle2 : length (pass_data_ w1) <= length (pass_data_ w2)).
    { rewrite Hpd2, length_app. lia. }
    assert (Hv2' : Forall (points_below (length (pass_data_ w1))) passes).
    { apply (Forall_impl _ _ _ Hv2). intros p. by apply points_below_mono. }
    specialize (Hval2 Hv2'). apply Forall_app in Hval2 as [Hn Hr].
    rewrite <- !app_assoc, !Forall_app. split; [|split; [|split; [done|]]].
    + apply Forall_forall. intros p Hp.
      apply list_elem_of_lookup in Hp as [n Hp].
      rewrite lookup_zip_with in Hp.
      destruct (casting !! n) as [j|]; [|done]. simpl in Hp.
      destruct (rts !! n) as [rt|]; [|done]. injection Hp as <-.
      apply points_below_shadow_pass.
      apply (points_below_mono (length (pass_data_ w))); [lia|done].
    + apply (Forall_impl _ _ _ (Hao_valid Hv1)). intros p. by apply points_below_mono.
    + constructor; [|done].
      apply (points_below_mono (length (pass_data_ w))); [lia|].
      by apply (points_below_same _ pass).
Qed.

Lemma chain_points_below n y m ts :
  points_below n y -> m + length ts <= n -> Forall (points_below n) (chain y m ts).
Proof.
  revert y m. induction ts as [|t ts IH]; intros y m Hy Hn; simpl in *.
  - by constructor.
  - constructor; [by apply (points_below_same _ y)|].
    apply IH; [apply points_below_new_render_pass|]; lia.
Qed.

Lemma Forall_update_back {A} (P : A -> Prop) (f : A -> A) (l : list A) :
  (forall x, P x -> P (f x)) -> Forall P l -> Forall P (update_back f l).
Proof.
  intros Hf Hl. destruct l as [|x l]; [done|].
  destruct (update_back_last f (x :: l)) as (l' & y & Heq & ->); [done|].
  rewrite Heq in Hl. apply Forall_app in Hl as [Hl Hy]. apply Forall_app.
  split; [done|]. constructor; [|done]. apply Hf. by inversion Hy.
Qed.

Lemma add_post_processing_passes_effects passes rps w :
  exists data ts,
    pass_data_ (add_post_processing_passes passes rps w).2 = pass_data_ w ++ data /\
    length data = sum_list_with (fun p => stage_count (post_processing_description p)) passes /\
    length ts = length data /\
    calls (add_post_processing_passes passes rps w).2 =
      calls w ++ map (CreateRenderTarget width_ height_) ts /\
    (Forall (points_below (length (pass_data_ w))) (rps ++ passes) ->
     Forall (points_below (length (pass_data_ (add_post_processing_passes passes rps w).2)))
       (add_post_processing_passes passes rps w).1).
Proof.
  revert rps w. induction passes as [|pass passes IH]; intros rps w; simpl.
  - exists [], []. rewrite !app_nil_r. by repeat split.
  - unfold mbind, M_bind.
    destruct (post_process_pass_stages pass rps w)
      as (ts1 & data1 & w1 & -> & Ht1 & Hd1 & Hp1 & Hc1 & _).
    destruct (IH (rps ++ update_back (with_colour_target (colour_target pass))
                           (chain pass (length (pass_data_ w)) ts1)) w1)
      as (data2 & ts2 & Hp2 & Hd2 & Ht2 & Hc2 & Hv2).
    exists (data1 ++ data2), (ts1 ++ ts2).
    split; [by rewrite Hp2, Hp1, <- app_assoc|].
    split; [by rewrite length_app, Hd1, Hd2|].
    split; [rewrite !length_app; lia|].
    split; [by rewrite Hc2, Hc1, map_app, <- app_assoc|].
    intros Hv. apply Hv2. apply Forall_app in Hv as [Hr Hv].
    inversion Hv as [|? ? Hpass Hrest]; subst.
    assert (Hle : length (pass_data_ w) <= length (pass_data_ w1)).
    { rewrite Hp1, length_app. lia. }
    rewrite <- app_assoc, !Forall_app. split; [|split].
    + apply (Forall_impl _ _ _ Hr). intros p. by apply points_below_mono.
    + apply Forall_update_back.
      * intros x. by apply points_below_same.
      * apply chain_points_below.
        -- by apply (points_below_mono (length (pass_data_ w))).
        -- rewrite Hp1, length_app, Hd1, Ht1. lia.
    + apply (Forall_impl _ _ _ Hrest). intros p. by apply points_below_mono.
Qed.

Lemma sum_list_same_view (f : PostProcessingDescription -> nat) l l' :
  Forall2 same_view l l' ->
  sum_list_with (fun p => f (post_processing_description p)) l' =
  sum_list_with (fun p => f (post_processing_description p)) l.
Proof.
  induction 1 as [|p p' l l' (_ & _ & Hp) _ IH]; simpl; [done|]. by rewrite Hp, IH.
Qed.

Lemma build_passes_effects render_passes w :
  exists data new,
    pass_data_ (build_passes render_passes w).2 = pass_data_ w ++ data /\
    length data = sum_list_with helper_count render_passes /\
    calls (build_passes render_passes w).2 = calls w ++ new /\
    Forall target_request new /\
    table_backed (scenes w) (fun p => p ∈ render_passes)
      (build_passes render_passes w).1.1 (build_passes render_passes w).1.2 /\
    (Forall (points_below (length (pass_data_ w))) render_passes ->
     Forall (points_below (length (pass_data_ (build_passes render_passes w).2)))
       (build_passes render_passes w).1.1).
Proof.
  destruct (build_passes_order render_passes w)
    as (pre0 & init0 & expansions & Hfinal & Hpre0 & _).
  revert Hfinal Hpre0.
  unfold build_passes, mbind, M_bind, mret, M_ret.
  destruct (add_pre_process_passes_effects render_passes [] ∅ w)
    as (pre & data1 & new1 & Hpre & Hplain & Hsame & Hpd1 & Hd1 & Hc1 & Hreq1 & Htab & Hv1).
  destruct (add_pre_process_passes render_passes [] ∅ w) as [[[init pre'] sm] w1].
  simpl in Hpre, Hsame, Hpd1, Hc1, Htab, Hv1. subst pre'.
  destruct (add_post_processing_passes_effects (pre ++ init) [] w1)
    as (data2 & ts & Hpd2 & Hd2 & Hts & Hc2 & Hv2).
  destruct (add_post_processing_passes (pre ++ init) [] w1) as [rps w2].
  simpl in Hpd2, Hc2, Hv2. simpl. intros Hfinal ->.
  exists (data1 ++ data2), (new1 ++ map (CreateRenderTarget width_ height_) ts).
  split; [by rewrite Hpd2, Hpd1, <- app_assoc|]. split.
  { rewrite length_app, Hd1, Hd2, sum_list_with_app.
    assert (Hzero : sum_list_with (fun p => stage_count (post_processing_description p)) pre
                    = 0).
    { clear - Hplain. induction Hplain as [|p pre Hp _ IH]; simpl; [done|].
      by rewrite Hp, IH. }
    rewrite Hzero, (sum_list_same_view stage_count _ _ Hsame). simpl.
    clear. induction render_passes as [|p l IH]; simpl; [done|].
    unfold helper_count at 1. lia. }
  split; [by rewrite Hc2, Hc1, <- app_assoc|]. split.
  { apply Forall_app. split; [done|].
    apply Forall_fmap, Forall_forall. intros rt _. simpl. by right. }
  split.
  { intros l rt Hl.
    assert (Hall : Forall (fun p => p ∈ render_passes) render_passes)
      by (by apply Forall_forall).
    assert (Hempty : table_backed (scenes w) (fun p => p ∈ render_passes) [] ∅).
    { intros l' rt' Hl'. by rewrite lookup_empty in Hl'. }
    destruct (Htab _ Hall Hempty l rt Hl) as (n & pass & j & HQ & Heq & Hn & Hcast).
    exists n, pass, j. split; [done|]. split; [done|]. split; [|done].
    rewrite Hfinal. by apply lookup_app_l_Some. }
  intros Hv. apply Hv2. simpl. by apply Hv1.
Qed.

(** ** Further properties of [build] *)

Lemma build_deque render_passes w :
  (build render_passes w).1.2 = (build_passes render_passes w).1.1.
Proof.
  unfold build, mbind, M_bind, mret, M_ret.
  destruct (build_passes render_passes w) as [[rps sm] w1].
  by destruct (encode_passes rps 0 rps empty_command [] sm w1) as [[cmd q] w2].
Qed.

Lemma add_shadow_passes_none pass i lights pre sm w :
  Forall (fun l => casts_shadows l = false) lights ->
  add_shadow_passes pass i lights pre sm w = (pre, sm, w).
Proof.
  intros H. revert i. induction H as [|l lights Hl _ IH]; intros i; [done|].
  cbn [add_shadow_passes]. unfold mbind, M_bind, mret, M_ret. rewrite Hl. apply IH.
Qed.

Lemma post_process_pass_plain render_pass rps w :
  post_processing_description render_pass = no_post_processing ->
  post_process_pass render_pass rps w = (rps ++ [render_pass], w).
Proof.
  intros Hp. unfold post_process_pass, bloom_stage, colour_adjust_stage,
    anti_aliasing_stage, mbind, M_bind, mret, M_ret.
  rewrite Hp. simpl. rewrite update_back_snoc. by destruct render_pass.
Qed.

Lemma add_pre_process_passes_plain passes pre sm w :
  Forall (fun p =>
    post_processing_description p = no_post_processing /\
    Forall (fun l => casts_shadows l = false)
      (directional_lights (lighting_rig (get_scene w (scene p))))) passes ->
  add_pre_process_passes passes pre sm w = (passes, pre, sm, w).
Proof.
  intros H. revert pre sm. induction H as [|p l [Hp Hl] _ IH]; intros pre sm; [done|].
  cbn [add_pre_process_passes]. unfold mbind, M_bind, mret, M_ret.
  unfold add_pre_process_passes_of, mbind, M_bind, mret, M_ret, get_world.
  rewrite (add_shadow_passes_none _ _ _ _ _ _ Hl), Hp. simpl. by rewrite IH.
Qed.

Lemma add_post_processing_passes_plain passes rps w :
  Forall (fun p => post_processing_description p = no_post_processing) passes ->
  add_post_processing_passes passes rps w = (rps ++ passes, w).
Proof.
  intros H. revert rps. induction H as [|p l Hp _ IH]; intros rps; simpl.
  - by rewrite app_nil_r.
  - unfold mbind, M_bind. rewrite (post_process_pass_plain _ _ _ Hp), IH.
    by rewrite <- app_assoc.
Qed.

(** X5. When no pass configures a post-processing effect and no
    directional light of the scene of a pass casts shadows, the first two
    loops of [build] do nothing: the deque is the input, the table of shadow
    maps is empty, no collaborator is called and the memory is as it was. *)
Theorem plain_passes_are_left_alone (render_passes : list RenderPass) (w : World) :
  Forall (fun p =>
    post_processing_description p = no_post_processing /\
    Forall (fun l => casts_shadows l = false)
      (directional_lights (lighting_rig (get_scene w (scene p))))) render_passes ->
  build_passes render_passes w = (render_passes, ∅, w) /\
  (build render_passes w).1.2 = render_passes.
Proof.
  intros H.
  assert (Hbuild : build_passes render_passes w = (render_passes, ∅, w)).
  { unfold build_passes, mbind, M_bind, mret, M_ret.
    rewrite (add_pre_process_passes_plain _ _ _ _ H). simpl.
    rewrite add_post_processing_passes_plain; [done|].
    apply (Forall_impl _ _ _ H). by intros p [? _]. }
  split; [done|]. by rewrite build_deque, Hbuild.
Qed.

Lemma build_spans render_passes w :
  exists spans present,
    (build render_passes w).1.1 = concat spans ++ [present] /\
    Forall2 pass_span (seq 0 (length (build_passes render_passes w).1.1)) spans.
Proof.
  unfold build, mbind, M_bind, mret, M_ret.
  destruct (build_passes render_passes w) as [[rps sm] w1].
  destruct (encode_passes_spans rps 0 rps empty_command [] sm w1) as (spans & Hq & Hspans).
  destruct (encode_passes rps 0 rps empty_command [] sm w1) as [[cmd q] w2].
  simpl in Hq. subst q. simpl. by eexists _, _.
Qed.

Lemma build_passes_keeps_passes render_passes w :
  length render_passes <= length (build_passes render_passes w).1.1.
Proof.
  destruct (build_passes_order render_passes w)
    as (pre & init & expansions & -> & _ & _ & _ & Hsame & Hexp & _).
  rewrite length_app, (Forall2_length _ _ _ Hsame). clear Hsame.
  induction Hexp as [|p e l k (m & ts & -> & _) _ IH]; simpl; [lia|].
  rewrite length_app.
  destruct (update_back_last (with_colour_target (colour_target p)) (chain p m ts))
    as (l' & x & _ & ->).
  { intros Hnil. apply (f_equal length) in Hnil. by rewrite chain_length in Hnil. }
  rewrite length_app. simpl. lia.
Qed.

(** X4. On an empty deque [build] returns one command, PRESENT, with every
    reference null; the deque stays empty, no collaborator is called and
    the memory is as it was.  That is the only input for which the queue is
    PRESENT alone: every input pass accounts for at least a PASS_START and a
    PASS_END in front of it. *)
Theorem build_of_no_passes (render_passes : list RenderPass) (w : World) :
  build [] w = ([mkRenderCommand PRESENT None None None None None], [], w) /\
  (length (build render_passes w).1.1 = 1 <-> render_passes = []) /\
  2 * length render_passes + 1 <= length (build render_passes w).1.1.
Proof.
  split; [reflexivity|].
  assert (Hlen : 2 * length render_passes + 1 <= length (build render_passes w).1.1).
  { destruct (build_spans render_passes w) as (spans & present & -> & Hspans).
    pose proof (build_passes_keeps_passes render_passes w) as Hle.
    rewrite length_app. simpl.
    assert (Hspan : 2 * length spans <= length (concat spans)).
    { clear Hle. induction Hspans as [|i span l k Hs _ IH]; simpl; [lia|].
      rewrite length_app. destruct Hs as [start draws stop _ _ _ _ _]. simpl.
      rewrite length_app. simpl. lia. }
    apply Forall2_length in Hspans. rewrite length_seq in Hspans. lia. }
  split; [|exact Hlen]. split.
  - intros H1. destruct render_passes; [done|]. simpl in Hlen. lia.
  - intros ->. reflexivity.
Qed.

(** X7. With colour adjustment and anti-aliasing both configured, the
    colour adjustment pass comes before the anti-aliasing pass, after the
    passes [ts] of bloom if there are any: the last pass before them renders
    into [t_ca], which the colour adjustment graph reads; the colour
    adjustment pass renders into [t_aa], which the anti-aliasing graph
    reads; the anti-aliasing pass renders where the original pass was meant
    to render.  The two passes use the last two entries of [pass_data_]. *)
Theorem colour_adjust_before_anti_aliasing (render_pass : RenderPass)
    (ca : ColourAdjustDescription) (rps : list RenderPass) (w : World) :
  colour_adjust (post_processing_description render_pass) = Some ca ->
  anti_aliasing (post_processing_description render_pass) = true ->
  exists ts t_ca t_aa k,
    k = length (pass_data_ w) + length ts /\
    length ts =
      match bloom (post_processing_description render_pass) with
      | Some b => iterations b + 3
      | None => 0
      end /\
    (post_process_pass render_pass rps w).1 =
      rps ++
      update_back (with_colour_target (Some t_ca))
        (chain render_pass (length (pass_data_ w)) ts) ++
      [with_colour_target (Some t_aa)
         (new_render_pass (PassDataScene k) (PassDataCamera k));
       with_colour_target (colour_target render_pass)
         (new_render_pass (PassDataScene (S k)) (PassDataCamera (S k)))] /\
    drop k (pass_data_ (post_process_pass render_pass rps w).2) =
      [stage_pass_data k (colour_adjust_render_graph ca t_ca);
       stage_pass_data (S k) (anti_aliasing_render_graph t_aa)].
Proof.
  intros Hca Haa. unfold post_process_pass, mbind, M_bind, mret, M_ret.
  destruct (bloom_stage_adds (post_processing_description render_pass)
              rps render_pass (length (pass_data_ w)) [] w)
    as (ts & data & w1 & E1 & Ht & Hd & Hp1 & _); [simpl; lia|].
  simpl in E1. rewrite E1.
  unfold colour_adjust_stage, anti_aliasing_stage. rewrite Hca, Haa.
  unfold mbind, M_bind, mret, M_ret.
  destruct (add_pass_chain rps render_pass (length (pass_data_ w)) ts
              (colour_adjust_graph ca) w1)
    as (t_ca & w2 & E2 & Hp2 & _); [rewrite Hp1, length_app; lia|].
  rewrite E2.
  destruct (add_pass_chain rps render_pass (length (pass_data_ w)) (ts ++ [t_ca])
              anti_aliasing_graph w2)
    as (t_aa & w3 & E3 & Hp3 & _).
  { rewrite Hp2, Hp1, !length_app. simpl. lia. }
  rewrite E3. simpl.
  exists ts, t_ca, t_aa, (length (pass_data_ w) + length ts).
  split; [done|]. split; [done|]. split.
  - rewrite update_back_app.
    2:{ intros Hnil. apply (f_equal length) in Hnil. by rewrite chain_length in Hnil. }
    f_equal.
    rewrite <- (chain_snoc render_pass _ (ts ++ [t_ca]) t_aa), update_back_snoc.
    rewrite <- (chain_snoc render_pass _ ts t_ca), update_back_snoc.
    rewrite <- app_assoc, length_app. simpl.
    by replace (length (pass_data_ w) + (length ts + 1))
      with (S (length (pass_data_ w) + length ts)) by lia.
  - rewrite Hp3, Hp2, Hp1, <- !app_assoc.
    rewrite app_assoc, drop_app_length' by (rewrite length_app; lia).
    rewrite length_app. simpl.
    by replace (length (pass_data_ w) + (length ts + 1))
      with (S (length (pass_data_ w) + length ts)) by lia.
Qed.

(** X9. [encode_light_pass_commands] asks for one material per entity of
    the scene, in the order of the entities and whatever the number of
    lights: for the graph of the entity, the entity, the colour target of
    the pass of the command, the light type, and the normal and position
    flags only when the type is AMBIENT.  Every command it pushes is a DRAW
    of the pass of the command in flight, with a light, for an entity of the
    scene and with the material made for that entity in this call. *)
Theorem one_material_per_entity_and_light_type (rps : list RenderPass)
    (scn : ScenePtr) (lt : LightType) (hn hp : bool) (cmd : RenderCommand)
    (q : list RenderCommand) (sm : gmap DirectionalLightPtr RenderTargetRef)
    (w : World) :
  exists ms out,
    length ms = length (entities (get_scene w scn)) /\
    (encode_light_pass_commands rps scn lt hn hp cmd q sm w).1.2 = q ++ out /\
    calls (encode_light_pass_commands rps scn lt hn hp cmd q sm w).2 =
      calls w ++
      material_calls scn (colour_target_of rps cmd) lt
        (hn && bool_decide (lt = AMBIENT)) (hp && bool_decide (lt = AMBIENT))
        0 (entities (get_scene w scn)) ms /\
    Forall (draws_with scn (render_pass cmd) 0 ms) out.
Proof.
  unfold encode_light_pass_commands, mbind, M_bind, get_world.
  destruct (encode_entities_materials rps scn (lighting_rig (get_scene w scn)) lt hn hp sm
              0 (entities (get_scene w scn)) cmd q w)
    as (ms & out & Hlen & Hq & _ & Hc & _ & Hout & _).
  by exists ms, out.
Qed.


(** X11. Every DRAW of the queue [build] returns names a pass, a light
    and an entity, and its material is the one the material factory has
    returned, in a call of the encoding loop of this build, for that entity:
    no DRAW is pushed with a material from before the build, from another
    entity's call or without one. *)
Theorem draw_commands_are_complete (render_passes : list RenderPass) (w : World) :
  exists new,
    calls (build render_passes w).2 = calls (build_passes render_passes w).2 ++ new /\
    Forall (command_complete new) (build render_passes w).1.1.
Proof.
  destruct (build_commands render_passes w) as (new & Hc & _ & _ & H & _).
  by exists new.
Qed.

(** X12. A command of the queue never holds a shadow map from elsewhere:
    its shadow map is null or the target that the table of shadow maps
    holds for some light. *)
Theorem shadow_maps_come_from_the_table (render_passes : list RenderPass) (w : World) :
  Forall (fun c => from_table (build_passes render_passes w).1.2 (shadow_map c))
    (build render_passes w).1.1.
Proof. by destruct (build_commands render_passes w) as (new & _ & _ & _ & _ & H & _). Qed.

(** X13. The shadow map of the command in flight is only ever written for
    a directional DRAW: every command of the queue holds the shadow map of
    the command before it (null for the first command), unless it is a DRAW
    for a directional light and holds what the table says about that light.
    Nothing resets the shadow map between entities, light types or passes. *)
Theorem shadow_map_is_kept_between_commands (render_passes : list RenderPass)
    (w : World) (n : nat) (c : RenderCommand) :
  (build render_passes w).1.1 !! n = Some c ->
  shadow_map c = previous_shadow_map None (build render_passes w).1.1 n \/
  exists l,
    type c = DRAW /\ light c = Some (DirectionalLightPtrOf l) /\
    shadow_map c = (build_passes render_passes w).1.2 !! l.
Proof.
  destruct (build_commands render_passes w) as (new & _ & _ & _ & _ & _ & s & H).
  apply (shadow_maps_follow_lookup _ _ _ _ _ _ H).
Qed.

(** X14. Every entry of the table of shadow maps is rendered: if the table
    maps the light [l] to the target [rt], then [l] is the light at some
    position [j] of the scene of an input pass, the final pass list holds
    the shadow pass of that pass and light with [rt] as colour target, and,
    when the scene is one of the caller's, light [j] of it casts shadows. *)
Theorem shadow_map_entries_are_rendered (render_passes : list RenderPass) (w : World)
    (l : DirectionalLightPtr) (rt : RenderTargetRef) :
  (build_passes render_passes w).1.2 !! l = Some rt ->
  exists n pass j,
    pass ∈ render_passes /\
    l = DirectionalLightAt (scene pass) j /\
    (build render_passes w).1.2 !! n = Some (shadow_pass pass j rt) /\
    forall a, scene pass = CallerScene a ->
      casts_shadows <$> directional_lights (lighting_rig (scenes w a)) !! j = Some true.
Proof.
  intros Hl.
  destruct (build_passes_effects render_passes w) as (data & new & _ & _ & _ & _ & Htab & _).
  rewrite build_deque. by apply Htab.
Qed.

(** X15. [build] leaves no pass pointing past the end of [pass_data_]: if
    the scenes and cameras of the input passes that live in [pass_data_] are
    entries that exist, so are those of every pass of the final list, in the
    memory [build] returns. *)
Theorem passes_point_into_pass_data (render_passes : list RenderPass) (w : World) :
  Forall (points_below (length (pass_data_ w))) render_passes ->
  Forall (points_below (length (pass_data_ (build render_passes w).2)))
    (build render_passes w).1.2.
Proof.
  intros Hv.
  destruct (build_passes_effects render_passes w) as (data & new & _ & _ & _ & _ & _ & H).
  destruct (build_commands render_passes w) as (new' & _ & Hlen & _).
  rewrite build_deque, Hlen. by apply H.
Qed.

(** X16. [build] never clears [pass_data_]: the passes are built on top of
    the entries that were there, which are left as they were, and every
    input pass adds one entry if it asks for ambient occlusion and one per
    post-processing stage; encoding the commands adds and removes none. *)
Theorem pass_data_grows_at_the_back (render_passes : list RenderPass) (w : World) :
  exists data,
    pass_data_ (build_passes render_passes w).2 = pass_data_ w ++ data /\
    length data = sum_list_with helper_count render_passes /\
    length (pass_data_ (build render_passes w).2) =
      length (pass_data_ w) + sum_list_with helper_count render_passes.
Proof.
  destruct (build_passes_effects render_passes w) as (data & new & Hp & Hd & _).
  destruct (build_commands render_passes w) as (new' & _ & Hlen & _).
  exists data. split; [done|]. split; [done|].
  by rewrite Hlen, Hp, length_app, Hd.
Qed.

(** X17. [build] creates all its render targets before its first
    material: the trace of a build is the calls of the first two loops,
    every one for a 1024 x 1024 target, a target of the size of the screen
    or a hybrid target, followed by the calls of the encoding loop, every
    one a call of the material factory. *)
Theorem targets_are_created_before_materials (render_passes : list RenderPass)
    (w : World) :
  exists targets materials,
    calls (build_passes render_passes w).2 = calls w ++ targets /\
    calls (build render_passes w).2 = calls w ++ targets ++ materials /\
    Forall target_request targets /\
    Forall (fun c => exists lt, material_call_of lt c) materials.
Proof.
  destruct (build_passes_effects render_passes w) as (data & targets & _ & _ & Hc & Ht & _).
  destruct (build_commands render_passes w) as (materials & Hc' & _ & Hm & _).
  exists targets, materials. split; [done|].
  split; [by rewrite Hc', Hc, <- app_assoc|]. split; [done|].
  apply (Forall_impl _ _ _ Hm). intros c (i & pass & _ & Hreq).
  destruct c; try done. by eexists.
Qed.

(** X8. The pass [add_pass] puts at the back of the deque has a scene of
    its own, the entry of [pass_data_] just made: one graph, the one the
    callback has filled in for the new target, one entity, a sprite of the
    size of the screen bound to that graph, and no light but the ambient
    one.  Encoding that pass, whatever its colour target has become, gives
    PASS_START, one ambient DRAW of the sprite and PASS_END. *)
Theorem helper_pass_draws_one_sprite (render_passes : list RenderPass)
    (create_render_graph_callback : GraphCallback) (w : World)
    (rps : list RenderPass) (i : nat) (t : option RenderTargetRef)
    (cmd : RenderCommand) (q : list RenderCommand)
    (sm : gmap DirectionalLightPtr RenderTargetRef) :
  last (add_pass render_passes create_render_graph_callback w).1.1
    = Some (new_render_pass (PassDataScene (length (pass_data_ w)))
              (PassDataCamera (length (pass_data_ w)))) /\
  get_scene (add_pass render_passes create_render_graph_callback w).2
      (PassDataScene (length (pass_data_ w))) =
    mkScene
      [create_render_graph_callback render_passes (mkRenderGraph (RenderNode None))
         (add_pass render_passes create_render_graph_callback w).1.2]
      [(RenderGraphAt (PassDataScene (length (pass_data_ w))) 0,
        mkRenderEntity SpriteMesh
          (ScaleTransform (float_of_N width_) (float_of_N height_) (1 - 1)%Q)
          single_entity_receive_shadow)]
      (mkLightingRig [] []) /\
  exists start draw stop,
    (encode_pass rps i
       (with_colour_target t
          (new_render_pass (PassDataScene (length (pass_data_ w)))
             (PassDataCamera (length (pass_data_ w)))))
       cmd q sm (add_pass render_passes create_render_graph_callback w).2).1.2
      = q ++ [start; draw; stop] /\
    type start = PASS_START /\ type stop = PASS_END /\
    view draw = draw_view (Some i) (EntityAt (PassDataScene (length (pass_data_ w))) 0)
                  (AmbientLightOf (PassDataScene (length (pass_data_ w)))).
Proof.
  set (n := length (pass_data_ w)).
  set (helper := with_colour_target t
                   (new_render_pass (PassDataScene n) (PassDataCamera n))).
  destruct (add_pass_spec render_passes create_render_graph_callback w)
    as (target & w1 & E & Hpd & Hs & Hc & Hl).
  rewrite E. simpl. split; [by rewrite last_snoc|].
  assert (Hscene : get_scene w1 (PassDataScene n) =
            pd_scene (stage_pass_data n
              (create_render_graph_callback render_passes
                 (mkRenderGraph (RenderNode None)) target))).
  { simpl. rewrite Hpd. unfold n. by rewrite nth_back. }
  split; [exact Hscene|].
  destruct (encode_pass_spec rps i helper cmd q sm w1)
    as (start & draws & stop & new & H).
  destruct H as [Hq [Hs1 _] [He1 _] Hviews _ _ _ _ _ _].
  assert (Hdraws : map view draws =
            [draw_view (Some i) (EntityAt (PassDataScene n) 0)
               (AmbientLightOf (PassDataScene n))]).
  { rewrite Hviews. unfold pass_views, ambient_views, point_views, directional_views,
      sky_views. simpl scene. simpl sky_box. simpl post_processing_description.
    rewrite Hscene. simpl. by destruct default_depth_only. }
  destruct draws as [|draw [|draw' draws]]; try done.
  exists start, draw, stop. rewrite Hq. simpl in Hdraws.
  split; [done|]. split; [done|]. split; [done|]. congruence.
Qed.

End Properties.

(** * Properties of the pool of texture units *)

Lemma fill_id_pool_eq GL_TEXTURE0 i pool :
  fill_id_pool GL_TEXTURE0 i pool =
    map (fun k => GLuint_of (GL_TEXTURE0 + Z.of_nat k)) (seq 1 i) ++ pool.
Proof.
  revert pool. induction i as [|i IH]; intros pool; [done|].
  cbn [fill_id_pool]. rewrite IH, seq_S, map_app, <- app_assoc. done.
Qed.

Lemma new_manager_pool GL_TEXTURE0 :
  id_pool_ (new_OpenGLTextureManager GL_TEXTURE0) = texture_units GL_TEXTURE0.
Proof.
  unfold new_OpenGLTextureManager, texture_units, id_pool_.
  by rewrite fill_id_pool_eq, app_nil_r.
Qed.

Lemma next_ids_pool ids rest :
  next_ids (length ids) (mkOpenGLTextureManager (ids ++ rest)) =
    Value (ids, mkOpenGLTextureManager rest).
Proof.
  induction ids as [|id ids IH]; [done|].
  cbn [length next_ids]. unfold next_id. simpl. by rewrite IH.
Qed.

Lemma texture_units_NoDup GL_TEXTURE0 : NoDup (texture_units GL_TEXTURE0).
Proof.
  unfold texture_units. apply NoDup_fmap_2_strong; [|apply NoDup_seq].
  intros j k Hj Hk Heq. apply elem_of_seq in Hj, Hk. unfold GLuint_of in Heq.
  assert (H : ((GL_TEXTURE0 + Z.of_nat j - (GL_TEXTURE0 + Z.of_nat k)) mod 2 ^ 32 = 0)%Z).
  { rewrite Zminus_mod, Heq, Z.sub_diag. done. }
  replace (GL_TEXTURE0 + Z.of_nat j - (GL_TEXTURE0 + Z.of_nat k))%Z
    with (Z.of_nat j - Z.of_nat k)%Z in H by lia.
  apply Z.mod_divide in H; [|done]. destruct H as [c Hc].
  assert (c = 0)%Z by lia. lia.
Qed.

Lemma next_ids_exhausted ids n :
  length ids < n ->
  next_ids n (mkOpenGLTextureManager ids) = ExpectFailed "texture id pool empty".
Proof.
  revert n. induction ids as [|id ids IH]; intros [|n] Hn; simpl in Hn; try lia.
  - done.
  - cbn [next_ids]. unfold next_id. simpl. rewrite IH; [done|lia].
Qed.

Lemma texture_units_length GL_TEXTURE0 : length (texture_units GL_TEXTURE0) = 79.
Proof. unfold texture_units. by rewrite length_map, length_seq. Qed.

Lemma texture_unit_0_not_handed_out GL_TEXTURE0 :
  GLuint_of GL_TEXTURE0 ∉ texture_units GL_TEXTURE0.
Proof.
  unfold texture_units. intros (k & Heq & Hk)%list_elem_of_fmap.
  apply elem_of_seq in Hk. unfold GLuint_of in Heq.
  assert (H : ((GL_TEXTURE0 + Z.of_nat k - GL_TEXTURE0) mod 2 ^ 32 = 0)%Z).
  { rewrite Zminus_mod, <- Heq, Z.sub_diag. done. }
  replace (GL_TEXTURE0 + Z.of_nat k - GL_TEXTURE0)%Z with (Z.of_nat k) in H by lia.
  apply Z.mod_divide in H; [|done]. destruct H as [c Hc].
  assert (c = 0)%Z by lia. lia.
Qed.

(** X1. A new manager holds the 79 texture units [GL_TEXTURE0 + 1] to
    [GL_TEXTURE0 + 79] and hands them out lowest first; the 80th call of
    [next_id] in a row fails with "texture id pool empty".  The 79 ids are
    different from each other, and [GL_TEXTURE0] itself is not one of
    them. *)
Theorem new_manager_hands_out_79_units (GL_TEXTURE0 : Z) :
  next_ids 79 (new_OpenGLTextureManager GL_TEXTURE0) =
    Value (map (fun k => GLuint_of (GL_TEXTURE0 + Z.of_nat k)) (seq 1 79),
           mkOpenGLTextureManager []) /\
  next_ids 80 (new_OpenGLTextureManager GL_TEXTURE0) =
    ExpectFailed "texture id pool empty" /\
  NoDup (map (fun k => GLuint_of (GL_TEXTURE0 + Z.of_nat k)) (seq 1 79)) /\
  GLuint_of GL_TEXTURE0 ∉ map (fun k => GLuint_of (GL_TEXTURE0 + Z.of_nat k)) (seq 1 79).
Proof.
  pose proof (new_manager_pool GL_TEXTURE0) as Hpool.
  destruct (new_OpenGLTextureManager GL_TEXTURE0) as [pool]. simpl in Hpool. subst pool.
  pose proof (texture_units_length GL_TEXTURE0) as Hlen.
  split; [|split; [|split]].
  - pose proof (next_ids_pool (texture_units GL_TEXTURE0) []) as H.
    by rewrite app_nil_r, Hlen in H.
  - apply next_ids_exhausted. lia.
  - apply texture_units_NoDup.
  - apply texture_unit_0_not_handed_out.
Qed.

Lemma serve_keeps_ids request m live m' live' :
  serve request (m, live) = Value (m', live') ->
  id_pool_ m' ++ map live_id live' ≡ₚ id_pool_ m ++ map live_id live.
Proof.
  destruct request as [index|index|index|n]; simpl.
  - unfold do_create_texture, next_id. destruct m as [[|id pool]]; simpl; [done|].
    intros [= <- <-]. simpl. by rewrite <- Permutation_middle.
  - unfold do_create_cube_map, next_id. destruct m as [[|id pool]]; simpl; [done|].
    intros [= <- <-]. simpl. by rewrite <- Permutation_middle.
  - by intros [= <- <-].
  - destruct (live !! n) as [o|] eqn:Hn; [|by intros [= <- <-]].
    assert (Hlive : map live_id live ≡ₚ live_id o :: map live_id (delete n live)).
    { change (live_id o :: map live_id (delete n live))
        with (map live_id (o :: delete n live)).
      apply fmap_Permutation. by apply delete_Permutation. }
    destruct o as [texture|cube_map]; intros [= <- <-];
      unfold destroy_texture, destroy_cube_map, return_id; simpl in *;
      by rewrite Hlive, <- Permutation_middle.
Qed.

Lemma serve_all_keeps_ids requests m live m' live' :
  serve_all requests (m, live) = Value (m', live') ->
  id_pool_ m' ++ map live_id live' ≡ₚ id_pool_ m ++ map live_id live.
Proof.
  revert m live. induction requests as [|request rest IH]; intros m live;
    cbn [serve_all].
  - by intros [= <- <-].
  - destruct (serve request (m, live)) as [[m1 live1]|] eqn:E; [|done].
    intros H. rewrite (IH _ _ H). by apply (serve_keeps_ids request).
Qed.

(** X2. Whatever textures, cube maps and samplers a user creates with a new
    manager and whichever of its live textures and cube maps it destroys,
    as long as no creation has failed: the ids in the pool together with the
    ids of the live objects are the 79 units the manager started with, each
    once.  So no two live objects share a texture unit, textures and cube
    maps draw on the same pool while samplers take nothing from it, and
    creating a texture fails exactly when 79 objects are live. *)
Theorem live_objects_hold_distinct_units (GL_TEXTURE0 : Z)
    (requests : list TextureRequest) (m : OpenGLTextureManager)
    (live : list LiveObject) :
  serve_all requests (new_OpenGLTextureManager GL_TEXTURE0, []) = Value (m, live) ->
  id_pool_ m ++ map live_id live ≡ₚ texture_units GL_TEXTURE0 /\
  NoDup (map live_id live) /\
  length (id_pool_ m) + length live = 79 /\
  (forall index,
     do_create_texture index m = ExpectFailed "texture id pool empty" <->
     length live = 79).
Proof.
  intros H. apply serve_all_keeps_ids in H.
  change (map live_id []) with (@nil GLuint) in H.
  rewrite app_nil_r, new_manager_pool in H.
  assert (Hlen : length (id_pool_ m) + length live = 79).
  { apply Permutation_length in H.
    by rewrite length_app, length_map, texture_units_length in H. }
  split; [done|]. split.
  - pose proof (texture_units_NoDup GL_TEXTURE0) as Hnd. rewrite <- H in Hnd.
    by apply NoDup_app in Hnd as (_ & _ & ?).
  - split; [done|]. intros index. unfold do_create_texture, next_id.
    destruct m as [[|id pool]]; simpl in *.
    + split; [lia|done].
    + split; [done|lia].
Qed.

Lemma return_ids_pool m ids :
  foldl (fun m id => return_id id m) m ids =
    mkOpenGLTextureManager (reverse ids ++ id_pool_ m).
Proof.
  revert m. induction ids as [|id ids IH]; intros m; simpl.
  - by destruct m.
  - rewrite IH, reverse_cons, <- app_assoc. done.
Qed.

(** X3. The pool is a stack: the ids returned by [return_id] (by [destroy])
    come out of [next_id] again before any other id, the last returned
    first, after which the pool is as it was. *)
Theorem returned_ids_are_reused_last_in_first_out (m : OpenGLTextureManager)
    (ids : list GLuint) :
  next_ids (length ids) (foldl (fun m id => return_id id m) m ids) =
    Value (reverse ids, m).
Proof.
  rewrite return_ids_pool, <- (length_reverse ids), next_ids_pool. by destruct m.
Qed.

(** * Runs on the counting backend *)

Section Runs.
#[local] Existing Instance counting_backend.

(** C2, where the code departs from it.  One pass over [shadow_scene]: the
    light casts shadows, the first entity receives them and the second does
    not.  The DRAW for the second entity and the light (the command at
    position 10) holds the shadow map of the light, left in the command in
    flight by the DRAW for the first entity: the shadow map is set when the
    entity receives shadows and not reset when it does not. *)
Theorem non_receiver_draw_holds_stale_shadow_map :
  exists c,
    (build [plain_pass_on_scene_0] (world_of shadow_scene)).1.1 !! 10 = Some c /\
    type c = DRAW /\
    render_entity c = Some (EntityAt (CallerScene 0) 1) /\
    light c = Some (DirectionalLightPtrOf (DirectionalLightAt (CallerScene 0) 0)) /\
    (receive_shadow ∘ snd <$> entities shadow_scene !! 1) = Some false /\
    shadow_map c = Some 100.
Proof. eexists. split; [vm_compute; reflexivity|]. by vm_compute. Qed.




(** ** The theorems with hypotheses, at concrete inputs *)


Lemma missing_shadow_map_is_null_witness :
  (encode_pass [plain_pass_on_scene_0] 0 plain_pass_on_scene_0 empty_command []
     ∅ (world_of plain_scene)).1.2 !! 2
    = Some directional_draw_without_shadow_map /\
  shadow_map directional_draw_without_shadow_map = None.
Proof.
  split; [reflexivity|].
  apply (missing_shadow_map_is_null [plain_pass_on_scene_0] 0 plain_pass_on_scene_0
           empty_command [] ∅ (world_of plain_scene) 2
           directional_draw_without_shadow_map 0
           (DirectionalLightAt (CallerScene 0) 0)
           (RenderGraphAt (CallerScene 0) 0)
           (mkRenderEntity (CallerMesh 0) (CallerTransform 0) true)).
  - simpl. lia.
  - reflexivity.
  - reflexivity.
  - reflexivity.
  - reflexivity.
  - reflexivity.
  - reflexivity.
  - reflexivity.
Defined.

Lemma no_material_without_light_witness :
  POINT <> AMBIENT /\
  light_count POINT
    (lighting_rig (get_scene (world_of plain_scene) (scene plain_pass_on_scene_0))) = 0 /\
  Forall (fun c => ~ material_call_of POINT c)
    (drop (length (calls (world_of plain_scene)))
       (calls (encode_pass [plain_pass_on_scene_0] 0 plain_pass_on_scene_0
                 empty_command [] ∅ (world_of plain_scene)).2)).
Proof.
  split; [discriminate|]. split; [reflexivity|].
  apply (no_material_without_light [plain_pass_on_scene_0] 0 plain_pass_on_scene_0
           empty_command [] ∅ (world_of plain_scene) POINT).
  - discriminate.
  - reflexivity.
Defined.

(** ** The further theorems with hypotheses, at concrete inputs *)

Lemma live_objects_hold_distinct_units_witness :
  exists (m : OpenGLTextureManager) (live : list LiveObject),
    serve_all texture_requests (new_OpenGLTextureManager GL_TEXTURE0_value, [])
      = Value (m, live) /\
    map live_id live = [33986%Z] /\
    NoDup (map live_id live) /\
    length (id_pool_ m) + length live = 79.
Proof.
  eexists _, _. split; [vm_compute; reflexivity|]. split; [reflexivity|].
  destruct (live_objects_hold_distinct_units GL_TEXTURE0_value texture_requests _ _ eq_refl)
    as (_ & Hdistinct & Hlen & _).
  split; [exact Hdistinct|exact Hlen].
Defined.

Lemma plain_passes_are_left_alone_witness :
  Forall (fun p =>
    post_processing_description p = no_post_processing /\
    Forall (fun l => casts_shadows l = false)
      (directional_lights (lighting_rig (get_scene (world_of plain_scene) (scene p)))))
    [plain_pass_on_scene_0] /\
  build_passes [plain_pass_on_scene_0] (world_of plain_scene)
    = ([plain_pass_on_scene_0], ∅, world_of plain_scene).
Proof.
  assert (H : Forall (fun p =>
    post_processing_description p = no_post_processing /\
    Forall (fun l => casts_shadows l = false)
      (directional_lights (lighting_rig (get_scene (world_of plain_scene) (scene p)))))
    [plain_pass_on_scene_0]).
  { constructor; [|constructor]. split; [reflexivity|].
    constructor; [reflexivity|constructor]. }
  split; [exact H|].
  exact (proj1 (plain_passes_are_left_alone [plain_pass_on_scene_0]
                  (world_of plain_scene) H)).
Defined.

Lemma colour_adjust_before_anti_aliasing_witness :
  colour_adjust (post_processing_description full_post_processing_pass) = Some tt /\
  anti_aliasing (post_processing_description full_post_processing_pass) = true /\
  exists (ts : list RenderTargetRef) t_ca t_aa,
    length ts = 4 /\
    drop 4 (pass_data_ (post_process_pass full_post_processing_pass []
                          (world_of plain_scene)).2) =
      [stage_pass_data 4 (colour_adjust_render_graph tt t_ca);
       stage_pass_data 5 (anti_aliasing_render_graph t_aa)].
Proof.
  split; [reflexivity|]. split; [reflexivity|].
  destruct (colour_adjust_before_anti_aliasing full_post_processing_pass tt []
              (world_of plain_scene) eq_refl eq_refl)
    as (ts & t_ca & t_aa & k & Hk & Hts & _ & Hdata).
  exists ts, t_ca, t_aa. simpl in Hts, Hk. split; [exact Hts|].
  rewrite Hts in Hk. simpl in Hk. rewrite Hk in Hdata. exact Hdata.
Defined.

Lemma shadow_map_is_kept_between_commands_witness :
  exists c,
    (build [plain_pass_on_scene_0] (world_of shadow_scene)).1.1 !! 10 = Some c /\
    (shadow_map c =
       previous_shadow_map None
         (build [plain_pass_on_scene_0] (world_of shadow_scene)).1.1 10 \/
     exists l,
       type c = DRAW /\ light c = Some (DirectionalLightPtrOf l) /\
       shadow_map c = (build_passes [plain_pass_on_scene_0] (world_of shadow_scene)).1.2 !! l).
Proof.
  eexists. split; [vm_compute; reflexivity|].
  apply (shadow_map_is_kept_between_commands [plain_pass_on_scene_0]
           (world_of shadow_scene) 10).
  vm_compute. reflexivity.
Defined.

Lemma shadow_map_entries_are_rendered_witness :
  (build_passes [plain_pass_on_scene_0] (world_of shadow_scene)).1.2
    !! DirectionalLightAt (CallerScene 0) 0 = Some 100 /\
  exists n pass j,
    pass ∈ [plain_pass_on_scene_0] /\
    DirectionalLightAt (CallerScene 0) 0 = DirectionalLightAt (scene pass) j /\
    (build [plain_pass_on_scene_0] (world_of shadow_scene)).1.2 !! n
      = Some (shadow_pass pass j 100).
Proof.
  split; [vm_compute; reflexivity|].
  destruct (shadow_map_entries_are_rendered [plain_pass_on_scene_0]
              (world_of shadow_scene) (DirectionalLightAt (CallerScene 0) 0) 100)
    as (n & pass & j & Hin & Hl & Hn & _).
  { vm_compute. reflexivity. }
  exists n, pass, j. split; [exact Hin|]. split; [exact Hl|exact Hn].
Defined.

Lemma passes_point_into_pass_data_witness :
  Forall (points_below (length (pass_data_ (world_of plain_scene)))) [bloom_pass] /\
  Forall (points_below (length (pass_data_ (build [bloom_pass] (world_of plain_scene)).2)))
    (build [bloom_pass] (world_of plain_scene)).1.2.
Proof.
  assert (H : Forall (points_below (length (pass_data_ (world_of plain_scene))))
                [bloom_pass]).
  { constructor; [|constructor]. unfold points_below. simpl. constructor. }
  split; [exact H|].
  exact (passes_point_into_pass_data [bloom_pass] (world_of plain_scene) H).
Defined.

End Runs.
